(** * Image redaction service: coordinate resolver, pixelate step, job store,
      batch orchestrator and S3 idempotency path.

    A shallow embedding of the TypeScript sources

      - utils/coords.ts                  (module [Coords])
      - modules/base64/controller.ts     (module [Base64], region pre-clamp)
      - modules/redaction/schemas.ts     (module [Schemas])
      - modules/redaction/pipeline.ts    (module [Pipeline])
      - modules/batch/jobStore.ts        (module [JobStore])
      - modules/redaction/errors.ts, modules/redaction/s3.service.ts,
        utils/hash.ts, modules/batch/controller.ts and
        modules/redaction/controller.ts  (module [Service])
      - utils/mime.ts                    (module [Mime])
      - modules/redaction/service.ts     (module [RedactionService], with
        the rest of pipeline.ts)
      - modules/base64/controller.ts     (module [Base64Controller], the
        request, the conversion and the handler)

    Modelling conventions.
      - A JavaScript [number] that the schema restricts to integers is a [Z];
        a unit-interval number is an exact rational [Q] (the doubles of the
        source are idealised to rationals); [Math.round] is
        [fun q => Qfloor (q + 1/2)], [Math.floor (a / b)] on integers with
        [b > 0] is [Z.div].
      - A function that may [throw] returns a [result]; a caught exception is
        a [match] on it.  What the modelled functions and their environment
        throw are [Error] objects; [normalizeError], which is exported for
        any caught value, also takes a value that is not one.
      - [Date.now ()] / [new Date ()] is an explicit argument [now] (epoch
        milliseconds), [generateRandomId] an explicit argument [jobId].
      - The [Map] of the job store keeps insertion order (its iteration
        order feeds a stable sort), so it is an association list.
      - The object storage behind the S3 client, the image pipeline behind
        [redactImage], the hash and the webhook sink are the environment:
        section variables in [Service], and for the scenarios a storage
        that is a [gmap] from (bucket, key) to bytes ([MemoryS3]) and a
        scripted sink.  Effects are recorded in a trace of events. *)

From Stdlib Require Import ZArith QArith Qround Qminmax Lqa List String Ascii Lia Bool.
From Stdlib Require Import Sorted Permutation.
From stdpp Require Import gmap strings list pretty.
From Equations Require Import Equations.
Import ListNotations.

Local Open Scope string_scope.
Local Open Scope list_scope.
Local Open Scope Z_scope.

(** ** Exceptions *)

(** A thrown JavaScript [Error]: its [name], its [message] and, for the
    classes that carry them, [code] and [statusCode].  [err_declared] tells
    whether the error was constructed with one of the error classes that
    this repository declares (errors.ts, pipeline.ts, service.ts,
    s3.service.ts); such a constructor sets [name] to the name of its class,
    and nothing changes it later.  An error of the platform or of a library
    ([Error], [TypeError], [ZodError], the errors of the S3 client and of
    the image library) is not declared, whatever its [name] and fields. *)
Record JsError := mkJsError {
  err_declared : bool;
  err_name : string;
  err_message : string;
  err_code : option string;
  err_statusCode : option Z }.

(** [new Error (message)], or an error of a library, with the given
    [name]. *)
Definition mkError (name message : string) : JsError :=
  mkJsError false name message None None.

(** [error instanceof C] for a class [C] declared in this repository,
    given the names of [C] and of its subclasses. *)
Definition instance_of (classes : list string) (error : JsError) : bool :=
  err_declared error && existsb (String.eqb (err_name error)) classes.

(** A value caught by [catch]: an [Error], or anything else that was
    thrown. *)
Inductive Thrown :=
| ThrownError (error : JsError)
| ThrownValue.

Coercion ThrownError : JsError >-> Thrown.

Inductive result (A : Type) : Type :=
| Ok (a : A)
| Throw (e : JsError).
Arguments Ok {A} a.
Arguments Throw {A} e.

Definition bind {A B} (m : result A) (k : A -> result B) : result B :=
  match m with
  | Ok a => k a
  | Throw e => Throw e
  end.

Declare Scope result_scope.
Delimit Scope result_scope with result.
Notation "'let?' x ':=' m 'in' k" := (bind m (fun x => k))
  (at level 10, x pattern, m at level 100, k at level 200) : result_scope.

Definition is_ok {A} (m : result A) : bool :=
  match m with Ok _ => true | Throw _ => false end.

(** [Math.round]: nearest integer, halves towards plus infinity. *)
Definition Math_round (q : Q) : Z := Qfloor (q + (1 # 2)).

(** ** utils/coords.ts *)

Module Coords.

Record ImageDimensions := mkDims { dim_width : Z; dim_height : Z }.

Record PixelCoordinates := mkPixel { x : Z; y : Z; width : Z; height : Z }.

Record NormalizedCoordinates :=
  mkNorm { x_norm : Q; y_norm : Q; w_norm : Q; h_norm : Q }.

(** [Coordinates = PixelCoordinates | NormalizedCoordinates]; the type
    guards [isPixelCoordinates] / [isNormalizedCoordinates] test which
    field names are present.  [OtherShape] stands for a run-time value
    that passes neither guard. *)
Inductive Coordinates :=
| Pixel (p : PixelCoordinates)
| Normalized (n : NormalizedCoordinates)
| OtherShape.

Definition isPixelCoordinates (c : Coordinates) : bool :=
  match c with Pixel _ => true | _ => false end.

Definition isNormalizedCoordinates (c : Coordinates) : bool :=
  match c with Normalized _ => true | _ => false end.

Definition normalizedToPixel (coords : NormalizedCoordinates)
    (dimensions : ImageDimensions) : PixelCoordinates :=
  {| x := Math_round (x_norm coords * inject_Z (dim_width dimensions));
     y := Math_round (y_norm coords * inject_Z (dim_height dimensions));
     width := Math_round (w_norm coords * inject_Z (dim_width dimensions));
     height := Math_round (h_norm coords * inject_Z (dim_height dimensions)) |}.

Definition toPixelCoordinates (coords : Coordinates)
    (dimensions : ImageDimensions) : result PixelCoordinates :=
  match coords with
  | Pixel p => Ok p
  | Normalized n => Ok (normalizedToPixel n dimensions)
  | OtherShape => Throw (mkError "Error" "Invalid coordinate type")
  end.

Definition clampToImageBounds (coords : PixelCoordinates)
    (dimensions : ImageDimensions) : PixelCoordinates :=
  let x' := Z.max 0 (Z.min (x coords) (dim_width dimensions)) in
  let y' := Z.max 0 (Z.min (y coords) (dim_height dimensions)) in
  let maxWidth := dim_width dimensions - x' in
  let maxHeight := dim_height dimensions - y' in
  let width' := Z.max 1 (Z.min (width coords) maxWidth) in
  let height' := Z.max 1 (Z.min (height coords) maxHeight) in
  {| x := x'; y := y'; width := width'; height := height' |}.

Definition processCoordinates (coords : Coordinates)
    (dimensions : ImageDimensions) : result PixelCoordinates :=
  (let? pixelCoords := toPixelCoordinates coords dimensions in
   Ok (clampToImageBounds pixelCoords dimensions))%result.

(** The output contract of the resolver for an image of the given
    dimensions. *)
Definition in_bounds (r : PixelCoordinates) (d : ImageDimensions) : Prop :=
  0 <= x r < dim_width d /\ 0 <= y r < dim_height d /\
  x r + width r <= dim_width d /\ y r + height r <= dim_height d /\
  1 <= width r /\ 1 <= height r.

(** The extent left by [Math.min (coords.width, maxWidth)], before the
    floor of one is applied. *)
Definition clampedWidth (p : PixelCoordinates) (d : ImageDimensions) : Z :=
  Z.min (width p) (dim_width d - x (clampToImageBounds p d)).

Definition clampedHeight (p : PixelCoordinates) (d : ImageDimensions) : Z :=
  Z.min (height p) (dim_height d - y (clampToImageBounds p d)).

(** The answer of [validateCoordinates]: [{ valid, error? }]. *)
Record Validation := mkValidation { valid : bool; error : option string }.

(** [a < b] on numbers. *)
Definition Qlt_bool (a b : Q) : bool := negb (Qle_bool b a).

(** None of the tests can throw, so the [catch] of the source is not
    reached. *)
Definition validateCoordinates (coords : Coordinates)
    (dimensions : ImageDimensions) : Validation :=
  match coords with
  | Pixel p =>
      if (x p <? 0) || (y p <? 0) then
        mkValidation false (Some "Coordinates cannot be negative")
      else if (width p <=? 0) || (height p <=? 0) then
        mkValidation false (Some "Width and height must be positive")
      else if (dim_width dimensions <=? x p) || (dim_height dimensions <=? y p) then
        mkValidation false (Some "Coordinates exceed image dimensions")
      else mkValidation true None
  | Normalized n =>
      if Qlt_bool (x_norm n) 0 || Qlt_bool 1 (x_norm n)
         || Qlt_bool (y_norm n) 0 || Qlt_bool 1 (y_norm n) then
        mkValidation false (Some "Normalized coordinates must be between 0 and 1")
      else if Qle_bool (w_norm n) 0 || Qle_bool (h_norm n) 0 then
        mkValidation false (Some "Normalized width and height must be positive")
      else if Qlt_bool 1 (x_norm n + w_norm n) || Qlt_bool 1 (y_norm n + h_norm n) then
        mkValidation false (Some "Normalized region exceeds image bounds")
      else mkValidation true None
  | OtherShape => mkValidation false (Some "Invalid coordinate type")
  end.

End Coords.

(** ** modules/base64/controller.ts: the per-region pre-clamp *)

Module Base64.

(** [coordsSchema]: four numbers, [width] and [height] positive. *)
Record SimpleCoords := mkSimple { sx : Q; sy : Q; swidth : Q; sheight : Q }.

Definition coordsSchema (c : SimpleCoords) : bool :=
  negb (Qle_bool (swidth c) 0) && negb (Qle_bool (sheight c) 0).

(** The reply sent by an early [return reply.status (..).send (..)]. *)
Record Reply := mkReply { reply_status : Z; reply_code : string }.

Definition INVALID_REGION : Reply := mkReply 400 "INVALID_REGION".

Definition isNormalized (c : SimpleCoords) : bool :=
  Qle_bool (sx c) 1 && Qle_bool (sy c) 1 &&
  Qle_bool (swidth c) 1 && Qle_bool (sheight c) 1.

(** Unit-interval branch: the four clamped fields, before the area test. *)
Definition clampUnit (c : SimpleCoords) : SimpleCoords :=
  let x' := Qmax 0 (Qmin 1 (sx c)) in
  let y' := Qmax 0 (Qmin 1 (sy c)) in
  let w' := Qmax 0 (Qmin (1 - x') (swidth c)) in
  let h' := Qmax 0 (Qmin (1 - y') (sheight c)) in
  mkSimple x' y' w' h'.

(** Pixel branch: round, clamp [x], [y] into the image, then the extent. *)
Definition clampPixel (imgWidth imgHeight : Z) (c : SimpleCoords) : SimpleCoords :=
  let x0 := Math_round (sx c) in
  let y0 := Math_round (sy c) in
  let w0 := Math_round (swidth c) in
  let h0 := Math_round (sheight c) in
  let x' := Z.max 0 (Z.min (imgWidth - 1) x0) in
  let y' := Z.max 0 (Z.min (imgHeight - 1) y0) in
  let w' := Z.max 1 (Z.min (imgWidth - x') w0) in
  let h' := Z.max 1 (Z.min (imgHeight - y') h0) in
  mkSimple (inject_Z x') (inject_Z y') (inject_Z w') (inject_Z h').

(** Body of the loop "Clamp region coordinates to image bounds" for one
    region: either the early reply or the adjusted coordinates. *)
Definition clampRegion (imgWidth imgHeight : Z) (c : SimpleCoords)
    : Reply + SimpleCoords :=
  if isNormalized c then
    let c' := clampUnit c in
    if Qle_bool (swidth c') 0 || Qle_bool (sheight c') 0
    then inl INVALID_REGION
    else inr c'
  else inr (clampPixel imgWidth imgHeight c).

(** The coordinates part of [convertToInternalRegion]. *)
Definition convertCoordinates (c : SimpleCoords) : Coords.Coordinates :=
  if isNormalized c then
    Coords.Normalized (Coords.mkNorm (sx c) (sy c) (swidth c) (sheight c))
  else
    Coords.Pixel (Coords.mkPixel (Math_round (sx c)) (Math_round (sy c))
                    (Math_round (swidth c)) (Math_round (sheight c))).

End Base64.

(** ** modules/redaction/schemas.ts and dtos.ts *)

Module Schemas.

Inductive Size := SizeS | SizeM | SizeL.

Definition BLUR_SIZE_MAP (s : Size) : Z :=
  match s with SizeS => 3 | SizeM => 6 | SizeL => 12 end.

Definition PIXELATE_SIZE_MAP (s : Size) : Z :=
  match s with SizeS => 6 | SizeM => 12 | SizeL => 24 end.

Inductive RedactionOperation :=
| OpBlur (size : Size)
| OpPixelate (size : Size)
| OpFill (color : string).

Record Region := mkRegion {
  coordinates : Coords.Coordinates;
  operation : RedactionOperation }.

Inductive ImageFormat := webp | jpeg.

Record S3Object := mkS3Object { bucket : string; key : string }.

(** [s3ObjectSchema.extend ({ format, quality })]. *)
Record S3Output := mkS3Output {
  out_bucket : string;
  out_key : string;
  format : ImageFormat;
  quality : option Z }.

Record S3RedactionRequest := mkS3Request {
  input : S3Object;
  output : S3Output;
  regions : list Region;
  idempotency_key : option string }.

Record BatchRequest := mkBatchRequest {
  items : list S3RedactionRequest;
  webhook_url : option string }.

(** The schemas are applied to a body that already has the shape of the
    record (field presence and JSON types are the type of the record);
    what remains are the value constraints. *)

Definition is_hex_digit (a : ascii) : bool :=
  let n := nat_of_ascii a in
  ((48 <=? n) && (n <=? 57) || (65 <=? n) && (n <=? 70) ||
   (97 <=? n) && (n <=? 102))%nat.

Fixpoint all_hex (s : string) : bool :=
  match s with
  | EmptyString => true
  | String a s' => is_hex_digit a && all_hex s'
  end.

(** [/^#([0-9A-Fa-f]{6}|[0-9A-Fa-f]{8})$/] *)
Definition colorSchema (s : string) : bool :=
  match s with
  | String "#" rest =>
      all_hex rest && ((String.length rest =? 6) || (String.length rest =? 8))%nat
  | _ => false
  end.

Definition pixelCoordinatesSchema (p : Coords.PixelCoordinates) : bool :=
  (0 <=? Coords.x p) && (0 <=? Coords.y p) &&
  (1 <=? Coords.width p) && (1 <=? Coords.height p).

Definition unit_interval (q : Q) : bool := Qle_bool 0 q && Qle_bool q 1.

Definition normalizedCoordinatesSchema (n : Coords.NormalizedCoordinates) : bool :=
  unit_interval (Coords.x_norm n) && unit_interval (Coords.y_norm n) &&
  unit_interval (Coords.w_norm n) && unit_interval (Coords.h_norm n).

Definition operationSchema (o : RedactionOperation) : bool :=
  match o with
  | OpFill color => colorSchema color
  | _ => true
  end.

Definition regionSchema (r : Region) : bool :=
  match coordinates r with
  | Coords.Pixel p => pixelCoordinatesSchema p
  | Coords.Normalized n => normalizedCoordinatesSchema n
  | Coords.OtherShape => false
  end && operationSchema (operation r).

Definition min_length_1 (s : string) : bool := (1 <=? String.length s)%nat.

Definition s3ObjectSchema (o : S3Object) : bool :=
  min_length_1 (bucket o) && min_length_1 (key o).

Definition qualitySchema (q : option Z) : bool :=
  match q with
  | None => true
  | Some n => (1 <=? n) && (n <=? 100)
  end.

Definition s3OutputSchema (o : S3Output) : bool :=
  min_length_1 (out_bucket o) && min_length_1 (out_key o) &&
  qualitySchema (quality o).

Definition s3RedactionRequestSchema (r : S3RedactionRequest) : bool :=
  s3ObjectSchema (input r) && s3OutputSchema (output r) &&
  (1 <=? length (regions r))%nat && (length (regions r) <=? 20)%nat &&
  forallb regionSchema (regions r).

Definition batchItemSchema := s3RedactionRequestSchema.

Definition ZodError (message : string) : JsError := mkError "ZodError" message.

Section Parse.
(** The URL syntax check of [z.string ().url ()] and the message of the
    [ZodError] that [parse] throws for a body, which lists the issues the
    library found in it, belong to the validation library and are
    parameters. *)
Variable isUrl : string -> bool.
Variable s3_issues : S3RedactionRequest -> string.
Variable batch_issues : BatchRequest -> string.

(** [s3RedactionRequestSchema.parse (body)] *)
Definition s3RedactionRequestSchema_parse (body : S3RedactionRequest)
    : result S3RedactionRequest :=
  if s3RedactionRequestSchema body then Ok body
  else Throw (ZodError (s3_issues body)).

Definition webhookUrlSchema (u : option string) : bool :=
  match u with None => true | Some s => isUrl s end.

Definition batchRequestSchema (b : BatchRequest) : bool :=
  (1 <=? length (items b))%nat && (length (items b) <=? 10)%nat &&
  forallb batchItemSchema (items b) &&
  webhookUrlSchema (webhook_url b).

(** [batchRequestSchema.parse (body)] *)
Definition batchRequestSchema_parse (body : BatchRequest) : result BatchRequest :=
  if batchRequestSchema body then Ok body
  else Throw (ZodError (batch_issues body)).
End Parse.

End Schemas.

(** ** modules/redaction/pipeline.ts: the region operations

    The image library is opaque to this repository.  A [Sharp] value is the
    chain of calls made on a pipeline object; it records every call,
    whether the library honours it or not.  Nothing is computed until
    [toBuffer ()] is awaited: the library then runs the chain and answers
    with the bytes, or rejects (an extract area outside the image, input
    that cannot be decoded).  That call is the parameter [toBuffer] of the
    operations below, which build exactly the chains the source builds and
    await them where the source does; what the bytes are is for the
    library to say.  The library checks the arguments of a call when the
    call is made; a chain with a call it refuses is here a chain that
    [toBuffer] rejects, and [processImage], which awaits every chain it
    builds and catches both alike, cannot tell the difference.  A [Buffer]
    is input bytes or, for a stand-in library that computes nothing, the
    chain it was rendered from. *)

Module Pipeline.
Import Coords Schemas.

Inductive Kernel := nearest.

Inductive Blend := over.

Record Background := mkBackground {
  bg_r : option Z; bg_g : option Z; bg_b : option Z; bg_alpha : option Q }.

Inductive Buffer :=
| RawBytes (bytes : list Byte.byte)
| Rendered (image : Sharp)
with Sharp :=
| sharp (input : Buffer)
| sharp_create (width height channels : Z) (background : Background)
| extract (image : Sharp) (left top width height : Z)
| blur (image : Sharp) (sigma : Z)
| resize (image : Sharp) (width height : Z) (kernel : Kernel)
| composite (image : Sharp) (input : Buffer) (left top : Z) (blend : option Blend)
| png (image : Sharp).

Definition hex_value (a : ascii) : option Z :=
  let n := nat_of_ascii a in
  if ((48 <=? n) && (n <=? 57))%nat then Some (Z.of_nat n - 48)
  else if ((65 <=? n) && (n <=? 70))%nat then Some (Z.of_nat n - 55)
  else if ((97 <=? n) && (n <=? 102))%nat then Some (Z.of_nat n - 87)
  else None.

Fixpoint parseHexPrefix (s : string) (acc : option Z) : option Z :=
  match s with
  | EmptyString => acc
  | String a s' =>
      match hex_value a with
      | Some d => parseHexPrefix s' (Some (16 * default 0 acc + d))
      | None => acc
      end
  end.

(** [parseInt (s, 16)] on a digit string; [None] is [NaN]. *)
Definition parseInt16 (s : string) : option Z := parseHexPrefix s None.

(** [color.replace ('#', '')]: the first occurrence is removed. *)
Fixpoint remove_hash (s : string) : string :=
  match s with
  | EmptyString => EmptyString
  | String a s' => if Ascii.eqb a "#" then s' else String a (remove_hash s')
  end.

Definition ImagePipelineError (message : string) : JsError :=
  mkJsError true "ImagePipelineError" message None None.

Record ImageMetadata := mkMetadata {
  meta_width : Z;
  meta_height : Z;
  meta_format : string;
  meta_size : Z;
  meta_hasAlpha : bool }.

(** [config.MAX_PIXELS] is a parameter. *)
Definition validateImageDimensions (MAX_PIXELS : Z) (metadata : ImageMetadata)
    : result unit :=
  let totalPixels := meta_width metadata * meta_height metadata in
  if totalPixels >? MAX_PIXELS then
    Throw (ImagePipelineError
             ("Image size " +:+ pretty (meta_width metadata) +:+ "x"
              +:+ pretty (meta_height metadata) +:+ " (" +:+ pretty totalPixels
              +:+ " pixels) exceeds maximum allowed " +:+ pretty MAX_PIXELS
              +:+ " pixels"))
  else Ok tt.

Section Library.

(** [await image.toBuffer ()] *)
Variable toBuffer : Sharp -> result Buffer.

Definition applyBlur (image : Sharp) (coords : PixelCoordinates) (sigma : Z)
    : result Sharp :=
  (let? currentBuffer := toBuffer image in
   let? region :=
     toBuffer (blur (extract (sharp currentBuffer)
                       (x coords) (y coords) (width coords) (height coords))
                 sigma) in
   Ok (composite (sharp currentBuffer) region (x coords) (y coords) None))%result.

Definition applyPixelate (image : Sharp) (coords : PixelCoordinates) (blockSize : Z)
    : result Sharp :=
  (let? currentBuffer := toBuffer image in
   let pixelWidth := Z.max 1 (width coords / blockSize) in
   let pixelHeight := Z.max 1 (height coords / blockSize) in
   let? region :=
     toBuffer
       (resize
          (resize
             (extract (sharp currentBuffer)
                (x coords) (y coords) (width coords) (height coords))
             pixelWidth pixelHeight nearest)
          (width coords) (height coords) nearest) in
   Ok (composite (sharp currentBuffer) region (x coords) (y coords) None))%result.

Definition applyFill (image : Sharp) (coords : PixelCoordinates) (color : string)
    : result Sharp :=
  (let? currentBuffer := toBuffer image in
   let hex := remove_hash color in
   let r := parseInt16 (substring 0 2 hex) in
   let g := parseInt16 (substring 2 2 hex) in
   let b := parseInt16 (substring 4 2 hex) in
   let a := if (String.length hex =? 8)%nat then parseInt16 (substring 6 2 hex)
            else Some 255 in
   let? overlay :=
     toBuffer (png (sharp_create (width coords) (height coords) 4
                      (mkBackground r g b
                         (option_map (fun a => inject_Z a / inject_Z 255)%Q a)))) in
   Ok (composite (sharp currentBuffer) overlay (x coords) (y coords)
         (Some over)))%result.

Definition applyOperation (image : Sharp) (coords : PixelCoordinates)
    (operation : RedactionOperation) : result Sharp :=
  match operation with
  | OpBlur size => applyBlur image coords (BLUR_SIZE_MAP size)
  | OpPixelate size => applyPixelate image coords (PIXELATE_SIZE_MAP size)
  | OpFill color => applyFill image coords color
  end.

(** The loop [for (const region of regions)] of [processImage]: each
    region is resolved against the image dimensions and its operation is
    applied to the image built so far. *)
Fixpoint applyRegions (image : Sharp) (regions : list Region)
    (dimensions : ImageDimensions) : result Sharp :=
  match regions with
  | [] => Ok image
  | region :: rest =>
      (let? pixelCoords := processCoordinates (coordinates region) dimensions in
       let? image' := applyOperation image pixelCoords (operation region) in
       applyRegions image' rest dimensions)%result
  end.

End Library.

End Pipeline.

(** ** Stand-ins for the image library, for the scenarios *)

Module SharpStandIn.
Import Pipeline.

(** A stand-in for the library that computes nothing and rejects
    nothing. *)
Definition symbolic (image : Sharp) : result Buffer := Ok (Rendered image).

(** The chain without the [resize] calls at its end. *)
Fixpoint without_resize (image : Sharp) : Sharp :=
  match image with
  | resize image' _ _ _ => without_resize image'
  | _ => image
  end.

(** A stand-in that rejects nothing and follows the library's rule that
    a pipeline resizes once: of consecutive [resize] calls the last one
    counts. *)
Definition resize_once (image : Sharp) : result Buffer :=
  match image with
  | resize image' w h kernel =>
      Ok (Rendered (resize (without_resize image') w h kernel))
  | _ => Ok (Rendered image)
  end.

End SharpStandIn.

(** ** modules/batch/jobStore.ts *)

Module JobStore.
Import Schemas.

Inductive Status := Pending | Processing | Completed | Failed.

Definition status_eqb (a b : Status) : bool :=
  match a, b with
  | Pending, Pending | Processing, Processing
  | Completed, Completed | Failed, Failed => true
  | _, _ => false
  end.

Record S3RedactionResponse := mkResponse {
  ok : bool;
  resp_output : option S3Output;
  processing_time_ms : Q;
  etag : option string }.

Record JobItem := mkItem {
  item_id : string;
  item_request : S3RedactionRequest;
  item_status : Status;
  item_result : option S3RedactionResponse;
  item_error : option string;
  item_startedAt : option Z;
  item_completedAt : option Z }.

Record Progress := mkProgress { total : Z; completed : Z; failed : Z }.

Record Job := mkJob {
  job_id : string;
  job_status : Status;
  job_items : list JobItem;
  webhookUrl : option string;
  createdAt : Z;
  startedAt : option Z;
  completedAt : option Z;
  progress : Progress }.

(** [Map<string, Job>]: entries in insertion order, keys pairwise
    distinct. *)
Definition JobMap := list (string * Job).

Fixpoint map_get (k : string) (m : JobMap) : option Job :=
  match m with
  | [] => None
  | (k', v) :: m' => if String.eqb k' k then Some v else map_get k m'
  end.

(** [set] keeps the position of an existing key and appends a new one. *)
Fixpoint map_set (k : string) (v : Job) (m : JobMap) : JobMap :=
  match m with
  | [] => [(k, v)]
  | (k', v') :: m' =>
      if String.eqb k' k then (k, v) :: m' else (k', v') :: map_set k v m'
  end.

Definition map_delete (k : string) (m : JobMap) : JobMap :=
  List.filter (fun e => negb (String.eqb (fst e) k)) m.

Definition map_size (m : JobMap) : Z := Z.of_nat (length m).

Definition MAX_JOBS : Z := 1000.
Definition JOB_TTL_MS : Z := 24 * 60 * 60 * 1000.

(** [Array.prototype.sort] is stable; the comparator orders by
    [createdAt] ascending. *)
Fixpoint insert_by_createdAt (e : string * Job) (l : JobMap) : JobMap :=
  match l with
  | [] => [e]
  | e' :: l' =>
      if createdAt (snd e) <=? createdAt (snd e') then e :: l
      else e' :: insert_by_createdAt e l'
  end.

Definition sort_by_createdAt (l : JobMap) : JobMap :=
  fold_right insert_by_createdAt [] l.

Definition expired (now : Z) (job : Job) : bool :=
  now - createdAt job >? JOB_TTL_MS.

(** The list [jobsToDelete] built by [cleanupOldJobs]. *)
Definition jobsToDelete (now : Z) (jobs : JobMap) : list string :=
  let old := map fst (List.filter (fun e => expired now (snd e)) jobs) in
  if map_size jobs - Z.of_nat (length old) >? MAX_JOBS then
    let sortedJobs := sort_by_createdAt jobs in
    let excess := map_size jobs - Z.of_nat (length old) - MAX_JOBS in
    old ++ map fst (firstn (Z.to_nat excess) sortedJobs)
  else old.

Definition cleanupOldJobs (now : Z) (jobs : JobMap) : JobMap :=
  fold_left (fun m jobId => map_delete jobId m) (jobsToDelete now jobs) jobs.

Definition new_item (jobId : string) (index : nat) (request : S3RedactionRequest)
    : JobItem :=
  {| item_id := jobId +:+ "-" +:+ pretty index;
     item_request := request;
     item_status := Pending;
     item_result := None; item_error := None;
     item_startedAt := None; item_completedAt := None |}.

Definition createJob (now : Z) (jobId : string)
    (requests : list S3RedactionRequest) (webhook : option string)
    (jobs : JobMap) : Job * JobMap :=
  let job :=
    {| job_id := jobId;
       job_status := Pending;
       job_items := imap (new_item jobId) requests;
       webhookUrl := webhook;
       createdAt := now;
       startedAt := None;
       completedAt := None;
       progress := {| total := Z.of_nat (length requests);
                      completed := 0; failed := 0 |} |} in
  let jobs' := cleanupOldJobs now jobs in
  (job, map_set jobId job jobs').

Definition getJob (jobId : string) (jobs : JobMap) : option Job :=
  map_get jobId jobs.

Definition job_not_found (jobId : string) : JsError :=
  mkError "Error" ("Job " +:+ jobId +:+ " not found").

Definition item_not_found (jobId itemId : string) : JsError :=
  mkError "Error" ("Job item " +:+ itemId +:+ " not found in job " +:+ jobId).

Definition is_terminal (s : Status) : bool :=
  match s with Completed | Failed => true | _ => false end.

Definition updateJobStatus (now : Z) (jobId : string) (status : Status)
    (jobs : JobMap) : result JobMap :=
  match map_get jobId jobs with
  | None => Throw (job_not_found jobId)
  | Some job =>
      let startedAt' :=
        match status, startedAt job with
        | Processing, None => Some now
        | _, s => s
        end in
      let completedAt' :=
        match is_terminal status, completedAt job with
        | true, None => Some now
        | _, c => c
        end in
      Ok (map_set jobId
            (mkJob (job_id job) status (job_items job) (webhookUrl job)
               (createdAt job) startedAt' completedAt' (progress job)) jobs)
  end.

(** [Partial<JobItem>]: every field of [JobItem] may be given; [None] is
    an absent key, and a key that is present holds a value of the field's
    type. *)
Record ItemUpdate := mkUpdate {
  u_id : option string;
  u_request : option S3RedactionRequest;
  u_status : option Status;
  u_result : option S3RedactionResponse;
  u_error : option string;
  u_startedAt : option Z;
  u_completedAt : option Z }.

Definition or_else {A} (new old : option A) : option A :=
  match new with Some a => Some a | None => old end.

(** [{ ...item, ...update }] *)
Definition merge_item (item : JobItem) (update : ItemUpdate) : JobItem :=
  {| item_id := default (item_id item) (u_id update);
     item_request := default (item_request item) (u_request update);
     item_status := default (item_status item) (u_status update);
     item_result := or_else (u_result update) (item_result item);
     item_error := or_else (u_error update) (item_error item);
     item_startedAt := or_else (u_startedAt update) (item_startedAt item);
     item_completedAt := or_else (u_completedAt update) (item_completedAt item) |}.

Definition count_status (s : Status) (items : list JobItem) : Z :=
  Z.of_nat (length (List.filter (fun item => status_eqb (item_status item) s) items)).

Definition updateJobProgress (now : Z) (job : Job) : Job :=
  let completed := count_status Completed (job_items job) in
  let failed := count_status Failed (job_items job) in
  let progress' := mkProgress (total (progress job)) completed failed in
  if completed + failed =? total (progress job) then
    mkJob (job_id job) (if failed =? 0 then Completed else Failed)
      (job_items job) (webhookUrl job) (createdAt job) (startedAt job)
      (Some now) progress'
  else if status_eqb (job_status job) Pending then
    mkJob (job_id job) Processing (job_items job) (webhookUrl job)
      (createdAt job) (or_else (startedAt job) (Some now))
      (completedAt job) progress'
  else
    mkJob (job_id job) (job_status job) (job_items job) (webhookUrl job)
      (createdAt job) (startedAt job) (completedAt job) progress'.

Definition updateJobItem (now : Z) (jobId itemId : string)
    (update : ItemUpdate) (jobs : JobMap) : result JobMap :=
  match map_get jobId jobs with
  | None => Throw (job_not_found jobId)
  | Some job =>
      match list_find (fun item => item_id item = itemId) (job_items job) with
      | None => Throw (item_not_found jobId itemId)
      | Some (itemIndex, item) =>
          let job' :=
            mkJob (job_id job) (job_status job)
              (<[itemIndex := merge_item item update]> (job_items job))
              (webhookUrl job) (createdAt job) (startedAt job)
              (completedAt job) (progress job) in
          Ok (map_set jobId (updateJobProgress now job') jobs)
      end
  end.

Definition startJobItem (now : Z) (jobId itemId : string) (jobs : JobMap)
    : result JobMap :=
  updateJobItem now jobId itemId
    (mkUpdate None None (Some Processing) None None (Some now) None) jobs.

Definition completeJobItem (now : Z) (jobId itemId : string)
    (result' : S3RedactionResponse) (jobs : JobMap) : result JobMap :=
  updateJobItem now jobId itemId
    (mkUpdate None None (Some Completed) (Some result') None None (Some now)) jobs.

Definition failJobItem (now : Z) (jobId itemId : string) (error : string)
    (jobs : JobMap) : result JobMap :=
  updateJobItem now jobId itemId
    (mkUpdate None None (Some Failed) None (Some error) None (Some now)) jobs.

Definition getAllJobs (jobs : JobMap) : list Job := map snd jobs.

Definition deleteJob (jobId : string) (jobs : JobMap) : bool * JobMap :=
  (bool_decide (is_Some (map_get jobId jobs)), map_delete jobId jobs).

Definition getJobCount (jobs : JobMap) : Z := map_size jobs.

(** An item transition as the orchestrator issues it. *)
Inductive ItemCall :=
| Start (itemId : string)
| Complete (itemId : string) (result : S3RedactionResponse)
| Fail (itemId : string) (error : string).

Definition call_item (c : ItemCall) : string :=
  match c with Start i | Complete i _ | Fail i _ => i end.

Definition apply_call (now : Z) (jobId : string) (c : ItemCall) (jobs : JobMap)
    : result JobMap :=
  match c with
  | Start i => startJobItem now jobId i jobs
  | Complete i r => completeJobItem now jobId i r jobs
  | Fail i e => failJobItem now jobId i e jobs
  end.

(** A sequence of transitions on one job, each with the clock reading
    at which it is made; the run stops at the first call that throws. *)
Fixpoint run_calls (jobId : string) (cs : list (Z * ItemCall))
    (jobs : JobMap) : result JobMap :=
  match cs with
  | [] => Ok jobs
  | (now, c) :: cs' =>
      (let? jobs' := apply_call now jobId c jobs in
       run_calls jobId cs' jobs')%result
  end.

Definition all_terminal (job : Job) : bool :=
  forallb (fun item => is_terminal (item_status item)) (job_items job).

(** A transition that does not move a finished item back: [startJobItem]
    is not applied to an item that is already completed or failed. *)
Definition restart_free (c : ItemCall) (job : Job) : bool :=
  match c with
  | Start i =>
      match list_find (fun item => item_id item = i) (job_items job) with
      | Some (_, item) => negb (is_terminal (item_status item))
      | None => true
      end
  | _ => true
  end.

(** Every call of the run satisfies [g] in the state it is made in. *)
Fixpoint guarded (g : ItemCall -> Job -> bool) (jobId : string)
    (cs : list (Z * ItemCall)) (jobs : JobMap) : bool :=
  match cs with
  | [] => true
  | (now, c) :: cs' =>
      match getJob jobId jobs with Some job => g c job | None => true end
      && match apply_call now jobId c jobs with
         | Ok jobs' => guarded g jobId cs' jobs'
         | Throw _ => true
         end
  end.

Definition no_restart := guarded restart_free.

(** [pending] as the status payload computes it. *)
Definition pending (job : Job) : Z :=
  total (progress job) - completed (progress job) - failed (progress job).

Definition terminal_item (item : JobItem) : bool := is_terminal (item_status item).

(** The job-level effect of [updateJobItem]. *)
Definition step_job (now : Z) (job : Job) (k : nat) (item : JobItem)
    (update : ItemUpdate) : Job :=
  updateJobProgress now
    (mkJob (job_id job) (job_status job)
       (<[k := merge_item item update]> (job_items job))
       (webhookUrl job) (createdAt job) (startedAt job)
       (completedAt job) (progress job)).

Definition call_update (now : Z) (c : ItemCall) : ItemUpdate :=
  match c with
  | Start _ => mkUpdate None None (Some Processing) None None (Some now) None
  | Complete _ r => mkUpdate None None (Some Completed) (Some r) None None (Some now)
  | Fail _ e => mkUpdate None None (Some Failed) None (Some e) None (Some now)
  end.

Definition wf_job (job : Job) : Prop :=
  total (progress job) = Z.of_nat (length (job_items job)).

(** What holds after every transition, whatever the order of the calls. *)
Definition progress_ok (job : Job) : Prop :=
  completed (progress job) + failed (progress job) <= total (progress job) /\
  completed (progress job) + failed (progress job) + pending job
    = total (progress job) /\
  0 <= completed (progress job) /\ 0 <= failed (progress job) /\
  0 <= pending job /\
  (all_terminal job = true ->
   job_status job = if failed (progress job) =? 0 then Completed else Failed).

(** The two equivalences of the claim. *)
Definition status_exact (job : Job) : Prop :=
  (job_status job = Completed <->
   all_terminal job = true /\ failed (progress job) = 0) /\
  (job_status job = Failed <->
   all_terminal job = true /\ failed (progress job) > 0).

Definition finished_means_terminal (job : Job) : Prop :=
  is_terminal (job_status job) = true -> all_terminal job = true.

(** The identifiers given by [createJob]: item [k] of job [jobId] is
    [jobId-k]. *)
Definition ids_ok (jobId : string) (l : list JobItem) : Prop :=
  forall k item, l !! k = Some item -> item_id item = jobId +:+ "-" +:+ pretty k.

Definition doomed (ids : list string) (e : string * Job) : bool :=
  existsb (String.eqb (fst e)) ids.

(** The keys of the store, in insertion order. *)
Definition job_ids (jobs : JobMap) : list string := map fst jobs.

(** The progress record agrees with the statuses of the items. *)
Definition counts_exact (job : Job) : Prop :=
  total (progress job) = Z.of_nat (length (job_items job)) /\
  completed (progress job) = count_status Completed (job_items job) /\
  failed (progress job) = count_status Failed (job_items job).

(** One call of a method of the store that writes to it, with the clock
    reading at which it is made. *)
Inductive StoreOp :=
| CallCreateJob (now : Z) (jobId : string) (requests : list S3RedactionRequest)
    (webhook : option string)
| CallUpdateJobStatus (now : Z) (jobId : string) (status : Status)
| CallItem (now : Z) (jobId : string) (call : ItemCall)
| CallDeleteJob (jobId : string).

(** The store after one call; a call that throws leaves the store as it
    was. *)
Definition run_op (jobs : JobMap) (op : StoreOp) : JobMap :=
  match op with
  | CallCreateJob now jobId requests webhook =>
      snd (createJob now jobId requests webhook jobs)
  | CallUpdateJobStatus now jobId status =>
      match updateJobStatus now jobId status jobs with
      | Ok jobs' => jobs'
      | Throw _ => jobs
      end
  | CallItem now jobId call =>
      match apply_call now jobId call jobs with
      | Ok jobs' => jobs'
      | Throw _ => jobs
      end
  | CallDeleteJob jobId => snd (deleteJob jobId jobs)
  end.

(** The store reached from the empty store by a sequence of calls. *)
Definition run_ops (ops : list StoreOp) : JobMap := fold_left run_op ops [].

(** What holds of every job in a store that was reached this way. *)
Definition job_ok (e : string * Job) : Prop :=
  job_id (snd e) = fst e /\ counts_exact (snd e) /\
  ids_ok (fst e) (job_items (snd e)).

(** A store that can be reached from the empty store. *)
Definition store_ok (jobs : JobMap) : Prop :=
  NoDup (job_ids jobs) /\ map_size jobs <= MAX_JOBS + 1 /\
  forall e, In e jobs -> job_ok e.

End JobStore.

(** ** The services and controllers that perform input and output *)

Module Service.
Import Schemas JobStore.
Import Pipeline (Buffer).

(** *** modules/redaction/errors.ts *)

Definition includes (s pat : string) : bool :=
  match String.index 0 pat s with Some _ => true | None => false end.

(** [new C (..)] for [RedactionError] or one of its subclasses [C], with
    the [name], [code] and [statusCode] that the constructor sets. *)
Definition RedactionError (name message code : string) (statusCode : Z) : JsError :=
  mkJsError true name message (Some code) (Some statusCode).

Definition RedactionError_classes : list string :=
  ["RedactionError"; "ValidationError"; "LimitExceededError";
   "UnsupportedMediaError"; "S3Error"; "PipelineError"; "RateLimitedError";
   "InternalError"].

(** [error instanceof RedactionError] *)
Definition is_RedactionError (error : JsError) : bool :=
  instance_of RedactionError_classes error.

Definition normalizeError (thrown : Thrown) : JsError :=
  match thrown with
  | ThrownError error =>
      let message := err_message error in
      if is_RedactionError error then error
      else if String.eqb (err_name error) "ValidationError" then
        RedactionError "ValidationError" message "VALIDATION_ERROR" 400
      else if String.eqb (err_name error) "PayloadTooLargeError"
              || includes message "exceeds maximum" then
        RedactionError "LimitExceededError" message "LIMIT_EXCEEDED" 413
      else if includes message "MIME" || includes message "Unsupported" then
        RedactionError "UnsupportedMediaError" message "UNSUPPORTED_MEDIA" 415
      else if String.eqb (err_name error) "ImagePipelineError" then
        RedactionError "PipelineError" message "PIPELINE_ERROR" 500
      else if String.eqb (err_name error) "S3ServiceError" then
        RedactionError "S3Error" message "S3_ERROR"
          (match err_statusCode error with
           | Some c => if c =? 0 then 500 else c
           | None => 500
           end)
      else if String.eqb (err_name error) "RedactionServiceError" then
        RedactionError "RedactionError" message
          (match err_code error with
           | Some c => if String.eqb c EmptyString then "INTERNAL_ERROR" else c
           | None => "INTERNAL_ERROR"
           end)
          (match err_statusCode error with
           | Some c => if c =? 0 then 500 else c
           | None => 500
           end)
      else RedactionError "InternalError" message "INTERNAL_ERROR" 500
  | ThrownValue =>
      RedactionError "InternalError" "Unknown error occurred" "INTERNAL_ERROR" 500
  end.

Arguments normalizeError : simpl never.

(** *** The environment *)

Inductive Command :=
| GetObjectCommand (Bucket Key : string)
| PutObjectCommand (Bucket Key : string) (Body : Buffer)
    (ContentType : option string) (Metadata : list (string * string)).

Inductive Output :=
| GetObjectOutput (Body : option Buffer)
| PutObjectOutput.

(** What [fetch] does with one POST: a response, or a transport failure. *)
Inductive FetchOutcome :=
| Response (status : Z) (statusText : string)
| NetworkError (message : string).

(** The webhook payload [JobStatus], without the time stamps and the
    per-item list. *)
Record JobStatus := mkJobStatus {
  js_job_id : string;
  js_status : Status;
  js_total : Z;
  js_completed : Z;
  js_failed : Z;
  js_pending : Z;
  js_webhook_url : option string;
  js_webhook_attempts : Z }.

Inductive Event :=
| EvSend (cmd : Command)
| EvPost (url : string) (payload : JobStatus)
| EvSleep (ms : Z)
| EvSchedule (jobId : string).

Record ProcessedImage := mkProcessed {
  pi_buffer : Buffer;
  pi_format : ImageFormat;
  pi_etag : string;
  pi_processingTimeMs : Q;
  pi_width : Z;
  pi_height : Z }.

Record RedactionOptions := mkOptions {
  opt_format : option ImageFormat;
  opt_quality : option Z }.

Record UploadOptions := mkUpload {
  contentType : option string;
  metadata : list (string * string) }.

(** One field of the object handed to [generateRequestHash]. *)
Inductive FieldValue :=
| FInput (v : S3Object)
| FOutput (v : S3Output)
| FRegions (v : list Region).

Section Environment.

(** The object storage behind [S3Client.send]: its state and its answer
    to one command. *)
Variable S3W : Type.
Variable send : Command -> S3W -> result Output * S3W.

(** [RedactionService.redactImage], the image pipeline with its input
    validation. *)
Variable redactImage :
  Buffer -> list Region -> RedactionOptions -> result ProcessedImage.

(** [Number.prototype.toString], [JSON.stringify] and the SHA-256 hex
    digest. *)
Variable number_toString : Q -> string.
Variable JSON_stringify : list (string * FieldValue) -> string.
Variable sha256_hex : string -> string.

(** [config.WEBHOOK_URL]; the URL check of the schema library and the
    messages of its errors. *)
Variable WEBHOOK_URL : option string.
Variable isUrl : string -> bool.
Variable s3_issues : S3RedactionRequest -> string.
Variable batch_issues : BatchRequest -> string.

Record World := mkWorld {
  jobs : JobMap;
  s3 : S3W;
  sink : list FetchOutcome;
  clock : Z;
  trace : list Event }.

(** Computations that read and write the world and may throw. *)
Definition M (A : Type) : Type := World -> result A * World.

Definition ret {A} (a : A) : M A := fun w => (Ok a, w).

Definition throw {A} (e : JsError) : M A := fun w => (Throw e, w).

Definition bindM {A B} (m : M A) (k : A -> M B) : M B :=
  fun w =>
    match m w with
    | (Ok a, w') => k a w'
    | (Throw e, w') => (Throw e, w')
    end.

(** [try { m } catch (error) { h error }] *)
Definition try_catch {A} (m : M A) (h : JsError -> M A) : M A :=
  fun w =>
    match m w with
    | (Ok a, w') => (Ok a, w')
    | (Throw e, w') => h e w'
    end.

Definition lift {A} (r : result A) : M A := fun w => (r, w).

Definition emit (e : Event) : M unit :=
  fun w => (Ok tt, mkWorld (jobs w) (s3 w) (sink w) (clock w) (trace w ++ [e])).

(** A method of the job store called at the current clock reading. *)
Definition on_store (f : Z -> JobMap -> result JobMap) : M unit :=
  fun w =>
    match f (clock w) (jobs w) with
    | Ok jobs' => (Ok tt, mkWorld jobs' (s3 w) (sink w) (clock w) (trace w))
    | Throw e => (Throw e, w)
    end.

Definition read_store {A} (f : JobMap -> A) : M A :=
  fun w => (Ok (f (jobs w)), w).

Declare Scope M_scope.
Delimit Scope M_scope with M.
Notation "'let!' x ':=' m 'in' k" := (bindM m (fun x => k))
  (at level 10, x pattern, m at level 100, k at level 200) : M_scope.
Local Open Scope M_scope.

(** *** modules/redaction/s3.service.ts *)

Definition S3ServiceError (message code : string) (statusCode : Z) : JsError :=
  mkJsError true "S3ServiceError" message (Some code) (Some statusCode).

Definition client_send (cmd : Command) : M Output :=
  fun w =>
    let '(r, s3') := send cmd (s3 w) in
    (r, mkWorld (jobs w) s3' (sink w) (clock w) (trace w ++ [EvSend cmd])).

Definition s3_url (bucket key : string) : string :=
  "s3://" +:+ bucket +:+ "/" +:+ key.

Definition getObject (bucket key : string) : M Buffer :=
  try_catch
    (let! response := client_send (GetObjectCommand bucket key) in
     match response with
     | GetObjectOutput (Some body) => ret body
     | _ => throw (mkError "Error" "Empty response body from S3")
     end)
    (fun error =>
       if String.eqb (err_name error) "NoSuchKey" then
         throw (S3ServiceError ("Object not found: " +:+ s3_url bucket key)
                  "OBJECT_NOT_FOUND" 404)
       else if String.eqb (err_name error) "NoSuchBucket" then
         throw (S3ServiceError ("Bucket not found: " +:+ bucket)
                  "BUCKET_NOT_FOUND" 404)
       else if String.eqb (err_name error) "AccessDenied" then
         throw (S3ServiceError ("Access denied to " +:+ s3_url bucket key)
                  "ACCESS_DENIED" 403)
       else
         throw (S3ServiceError
                  ("Failed to download object from S3: " +:+ err_message error)
                  "S3_DOWNLOAD_ERROR" 500)).

Definition putObject (bucket key : string) (buffer : Buffer)
    (options : UploadOptions) : M unit :=
  try_catch
    (let! _ := client_send (PutObjectCommand bucket key buffer
                              (contentType options) (metadata options)) in
     ret tt)
    (fun error =>
       if String.eqb (err_name error) "NoSuchBucket" then
         throw (S3ServiceError ("Bucket not found: " +:+ bucket)
                  "BUCKET_NOT_FOUND" 404)
       else if String.eqb (err_name error) "AccessDenied" then
         throw (S3ServiceError ("Access denied to " +:+ s3_url bucket key)
                  "ACCESS_DENIED" 403)
       else
         throw (S3ServiceError
                  ("Failed to upload object to S3: " +:+ err_message error)
                  "S3_UPLOAD_ERROR" 500)).

Definition objectExists (bucket key : string) : M bool :=
  try_catch
    (let! _ := client_send (GetObjectCommand bucket key) in ret true)
    (fun error =>
       if String.eqb (err_name error) "NoSuchKey"
          || String.eqb (err_name error) "NotFound"
       then ret false
       else throw error).

Definition getContentTypeForFormat (format : ImageFormat) : string :=
  match format with webp => "image/webp" | jpeg => "image/jpeg" end.

(** *** utils/hash.ts *)

Fixpoint insert_key (e : string * FieldValue) (l : list (string * FieldValue))
    : list (string * FieldValue) :=
  match l with
  | [] => [e]
  | e' :: l' =>
      if String.leb (fst e) (fst e') then e :: l else e' :: insert_key e l'
  end.

(** [Object.keys (inputs).sort ().reduce (..)]: the fields in key order. *)
Definition sort_keys (inputs : list (string * FieldValue))
    : list (string * FieldValue) :=
  fold_right insert_key [] inputs.

(** The order of [sort ()] on the keys. *)
Definition key_le (a b : string * FieldValue) : Prop :=
  String.leb (fst a) (fst b) = true.

Definition generateRequestHash (inputs : list (string * FieldValue)) : string :=
  let sortedInputs := sort_keys inputs in
  let inputString := JSON_stringify sortedInputs in
  sha256_hex inputString.

(** [etag.replace] with a global pattern: every double-quote character
    (code 34) is removed. *)
Fixpoint strip_quotes (s : string) : string :=
  match s with
  | EmptyString => EmptyString
  | String a s' =>
      if Ascii.eqb a (ascii_of_nat 34) then strip_quotes s'
      else String a (strip_quotes s')
  end.

(** Truthiness of an optional string: present and not empty. *)
Definition truthy (o : option string) : bool :=
  match o with
  | Some s => negb (String.eqb s EmptyString)
  | None => false
  end.

(** *** modules/batch/controller.ts *)

Definition maxAttempts : nat := 3.
Definition retryDelays : list Z := [1000; 5000; 10000].

Definition jobStatus (job : Job) (url : option string) (attempts : Z) : JobStatus :=
  {| js_job_id := job_id job;
     js_status := job_status job;
     js_total := total (progress job);
     js_completed := completed (progress job);
     js_failed := failed (progress job);
     js_pending :=
       total (progress job) - completed (progress job) - failed (progress job);
     js_webhook_url := url;
     js_webhook_attempts := attempts |}.

(** [response.ok] *)
Definition response_ok (status : Z) : bool :=
  (200 <=? status) && (status <=? 299).

(** [fetch (url, { method: 'POST', .. })]: the sink answers with its next
    scripted outcome; once the script is used up the host cannot be
    reached and the call fails in transport. *)
Definition fetch (url : string) (payload : JobStatus) : M (Z * string) :=
  fun w =>
    let w' := mkWorld (jobs w) (s3 w) (tail (sink w)) (clock w)
                (trace w ++ [EvPost url payload]) in
    match sink w with
    | Response status statusText :: _ => (Ok (status, statusText), w')
    | NetworkError message :: _ => (Throw (mkError "TypeError" message), w')
    | [] => (Throw (mkError "TypeError" "fetch failed"), w')
    end.

(** [await new Promise (resolve => setTimeout (resolve, delay))] *)
Definition sleep (delay : Z) : M unit :=
  fun w =>
    (Ok tt, mkWorld (jobs w) (s3 w) (sink w) (clock w + delay)
              (trace w ++ [EvSleep delay])).

(** The [try] block of [sendWebhook]. *)
Definition deliver (job : Job) (webhookUrl : string) (attempt : nat) : M unit :=
  let payload := jobStatus job (Some webhookUrl) (Z.of_nat attempt + 1) in
  let! response := fetch webhookUrl payload in
  if negb (response_ok (fst response)) then
    throw (mkError "Error"
             ("Webhook returned " +:+ pretty (fst response) +:+ ": "
              +:+ snd response))
  else ret tt.

Equations? sendWebhook (jobId webhookUrl : string) (attempt : nat) (w : World)
    : result unit * World by wf (maxAttempts - attempt)%nat lt :=
  sendWebhook jobId webhookUrl attempt w :=
    match getJob jobId (jobs w) with
    | None => (Ok tt, w)
    | Some job =>
        match deliver job webhookUrl attempt w with
        | (Ok _, w1) => (Ok tt, w1)
        | (Throw error, w1) =>
            match lt_dec attempt (maxAttempts - 1) with
            | left _ =>
                let delay := default 0 (retryDelays !! attempt) in
                match sleep delay w1 with
                | (_, w2) => sendWebhook jobId webhookUrl (S attempt) w2
                end
            | right _ => (Ok tt, w1)
            end
        end
    end.
Proof. unfold maxAttempts in *. lia. Qed.

Definition processItem (jobId : string) (item : JobItem) : M unit :=
  let request := item_request item in
  try_catch
    (let! _ := on_store (fun now => startJobItem now jobId (item_id item)) in
     let! inputBuffer :=
       getObject (bucket (input request)) (key (input request)) in
     let! processed :=
       lift (redactImage inputBuffer (regions request)
               (mkOptions (Some (format (output request)))
                  (quality (output request)))) in
     let! _ :=
       putObject (out_bucket (output request)) (out_key (output request))
         (pi_buffer processed)
         (mkUpload (Some (getContentTypeForFormat (pi_format processed)))
            [("x-redaction-etag", strip_quotes (pi_etag processed));
             ("x-processing-time-ms",
              number_toString (pi_processingTimeMs processed));
             ("x-job-id", jobId);
             ("x-item-id", item_id item)]) in
     on_store (fun now =>
       completeJobItem now jobId (item_id item)
         (mkResponse true (Some (output request))
            (pi_processingTimeMs processed) (Some (pi_etag processed)))))
    (fun error =>
       let normalizedError := normalizeError error in
       on_store (fun now =>
         failJobItem now jobId (item_id item) (err_message normalizedError))).

(** [for (const item of items) { await body (item) }] *)
Fixpoint forEach {A} (items : list A) (body : A -> M unit) : M unit :=
  match items with
  | [] => ret tt
  | item :: rest => let! _ := body item in forEach rest body
  end.

(** The loop reads [job.items] of the object obtained from [getJob];
    the three transitions it makes replace an entry by a copy with the
    same [id] and [request], so the entries met by the iterator carry the
    [id] and [request] of the snapshot. *)
Definition processBatchJob (jobId : string) : M unit :=
  let! found := read_store (getJob jobId) in
  match found with
  | None => ret tt
  | Some job =>
      let! _ := forEach (job_items job) (processItem jobId) in
      if truthy (webhookUrl job) || truthy WEBHOOK_URL then
        let webhookUrl :=
          if truthy (webhookUrl job) then default EmptyString (webhookUrl job)
          else default EmptyString WEBHOOK_URL in
        sendWebhook jobId webhookUrl 0
      else ret tt
  end.

Inductive BatchReply :=
| BatchAccepted (job_id : string) (items_count : Z) (estimated_completion_ms : Z)
| BatchError (status : Z) (code message : string).

(** [POST /redact/batch]; the background run started with
    [setImmediate] is recorded as an [EvSchedule] event.  Nothing after the
    validation throws, so the outer [catch] of the handler is not
    reached. *)
Definition postRedactBatch (jobId : string) (body : BatchRequest) : M BatchReply :=
  match batchRequestSchema_parse isUrl batch_issues body with
  | Throw error => ret (BatchError 400 "VALIDATION_ERROR" (err_message error))
  | Ok requestData =>
      let! job :=
        (fun w =>
           let '(job, jobs') :=
             createJob (clock w) jobId (items requestData)
               (webhook_url requestData) (jobs w) in
           (Ok job, mkWorld jobs' (s3 w) (sink w) (clock w) (trace w))) in
      let! _ := emit (EvSchedule (job_id job)) in
      let estimatedMs := Z.of_nat (length (items requestData)) * 500 in
      ret (BatchAccepted (job_id job)
             (Z.of_nat (length (items requestData))) estimatedMs)
  end.

(** [GET /redact/batch/:jobId] *)
Definition getRedactBatch (jobId : string) : M (option JobStatus) :=
  let! found := read_store (getJob jobId) in
  ret (option_map (fun job => jobStatus job (webhookUrl job) 0) found).

(** *** modules/redaction/controller.ts: POST /redact/s3

    The body of the handler runs inside [measureAsync], which only times
    it; the [X-Process-Ms] header it feeds is left out. *)

Inductive S3Reply :=
| S3Success (response : S3RedactionResponse)
| S3Failure (status : Z) (code message : string).

Definition postRedactS3 (body : S3RedactionRequest) : M S3Reply :=
  match s3RedactionRequestSchema_parse s3_issues body with
  | Throw error => ret (S3Failure 400 "VALIDATION_ERROR" (err_message error))
  | Ok requestData =>
    try_catch
      (let idempotencyKey :=
         if truthy (idempotency_key requestData)
         then default EmptyString (idempotency_key requestData)
         else generateRequestHash
                [("input", FInput (input requestData));
                 ("output", FOutput (output requestData));
                 ("regions", FRegions (regions requestData))] in
       let! outputExists :=
         objectExists (out_bucket (output requestData))
           (out_key (output requestData)) in
       if outputExists && truthy (idempotency_key requestData) then
         ret (S3Success (mkResponse true (Some (output requestData)) 0 None))
       else
         let! inputBuffer :=
           getObject (bucket (input requestData)) (key (input requestData)) in
         let! processed :=
           lift (redactImage inputBuffer (regions requestData)
                   (mkOptions (Some (format (output requestData)))
                      (quality (output requestData)))) in
         let! _ :=
           putObject (out_bucket (output requestData))
             (out_key (output requestData)) (pi_buffer processed)
             (mkUpload (Some (getContentTypeForFormat (pi_format processed)))
                [("x-redaction-etag", strip_quotes (pi_etag processed));
                 ("x-processing-time-ms",
                  number_toString (pi_processingTimeMs processed));
                 ("x-idempotency-key", idempotencyKey)]) in
         ret (S3Success
                (mkResponse true (Some (output requestData))
                   (pi_processingTimeMs processed) (Some (pi_etag processed)))))
      (fun error =>
         let normalizedError := normalizeError error in
         ret (S3Failure (default 500 (err_statusCode normalizedError))
                (default EmptyString (err_code normalizedError))
                (err_message normalizedError)))
  end.

(** *** Vocabulary of the properties below *)

(** The reply of the skip branch. *)
Definition skip_reply (body : S3RedactionRequest) : S3Reply :=
  S3Success (mkResponse true (Some (output body)) 0 None).

(** The existence probe: a [GetObjectCommand] on the destination. *)
Definition probe (body : S3RedactionRequest) : Command :=
  GetObjectCommand (out_bucket (output body)) (out_key (output body)).

(** The key derived for a request without one. *)
Definition derived_key (body : S3RedactionRequest) : string :=
  sha256_hex
    (JSON_stringify
       [("input", FInput (input body));
        ("output", FOutput (output body));
        ("regions", FRegions (regions body))]).

Definition is_put (e : Event) : option (list (string * string)) :=
  match e with
  | EvSend (PutObjectCommand _ _ _ _ md) => Some md
  | _ => None
  end.

(** The key written to the [x-idempotency-key] metadata entry. *)
Definition effective_key (body : S3RedactionRequest) : string :=
  if truthy (idempotency_key body)
  then default EmptyString (idempotency_key body)
  else derived_key body.

Definition outcome_ok (o : FetchOutcome) : bool :=
  match o with
  | Response status _ => response_ok status
  | NetworkError _ => false
  end.

(** The number of POSTs a scripted sink receives. *)
Definition attempts_made (script : list FetchOutcome) : nat :=
  match script with
  | o1 :: rest =>
      if outcome_ok o1 then 1%nat
      else match rest with
           | o2 :: _ => if outcome_ok o2 then 2%nat else 3%nat
           | [] => 3%nat
           end
  | [] => 3%nat
  end.

(** Three POSTs separated by the first two delays. *)
Definition delivery_pattern (job : Job) (url : string) : list Event :=
  [EvPost url (jobStatus job (Some url) 1); EvSleep 1000;
   EvPost url (jobStatus job (Some url) 2); EvSleep 5000;
   EvPost url (jobStatus job (Some url) 3)].

Definition is_post (e : Event) : bool :=
  match e with EvPost _ _ => true | _ => false end.

Definition sleep_of (e : Event) : option Z :=
  match e with EvSleep ms => Some ms | _ => None end.

(** The storage and pipeline steps of one item: download, redact, upload. *)
Definition item_io (jobId : string) (item : JobItem) : M ProcessedImage :=
  let request := item_request item in
  bindM (getObject (bucket (input request)) (key (input request)))
    (fun inputBuffer =>
  bindM (lift (redactImage inputBuffer (regions request)
                 (mkOptions (Some (format (output request)))
                    (quality (output request)))))
    (fun processed =>
  bindM (putObject (out_bucket (output request)) (out_key (output request))
           (pi_buffer processed)
           (mkUpload (Some (getContentTypeForFormat (pi_format processed)))
              [("x-redaction-etag", strip_quotes (pi_etag processed));
               ("x-processing-time-ms",
                number_toString (pi_processingTimeMs processed));
               ("x-job-id", jobId);
               ("x-item-id", item_id item)]))
    (fun _ => ret processed))).

(** What the item transition after the storage steps writes. *)
Definition settle_update (now : Z) (request : S3RedactionRequest)
    (r : result ProcessedImage) : ItemUpdate :=
  match r with
  | Ok processed =>
      mkUpdate None None (Some Completed)
        (Some (mkResponse true (Some (output request))
                 (pi_processingTimeMs processed) (Some (pi_etag processed))))
        None None (Some now)
  | Throw e => mkUpdate None None (Some Failed) None (Some (err_message e)) None (Some now)
  end.

Definition start_update (now : Z) : ItemUpdate :=
  mkUpdate None None (Some Processing) None None (Some now) None.

(** The world in which the storage steps of an item run: the item has been
    marked as processing. *)
Definition started_world (jobId : string) (job : Job) (k : nat) (item_k : JobItem)
    (w : World) : World :=
  mkWorld
    (map_set jobId (step_job (clock w) job k item_k (start_update (clock w))) (jobs w))
    (s3 w) (sink w) (clock w) (trace w).

(** The worlds in which the successive items of the loop are processed. *)
Fixpoint worlds_before (jobId : string) (items : list JobItem) (w : World)
    : list World :=
  match items with
  | [] => []
  | item :: rest =>
      w :: worlds_before jobId rest
             (snd (processItem jobId item w))
  end.

(** The result of the storage and pipeline steps of [item] when its turn
    comes in world [w]. *)
Definition item_outcome (jobId : string) (item : JobItem) (w : World)
    : result ProcessedImage :=
  fst (item_io jobId item
         (snd (on_store (fun now => startJobItem now jobId (item_id item)) w))).

(** How an item is left: completed with the response, or failed with the
    message of the exception. *)
Definition item_settled (item' : JobItem) (request : S3RedactionRequest)
    (r : result ProcessedImage) : Prop :=
  match r with
  | Ok processed =>
      item_status item' = Completed /\
      item_result item'
      = Some (mkResponse true (Some (output request))
                (pi_processingTimeMs processed) (Some (pi_etag processed)))
  | Throw e =>
      item_status item' = Failed /\ item_error item' = Some (err_message e)
  end.

End Environment.

Arguments mkWorld {S3W} jobs s3 sink clock trace.
Arguments jobs {S3W} w.
Arguments s3 {S3W} w.
Arguments sink {S3W} w.
Arguments clock {S3W} w.
Arguments trace {S3W} w.
Arguments ret {S3W A} a w.
Arguments throw {S3W A} e w.
Arguments bindM {S3W A B} m k w.
Arguments try_catch {S3W A} m h w.
Arguments lift {S3W A} r w.
Arguments emit {S3W} e w.
Arguments on_store {S3W} f w.
Arguments read_store {S3W A} f w.
Arguments client_send {S3W} send cmd w.
Arguments getObject {S3W} send bucket key w.
Arguments putObject {S3W} send bucket key buffer options w.
Arguments objectExists {S3W} send bucket key w.
Arguments fetch {S3W} url payload w.
Arguments sleep {S3W} delay w.
Arguments deliver {S3W} job webhookUrl attempt w.
Arguments sendWebhook {S3W} jobId webhookUrl attempt w.
Arguments processItem {S3W} send redactImage number_toString jobId item w.
Arguments forEach {S3W A} items body w.
Arguments processBatchJob {S3W} send redactImage number_toString WEBHOOK_URL jobId w.
Arguments postRedactBatch {S3W} isUrl batch_issues jobId body w.
Arguments getRedactBatch {S3W} jobId w.
Arguments postRedactS3 {S3W} send redactImage number_toString JSON_stringify
  sha256_hex s3_issues body w.

Arguments item_io {S3W} send redactImage number_toString jobId item w.
Arguments started_world {S3W} jobId job k item_k w.
Arguments worlds_before {S3W} send redactImage number_toString jobId items w.
Arguments item_outcome {S3W} send redactImage number_toString jobId item w.

End Service.

(** ** utils/mime.ts *)

Module Mime.
Import Pipeline (Buffer).

Record MimeValidationResult := mkMimeResult {
  valid : bool;
  detectedType : option string;
  error : option string }.

Definition SUPPORTED_MIME_TYPES : list string :=
  ["image/jpeg"; "image/png"; "image/webp"].

(** [Set.prototype.has] *)
Definition has (set : list string) (value : string) : bool :=
  existsb (String.eqb value) set.

Section Sniffing.

(** [fileTypeFromBuffer] of the file-type package, reduced to the [mime]
    field of its answer, and [buffer.length]. *)
Variable fileTypeFromBuffer : Buffer -> result (option string).
Variable buffer_length : Buffer -> Z.

Definition validateMimeType (buffer : Buffer) (declaredMimeType : option string)
    : MimeValidationResult :=
  match fileTypeFromBuffer buffer with
  | Ok None =>
      mkMimeResult false None (Some "Could not detect file type from buffer")
  | Ok (Some mime) =>
      if negb (has SUPPORTED_MIME_TYPES mime) then
        mkMimeResult false (Some mime)
          (Some ("Unsupported file type: " +:+ mime +:+ ". Supported types: "
                 +:+ String.concat ", " SUPPORTED_MIME_TYPES))
      else if Service.truthy declaredMimeType
              && negb (String.eqb (default EmptyString declaredMimeType) mime) then
        mkMimeResult false (Some mime)
          (Some ("MIME type mismatch: declared "
                 +:+ default EmptyString declaredMimeType
                 +:+ ", detected " +:+ mime))
      else mkMimeResult true (Some mime) None
  | Throw error => mkMimeResult false None (Some (err_message error))
  end.

Definition validateFileSize (buffer : Buffer) (maxSize : Z) : Coords.Validation :=
  if buffer_length buffer >? maxSize then
    Coords.mkValidation false
      (Some ("File size " +:+ pretty (buffer_length buffer)
             +:+ " bytes exceeds maximum allowed size " +:+ pretty maxSize
             +:+ " bytes"))
  else Coords.mkValidation true None.

End Sniffing.

End Mime.

(** ** modules/redaction/service.ts, with [getImageMetadata] and
       [processImage] of pipeline.ts and [generateETag] of utils/hash.ts

    The calls into the image library ([metadata], the awaited
    [toBuffer], [rotate], the two encoders), the type
    sniffer, the digest and the stopwatch of [measureAsync] form the
    record [Runtime]; the limits read from the configuration form the
    record [EnvConfig]. *)

Module RedactionService.
Import Coords Schemas Pipeline Service.

Definition RedactionServiceError (message code : string) (statusCode : Z) : JsError :=
  mkJsError true "RedactionServiceError" message (Some code) (Some statusCode).

(** The settings of [getConfig ()] that the service reads. *)
Record EnvConfig := mkConfig {
  MAX_BYTES : Z;
  MAX_PIXELS : Z;
  MAX_REGIONS : Z;
  DEFAULT_QUALITY : Z;
  DEFAULT_FORMAT : ImageFormat }.

(** What [sharp (buffer).metadata ()] answers; a field may be undefined. *)
Record SharpMetadata := mkSharpMetadata {
  md_width : option Z;
  md_height : option Z;
  md_format : option string;
  md_hasAlpha : option bool }.

(** The run-time library around the service: [buffer.length], the type
    sniffer, the metadata call, the awaited [toBuffer ()], [rotate ()] and
    the two encoders of the image library (which check their options and
    throw for a quality they do not take), the SHA-256 hex digest of a
    buffer and the duration that [measureAsync] reports. *)
Record Runtime := mkRuntime {
  buffer_length : Buffer -> Z;
  fileTypeFromBuffer : Buffer -> result (option string);
  sharp_metadata : Buffer -> result SharpMetadata;
  toBuffer : Sharp -> result Buffer;
  rotate : Sharp -> Sharp;
  webp_options : Sharp -> Z -> result Sharp;
  jpeg_options : Sharp -> Z -> result Sharp;
  sha256Buffer : Buffer -> string;
  durationMs : Q }.

(** [!n] for an optional number. *)
Definition falsy (n : option Z) : bool :=
  match n with Some v => v =? 0 | None => true end.

Section Limits.

Variable config : EnvConfig.
Variable rt : Runtime.

(** The quoted hex digest. *)
Definition generateETag (buffer : Buffer) : string :=
  String (ascii_of_nat 34) (sha256Buffer rt buffer)
  +:+ String (ascii_of_nat 34) EmptyString.

Definition getImageMetadata (buffer : Buffer) : result ImageMetadata :=
  match
    (let? metadata := sharp_metadata rt buffer in
     if falsy (md_width metadata) || falsy (md_height metadata) then
       Throw (mkError "Error" "Could not determine image dimensions")
     else
       Ok (mkMetadata (default 0 (md_width metadata))
             (default 0 (md_height metadata))
             (default "unknown" (md_format metadata))
             (buffer_length rt buffer)
             (default false (md_hasAlpha metadata))))%result
  with
  | Ok metadata => Ok metadata
  | Throw _ => Throw (ImagePipelineError "Failed to extract image metadata")
  end.

(** The body of [processImage]; the measured duration replaces the
    placeholder [0] in the result. *)
Definition processImage (inputBuffer : Buffer) (regions : list Region)
    (outputFormat : ImageFormat) (quality : option Z) : result ProcessedImage :=
  match
    (let? metadata := getImageMetadata inputBuffer in
     let? _ := validateImageDimensions (MAX_PIXELS config) metadata in
     let dimensions := mkDims (meta_width metadata) (meta_height metadata) in
     let image := rotate rt (sharp inputBuffer) in
     let? image' := applyRegions (toBuffer rt) image regions dimensions in
     let outputQuality :=
       if falsy quality then DEFAULT_QUALITY config else default 0 quality in
     let? encoded :=
       match outputFormat with
       | webp => webp_options rt image' outputQuality
       | jpeg => jpeg_options rt image' outputQuality
       end in
     let? buffer := toBuffer rt encoded in
     let etag := generateETag buffer in
     Ok (mkProcessed buffer outputFormat etag 0
           (dim_width dimensions) (dim_height dimensions)))%result
  with
  | Ok result =>
      Ok (mkProcessed (pi_buffer result) (pi_format result) (pi_etag result)
            (durationMs rt) (pi_width result) (pi_height result))
  | Throw error =>
      if instance_of ["ImagePipelineError"] error then Throw error
      else Throw (ImagePipelineError "Image processing failed")
  end.

Definition validateInput (buffer : Buffer) (declaredMimeType : option string)
    : result unit :=
  let sizeValidation :=
    Mime.validateFileSize (buffer_length rt) buffer (MAX_BYTES config) in
  if negb (Coords.valid sizeValidation) then
    Throw (RedactionServiceError (default EmptyString (Coords.error sizeValidation))
             "PAYLOAD_TOO_LARGE" 413)
  else
    let mimeValidation :=
      Mime.validateMimeType (fileTypeFromBuffer rt) buffer declaredMimeType in
    if negb (Mime.valid mimeValidation) then
      Throw (RedactionServiceError (default EmptyString (Mime.error mimeValidation))
               "UNSUPPORTED_MEDIA_TYPE" 415)
    else
      match
        (let? metadata := getImageMetadata buffer in
         validateImageDimensions (MAX_PIXELS config) metadata)%result
      with
      | Ok _ => Ok tt
      | Throw error =>
          if includes (err_message error) "exceeds maximum" then
            Throw (RedactionServiceError (err_message error) "IMAGE_TOO_LARGE" 413)
          else
            Throw (RedactionServiceError "Invalid image format or corrupted file"
                     "INVALID_IMAGE" 400)
      end.

Definition validateRegions (regions : list Region) : result unit :=
  if (length regions =? 0)%nat then
    Throw (RedactionServiceError "At least one redaction region is required"
             "VALIDATION_ERROR" 400)
  else if Z.of_nat (length regions) >? MAX_REGIONS config then
    Throw (RedactionServiceError
             ("Too many regions: " +:+ pretty (length regions)
              +:+ ". Maximum allowed: " +:+ pretty (MAX_REGIONS config))
             "TOO_MANY_REGIONS" 400)
  else Ok tt.

Definition redactImage (inputBuffer : Buffer) (regions : list Region)
    (options : RedactionOptions) (declaredMimeType : option string)
    : result ProcessedImage :=
  match
    (let? _ := validateInput inputBuffer declaredMimeType in
     let? _ := validateRegions regions in
     let format := default (DEFAULT_FORMAT config) (opt_format options) in
     let quality :=
       if falsy (opt_quality options) then DEFAULT_QUALITY config
       else default 0 (opt_quality options) in
     processImage inputBuffer regions format (Some quality))%result
  with
  | Ok result => Ok result
  | Throw error =>
      if instance_of ["RedactionServiceError"] error then Throw error
      else if String.eqb (err_name error) "ImagePipelineError" then
        Throw (RedactionServiceError (err_message error) "PIPELINE_ERROR" 500)
      else
        Throw (RedactionServiceError "Unexpected error during image processing"
                 "INTERNAL_ERROR" 500)
  end.

End Limits.

(** The code and status pairs with which the service refuses or fails. *)
Definition service_codes : list (string * Z) :=
  [("PAYLOAD_TOO_LARGE", 413); ("UNSUPPORTED_MEDIA_TYPE", 415);
   ("IMAGE_TOO_LARGE", 413); ("INVALID_IMAGE", 400);
   ("VALIDATION_ERROR", 400); ("TOO_MANY_REGIONS", 400);
   ("PIPELINE_ERROR", 500); ("INTERNAL_ERROR", 500)].

End RedactionService.

(** ** modules/base64/controller.ts: the request, the region conversion
       and the handler *)

Module Base64Controller.
Import Coords Schemas Pipeline Service Base64.

Inductive Strength := low | medium | high.

(** The literals [6 | 12 | 24]. *)
Inductive BlockSize := Block6 | Block12 | Block24.

Definition blockSize_number (b : BlockSize) : Z :=
  match b with Block6 => 6 | Block12 => 12 | Block24 => 24 end.

(** [simpleRegionSchema]: a union discriminated by [type]. *)
Inductive SimpleRegion :=
| SimpleBlur (coords : SimpleCoords) (strength : Strength)
| SimplePixelate (coords : SimpleCoords) (blockSize : BlockSize)
| SimpleFill (coords : SimpleCoords) (color : string).

Definition coords (simple : SimpleRegion) : SimpleCoords :=
  match simple with
  | SimpleBlur c _ | SimplePixelate c _ | SimpleFill c _ => c
  end.

(** The assignment to the fields of [region.coords]. *)
Definition set_coords (simple : SimpleRegion) (c : SimpleCoords) : SimpleRegion :=
  match simple with
  | SimpleBlur _ s => SimpleBlur c s
  | SimplePixelate _ b => SimplePixelate c b
  | SimpleFill _ color => SimpleFill c color
  end.

Definition simpleRegionSchema (simple : SimpleRegion) : bool :=
  coordsSchema (coords simple) &&
  match simple with
  | SimpleFill _ color => colorSchema color
  | _ => true
  end.

Record Base64Request := mkBase64Request {
  b64_image : string;
  b64_regions : list SimpleRegion;
  b64_output : option (ImageFormat * option Z) }.

Definition base64RedactionRequestSchema (body : Base64Request) : bool :=
  min_length_1 (b64_image body) &&
  (1 <=? length (b64_regions body))%nat && (length (b64_regions body) <=? 20)%nat &&
  forallb simpleRegionSchema (b64_regions body) &&
  match b64_output body with
  | Some (_, quality) => qualitySchema quality
  | None => true
  end.

Definition convertToInternalRegion (simple : SimpleRegion) : Region :=
  let coordinates := convertCoordinates (coords simple) in
  match simple with
  | SimpleBlur _ strength =>
      mkRegion coordinates
        (OpBlur (match strength with
                 | low => SizeS | medium => SizeM | high => SizeL
                 end))
  | SimplePixelate _ blockSize =>
      mkRegion coordinates
        (OpPixelate (match blockSize with
                     | Block6 => SizeS | Block12 => SizeM | Block24 => SizeL
                     end))
  | SimpleFill _ color => mkRegion coordinates (OpFill color)
  end.

(** The loop "Clamp region coordinates to image bounds" from index [i]
    on: the number of the first region left without area together with the
    early reply, or the regions with their adjusted coordinates. *)
Fixpoint clampRegions (imgWidth imgHeight : Z) (i : nat)
    (regions : list SimpleRegion) : (nat * Reply) + list SimpleRegion :=
  match regions with
  | [] => inr []
  | region :: rest =>
      match clampRegion imgWidth imgHeight (coords region) with
      | inl reply => inl (S i, reply)
      | inr c' =>
          match clampRegions imgWidth imgHeight (S i) rest with
          | inl early => inl early
          | inr rest' => inr (set_coords region c' :: rest')
          end
      end
  end.

(** A pixel rectangle written with the four numbers of the simple
    format. *)
Definition of_pixel (r : PixelCoordinates) : SimpleCoords :=
  mkSimple (inject_Z (x r)) (inject_Z (y r))
    (inject_Z (width r)) (inject_Z (height r)).

(** The regions handed to the service: clamped, then converted. *)
Definition internalRegions (imgWidth imgHeight : Z) (regions : list SimpleRegion)
    : (nat * Reply) + list Region :=
  match clampRegions imgWidth imgHeight 0 regions with
  | inl early => inl early
  | inr clamped => inr (map convertToInternalRegion clamped)
  end.

(** The reply: the image with its [Content-Type] and [ETag] headers (the
    timing, disposition and cache headers are left out), or an error
    body. *)
Inductive Base64Reply :=
| Base64Image (body : Buffer) (contentType etag : string)
| Base64Failure (status : Z) (code message : string).

Section Handler.

(** The run-time library, [Buffer.from (image, 'base64')] and
    [RedactionService.redactImage]. *)
Variable rt : RedactionService.Runtime.
Variable Buffer_from_base64 : string -> Buffer.
Variable redactImage :
  Buffer -> list Region -> RedactionOptions -> result ProcessedImage.

Definition postRedactBase64 (body : Base64Request) : Base64Reply :=
  if negb (base64RedactionRequestSchema body) then
    Base64Failure 400 "VALIDATION_ERROR" "Request validation failed"
  else
    let validated := body in
    let imageBuffer := Buffer_from_base64 (b64_image validated) in
    if RedactionService.buffer_length rt imageBuffer =? 0 then
      Base64Failure 400 "INVALID_IMAGE" "Invalid base64 image data"
    else
      match RedactionService.sharp_metadata rt imageBuffer with
      | Throw _ =>
          Base64Failure 400 "INVALID_IMAGE"
            "Unable to process image. Please ensure the base64 data is a valid image."
      | Ok metadata =>
          let imgWidth := default 0 (RedactionService.md_width metadata) in
          let imgHeight := default 0 (RedactionService.md_height metadata) in
          if (imgWidth =? 0) || (imgHeight =? 0) then
            Base64Failure 400 "INVALID_IMAGE" "Image has invalid dimensions"
          else
            match internalRegions imgWidth imgHeight (b64_regions validated) with
            | inl (number, reply) =>
                Base64Failure (reply_status reply) (reply_code reply)
                  ("Region " +:+ pretty number
                   +:+ ": After adjusting to image bounds, region has no area")
            | inr regions =>
                let format :=
                  default webp (option_map fst (b64_output validated)) in
                let quality :=
                  match b64_output validated ≫= snd with
                  | Some q => if q =? 0 then 85 else q
                  | None => 85
                  end in
                match redactImage imageBuffer regions
                        (mkOptions (Some format) (Some quality)) with
                | Ok outputBuffer =>
                    let resultBuffer := pi_buffer outputBuffer in
                    let etag :=
                      RedactionService.generateETag rt resultBuffer in
                    let contentType :=
                      match format with
                      | webp => "image/webp"
                      | jpeg => "image/jpeg"
                      end in
                    Base64Image resultBuffer contentType etag
                | Throw error =>
                    if instance_of ["RedactionServiceError"] error then
                      Base64Failure (default 0 (err_statusCode error))
                        (default EmptyString (err_code error))
                        (err_message error)
                    else Base64Failure 500 "PROCESSING_ERROR" (err_message error)
                end
            end
      end.

End Handler.

End Base64Controller.

(** ** An object storage for the scenarios

    A storage that answers the two commands as the S3 API documents them:
    [NoSuchBucket] for an unknown bucket, [NoSuchKey] for a missing key. *)

Module MemoryS3.
Import Service.

Record Store := mkStore {
  buckets : gset string;
  objects : gmap (string * string) Pipeline.Buffer }.

Definition NoSuchBucket : JsError :=
  mkError "NoSuchBucket" "The specified bucket does not exist".

Definition NoSuchKey : JsError :=
  mkError "NoSuchKey" "The specified key does not exist.".

Definition send (cmd : Command) (st : Store) : result Output * Store :=
  match cmd with
  | GetObjectCommand b k =>
      if bool_decide (b ∈ buckets st) then
        match objects st !! (b, k) with
        | Some body => (Ok (GetObjectOutput (Some body)), st)
        | None => (Throw NoSuchKey, st)
        end
      else (Throw NoSuchBucket, st)
  | PutObjectCommand b k body _ _ =>
      if bool_decide (b ∈ buckets st) then
        (Ok PutObjectOutput, mkStore (buckets st) (<[(b, k) := body]> (objects st)))
      else (Throw NoSuchBucket, st)
  end.

(** A stand-in for the image pipeline that accepts every input and
    returns it unchanged under a fixed tag. *)
Definition redactImage (buffer : Pipeline.Buffer) (regions : list Schemas.Region)
    (options : RedactionOptions) : result ProcessedImage :=
  Ok (mkProcessed buffer (default Schemas.webp (opt_format options))
        "etag" 12 1 1).

Definition number_toString (q : Q) : string := pretty (Qfloor q).
Definition JSON_stringify (fields : list (string * FieldValue)) : string :=
  String.concat "," (map fst fields).
Definition sha256_hex (s : string) : string := s.

(** Stand-ins for the messages of the validation library. *)
Definition s3_issues (body : Schemas.S3RedactionRequest) : string :=
  "Invalid input".
Definition batch_issues (body : Schemas.BatchRequest) : string :=
  "Invalid input".

End MemoryS3.

(** ** The worlds of the scenarios *)

Module Scenario.
Import Schemas JobStore Service.

Definition request_for (name : string) : S3RedactionRequest :=
  {| input := mkS3Object "in" (name +:+ ".png");
     output := mkS3Output "out" (name +:+ ".webp") webp None;
     regions := [mkRegion (Coords.Pixel (Coords.mkPixel 0 0 10 10)) (OpBlur SizeS)];
     idempotency_key := None |}.

Definition response_for (name : string) : S3RedactionResponse :=
  mkResponse true (Some (output (request_for name))) 12 (Some "etag").

(** One job with one item in an empty store. *)
Definition single_job_store : JobMap :=
  snd (createJob 0 "job" [request_for "a"] None []).

Definition start_then_complete : list (Z * ItemCall) :=
  [(1, Start "job-0"); (2, Complete "job-0" (response_for "a"))].

Definition complete_then_start : list (Z * ItemCall) :=
  [(1, Complete "job-0" (response_for "a")); (2, Start "job-0")].

Definition store_after (cs : list (Z * ItemCall)) : JobMap :=
  match run_calls "job" cs single_job_store with
  | Ok jobs => jobs
  | Throw _ => []
  end.

Definition hook_url : string := "http://hooks.example/done".

(** Storage with the sources of items a and c; the source of item b is
    missing. *)
Definition scenario_storage : MemoryS3.Store :=
  MemoryS3.mkStore {["in"; "out"]}
    (<[("in", "a.png") := Pipeline.RawBytes []]>
       (<[("in", "c.png") := Pipeline.RawBytes []]> ∅)).

(** A job of three items, created at time 0; the webhook sink answers 500,
    500 and then 200. *)
Definition scenario_world : World MemoryS3.Store :=
  mkWorld
    (snd (createJob 0 "job" [request_for "a"; request_for "b"; request_for "c"]
            (Some hook_url) []))
    scenario_storage
    [Response 500 "Internal Server Error"; Response 500 "Internal Server Error";
     Response 200 "OK"]
    5 [].

Definition scenario_run : result unit * World MemoryS3.Store :=
  processBatchJob MemoryS3.send MemoryS3.redactImage MemoryS3.number_toString
    None "job" scenario_world.

Definition scenario_payload (attempts : Z) : JobStatus :=
  mkJobStatus "job" Failed 3 2 1 0 (Some hook_url) attempts.

(** A pending job and a webhook sink that answers 500 three times. *)
Definition failing_sink_world : World MemoryS3.Store :=
  mkWorld (snd (createJob 0 "job" [request_for "a"] (Some hook_url) []))
    scenario_storage
    [Response 500 "Internal Server Error"; Response 500 "Internal Server Error";
     Response 500 "Internal Server Error"]
    0 [].

Definition failing_sink_payload (attempts : Z) : JobStatus :=
  mkJobStatus "job" Pending 1 0 0 1 (Some hook_url) attempts.

Definition empty_key_request : S3RedactionRequest :=
  {| input := mkS3Object "in" "a.png";
     output := mkS3Output "out" "a.webp" webp None;
     regions := [mkRegion (Coords.Pixel (Coords.mkPixel 0 0 10 10)) (OpBlur SizeS)];
     idempotency_key := Some EmptyString |}.

Definition empty_key_world : World MemoryS3.Store :=
  mkWorld []
    (MemoryS3.mkStore {["in"; "out"]}
       (<[("in", "a.png") := Pipeline.RawBytes []]>
          (<[("out", "a.webp") := Pipeline.RawBytes []]> ∅)))
    [] 0 [].

(** [n] jobs created one millisecond apart, starting at time 0. *)
Fixpoint fill_store (n : nat) : JobMap :=
  match n with
  | O => []
  | S n' =>
      snd (createJob (Z.of_nat n') ("j" +:+ pretty n') [request_for "a"] None
             (fill_store n'))
  end.

(** The single job of [single_job_store] after its item was started at
    time 1. *)
Definition started_job : Job :=
  step_job 1 (fst (createJob 0 "job" [request_for "a"] None [])) 0
    (new_item "job" 0 (request_for "a")) (start_update 1).

End Scenario.

(** * Properties of the coordinate resolver *)

Section CoordinateResolver.
Import Coords.

Lemma clamp_x_range p d :
  0 <= dim_width d -> 0 <= x (clampToImageBounds p d) <= dim_width d.
Proof. unfold clampToImageBounds; simpl; lia. Qed.

Lemma clamp_floor_one p d :
  1 <= width (clampToImageBounds p d) /\ 1 <= height (clampToImageBounds p d).
Proof. unfold clampToImageBounds; simpl; lia. Qed.

(** The resolved rectangle meets the output contract exactly when the
    requested origin lies strictly inside the image. *)
Lemma clamp_in_bounds_iff p d :
  1 <= dim_width d -> 1 <= dim_height d ->
  (in_bounds (clampToImageBounds p d) d <-> x p < dim_width d /\ y p < dim_height d).
Proof.
  intros Hw Hh. unfold in_bounds, clampToImageBounds; simpl. lia.
Qed.

(** C1, evaluated on the code: a schema-valid pixel rectangle whose [x]
    equals the image width, on a 400 x 300 image, is resolved to a
    rectangle with [x = 400] and [width = 1]; it violates [x < 400] and
    [x + width <= 400]. *)
Theorem processCoordinates_origin_on_edge :
  processCoordinates (Pixel (mkPixel 400 0 10 10)) (mkDims 400 300)
    = Ok (mkPixel 400 0 1 10) /\
  ~ in_bounds (mkPixel 400 0 1 10) (mkDims 400 300).
Proof.
  split; [reflexivity|].
  unfold in_bounds; simpl. lia.
Qed.

(** C8: an in-bounds pixel rectangle is returned unchanged. *)
Theorem processCoordinates_idempotent_in_bounds (p : PixelCoordinates) (d : ImageDimensions) :
  0 <= x p -> 0 <= y p -> 1 <= width p -> 1 <= height p ->
  x p + width p <= dim_width d -> y p + height p <= dim_height d ->
  processCoordinates (Pixel p) d = Ok p.
Proof.
  intros Hx Hy Hw Hh Hxw Hyh.
  unfold processCoordinates, clampToImageBounds; simpl.
  destruct p as [px py pw ph]; simpl in *.
  f_equal. f_equal; lia.
Qed.

Lemma processCoordinates_idempotent_in_bounds_witness :
  processCoordinates (Pixel (mkPixel 350 250 50 50)) (mkDims 400 300)
    = Ok (mkPixel 350 250 50 50).
Proof.
  apply processCoordinates_idempotent_in_bounds; simpl; lia.
Defined.

(** C7 as stated fails: the unit-interval input [x_norm = 1] on a 400 x 300
    image leaves a clamped width of 0, and the resolver still returns a
    rectangle (of width 1) instead of failing. *)
Lemma processCoordinates_degenerate_unit_returns :
  let n := mkNorm 1 0 (1 # 2) (1 # 2) in
  let d := mkDims 400 300 in
  clampedWidth (normalizedToPixel n d) d <= 0 /\
  processCoordinates (Normalized n) d = Ok (mkPixel 400 0 1 150).
Proof. split; [vm_compute; discriminate | reflexivity]. Qed.

Lemma clampUnit_width_nonpos c :
  Base64.coordsSchema c = true -> Base64.isNormalized c = true ->
  (Base64.swidth (Base64.clampUnit c) <= 0 <-> Base64.sx c == 1)%Q.
Proof.
  unfold Base64.coordsSchema, Base64.isNormalized, Base64.clampUnit; simpl.
  rewrite !andb_true_iff, !negb_true_iff.
  intros [Hw _] [[[Hx _] _] _].
  apply Qle_bool_iff in Hx.
  assert (Hw' : (0 < Base64.swidth c)%Q).
  { apply Qnot_le_lt. intros Hle. apply Qle_bool_iff in Hle. congruence. }
  clear Hw.
  destruct (Q.min_spec 1 (Base64.sx c)) as [[H1 E1]|[H1 E1]];
  destruct (Q.max_spec 0 (Qmin 1 (Base64.sx c))) as [[H2 E2]|[H2 E2]];
  destruct (Q.min_spec (1 - Qmax 0 (Qmin 1 (Base64.sx c))) (Base64.swidth c)) as [[H3 E3]|[H3 E3]];
  destruct (Q.max_spec 0 (Qmin (1 - Qmax 0 (Qmin 1 (Base64.sx c))) (Base64.swidth c)))
    as [[H4 E4]|[H4 E4]];
  rewrite ?E4; rewrite ?E3 in *; rewrite ?E2 in *; rewrite ?E1 in *; split; intros; lra.
Qed.

Lemma clampUnit_height_nonpos c :
  Base64.coordsSchema c = true -> Base64.isNormalized c = true ->
  (Base64.sheight (Base64.clampUnit c) <= 0 <-> Base64.sy c == 1)%Q.
Proof.
  unfold Base64.coordsSchema, Base64.isNormalized, Base64.clampUnit; simpl.
  rewrite !andb_true_iff, !negb_true_iff.
  intros [_ Hh] [[[_ Hy] _] _].
  apply Qle_bool_iff in Hy.
  assert (Hh' : (0 < Base64.sheight c)%Q).
  { apply Qnot_le_lt. intros Hle. apply Qle_bool_iff in Hle. congruence. }
  clear Hh.
  destruct (Q.min_spec 1 (Base64.sy c)) as [[H1 E1]|[H1 E1]];
  destruct (Q.max_spec 0 (Qmin 1 (Base64.sy c))) as [[H2 E2]|[H2 E2]];
  destruct (Q.min_spec (1 - Qmax 0 (Qmin 1 (Base64.sy c))) (Base64.sheight c)) as [[H3 E3]|[H3 E3]];
  destruct (Q.max_spec 0 (Qmin (1 - Qmax 0 (Qmin 1 (Base64.sy c))) (Base64.sheight c)))
    as [[H4 E4]|[H4 E4]];
  rewrite ?E4; rewrite ?E3 in *; rewrite ?E2 in *; rewrite ?E1 in *; split; intros; lra.
Qed.

Lemma clampRegion_rejects_iff imgW imgH c :
  Base64.clampRegion imgW imgH c = inl Base64.INVALID_REGION <->
  Base64.isNormalized c = true /\
  (Base64.swidth (Base64.clampUnit c) <= 0 \/
   Base64.sheight (Base64.clampUnit c) <= 0)%Q.
Proof.
  unfold Base64.clampRegion.
  destruct (Base64.isNormalized c).
  - rewrite <- !Qle_bool_iff.
    destruct (Qle_bool (Base64.swidth (Base64.clampUnit c)) 0);
    destruct (Qle_bool (Base64.sheight (Base64.clampUnit c)) 0); simpl;
      split; intros H; auto.
    + discriminate H.
    + destruct H as [_ [H|H]]; discriminate H.
  - split; intros H; [discriminate H | destruct H as [H _]; discriminate H].
Qed.

Lemma convertCoordinates_tagged c :
  isPixelCoordinates (Base64.convertCoordinates c)
  || isNormalizedCoordinates (Base64.convertCoordinates c) = true.
Proof. unfold Base64.convertCoordinates. destruct (Base64.isNormalized c); reflexivity. Qed.

(** C7, as the code has it.  The resolver itself never rejects a region:
    on a pixel or unit-interval input it returns the clamped rectangle,
    whose width and height are raised to at least one, and its only
    exception is the one for a value of neither shape.  The
    [INVALID_REGION] reply is produced by the pre-clamp of the base64
    endpoint, exactly for an input classified as unit-interval whose
    clamped width or height is not positive, which for a schema-valid
    input means [x = 1] or [y = 1]; every other input of that endpoint
    goes on to the resolver and is resolved without error. *)
Theorem resolver_total_and_preclamp_rejection
    (c : Base64.SimpleCoords) (imgWidth imgHeight : Z) :
  Base64.coordsSchema c = true ->
  (forall p d, processCoordinates (Pixel p) d = Ok (clampToImageBounds p d)) /\
  (forall n d, processCoordinates (Normalized n) d
               = Ok (clampToImageBounds (normalizedToPixel n d) d)) /\
  (forall p d, 1 <= width (clampToImageBounds p d) /\
               1 <= height (clampToImageBounds p d)) /\
  (forall c0 d e, processCoordinates c0 d = Throw e ->
                  c0 = OtherShape /\ e = mkError "Error" "Invalid coordinate type") /\
  (Base64.clampRegion imgWidth imgHeight c = inl Base64.INVALID_REGION <->
   Base64.isNormalized c = true /\
   (Base64.swidth (Base64.clampUnit c) <= 0 \/
    Base64.sheight (Base64.clampUnit c) <= 0)%Q) /\
  (Base64.clampRegion imgWidth imgHeight c = inl Base64.INVALID_REGION <->
   Base64.isNormalized c = true /\ (Base64.sx c == 1 \/ Base64.sy c == 1)%Q) /\
  (Base64.clampRegion imgWidth imgHeight c <> inl Base64.INVALID_REGION ->
   exists c' r,
     Base64.clampRegion imgWidth imgHeight c = inr c' /\
     processCoordinates (Base64.convertCoordinates c')
       (mkDims imgWidth imgHeight) = Ok r).
Proof.
  intros Hschema.
  split; [reflexivity|]. split; [reflexivity|].
  split; [intros; apply clamp_floor_one|].
  split.
  { intros c0 d e. destruct c0; simpl; try discriminate.
    intros [= <-]. split; reflexivity. }
  split; [apply clampRegion_rejects_iff|].
  split.
  { rewrite clampRegion_rejects_iff. split.
    - intros [Hn Hd]. split; [exact Hn|].
      destruct Hd as [Hd|Hd].
      + left. now apply clampUnit_width_nonpos.
      + right. now apply clampUnit_height_nonpos.
    - intros [Hn Hd]. split; [exact Hn|].
      destruct Hd as [Hd|Hd].
      + left. now apply clampUnit_width_nonpos.
      + right. now apply clampUnit_height_nonpos. }
  intros Hne.
  destruct (Base64.clampRegion imgWidth imgHeight c) as [rep|c'] eqn:E.
  - exfalso. apply Hne. f_equal.
    unfold Base64.clampRegion in E.
    destruct (Base64.isNormalized c); [|discriminate].
    destruct (_ || _); [|discriminate]. now inversion E.
  - exists c'.
    pose proof (convertCoordinates_tagged c') as Ht.
    destruct (Base64.convertCoordinates c') as [p|n|] eqn:Ec; simpl in Ht;
      try discriminate; eexists; split; reflexivity.
Qed.

Lemma resolver_total_and_preclamp_rejection_witness :
  Base64.clampRegion 400 300 (Base64.mkSimple 1 0 (1 # 2) (1 # 2))
    = inl Base64.INVALID_REGION.
Proof.
  apply (resolver_total_and_preclamp_rejection
           (Base64.mkSimple 1 0 (1 # 2) (1 # 2)) 400 300 eq_refl).
  split; [reflexivity | left; reflexivity].
Defined.

End CoordinateResolver.

(** * Properties of the pixelate step *)

Section Pixelate.
Import Coords Schemas Pipeline.

Variable toBuffer : Sharp -> result Buffer.

(** The rule of the image library for [resize]: a pipeline resizes once,
    and of two calls on one chain the earlier is ignored. *)
Hypothesis resize_once_rule :
  forall image w1 h1 k1 w2 h2 k2,
    toBuffer (resize (resize image w1 h1 k1) w2 h2 k2)
    = toBuffer (resize image w2 h2 k2).

(** C9: [applyPixelate] puts both [resize] calls on one chain and awaits
    nothing between them.  Under the library's rule the reduced size
    [max 1 (floor (w / b))] by [max 1 (floor (h / b))] is therefore never
    used: for each of the three block sizes the operation composites, at
    the offset of the rectangle, the extracted rectangle resized to its own
    width and height. *)
Theorem applyPixelate_block_size_unused (image : Sharp) (coords : PixelCoordinates)
    (size : Size) :
  applyOperation toBuffer image coords (OpPixelate size)
  = (let? currentBuffer := toBuffer image in
     let? region :=
       toBuffer
         (resize
            (extract (sharp currentBuffer)
               (x coords) (y coords) (width coords) (height coords))
            (width coords) (height coords) nearest) in
     Ok (composite (sharp currentBuffer) region (x coords) (y coords) None))%result.
Proof.
  unfold applyOperation, applyPixelate.
  destruct (toBuffer image) as [currentBuffer|e]; simpl; [|reflexivity].
  now rewrite resize_once_rule.
Qed.

End Pixelate.

Section PixelateScenario.
Import Coords Schemas Pipeline SharpStandIn.

Lemma applyPixelate_block_size_unused_witness :
  let image := sharp (RawBytes []) in
  let coords := mkPixel 0 0 24 24 in
  let region := Rendered (resize (extract (sharp (Rendered image)) 0 0 24 24)
                            24 24 nearest) in
  Z.max 1 (width coords / PIXELATE_SIZE_MAP SizeM) = 2 /\
  applyOperation resize_once image coords (OpPixelate SizeM)
  = Ok (composite (sharp (Rendered image)) region 0 0 None).
Proof.
  split; [reflexivity|].
  rewrite (applyPixelate_block_size_unused resize_once); [reflexivity|].
  intros image w1 h1 k1 w2 h2 k2. reflexivity.
Defined.

End PixelateScenario.

(** * Properties of the two S3 controllers *)

Section Controllers.
Import Schemas JobStore Service.

Variable S3W : Type.
Variable send : Command -> S3W -> result Output * S3W.
Variable redactImage :
  Pipeline.Buffer -> list Region -> RedactionOptions -> result ProcessedImage.
Variable number_toString : Q -> string.
Variable JSON_stringify : list (string * FieldValue) -> string.
Variable sha256_hex : string -> string.
Variable s3_issues : S3RedactionRequest -> string.
Variable isUrl : string -> bool.
Variable batch_issues : BatchRequest -> string.

Lemma map_get_set k v m : map_get k (map_set k v m) = Some v.
Proof.
  induction m as [|[k' v'] m IH]; simpl.
  - now rewrite String.eqb_refl.
  - destruct (String.eqb k' k) eqn:E; simpl.
    + now rewrite String.eqb_refl.
    + now rewrite E.
Qed.

(** C10: the batch endpoint answers 202 and creates the job exactly when
    the body passes the batch schema, which requires between one and ten
    items; with zero items or more than ten it answers 400
    [VALIDATION_ERROR], with the message of the validation library's
    error, whatever that is, and leaves the store, and everything else,
    untouched. *)
Theorem postRedactBatch_item_count (jobId : string) (body : BatchRequest)
    (w : World S3W) :
  let out := postRedactBatch isUrl batch_issues jobId body w in
  let n := length (items body) in
  ((exists id k ms, fst out = Ok (BatchAccepted id k ms)) <->
   batchRequestSchema isUrl body = true) /\
  (batchRequestSchema isUrl body = true -> (1 <= n <= 10)%nat) /\
  (batchRequestSchema isUrl body = true ->
   fst out = Ok (BatchAccepted jobId (Z.of_nat n) (Z.of_nat n * 500)) /\
   trace (snd out) = trace w ++ [EvSchedule jobId] /\
   exists job, getJob jobId (jobs (snd out)) = Some job /\
               length (job_items job) = n /\ job_status job = Pending) /\
  ((n = 0 \/ 10 < n)%nat ->
   fst out = Ok (BatchError 400 "VALIDATION_ERROR" (batch_issues body)) /\
   snd out = w).
Proof.
  intros out n. subst out.
  unfold postRedactBatch, batchRequestSchema_parse.
  assert (Hlen : batchRequestSchema isUrl body = true -> (1 <= n <= 10)%nat).
  { unfold batchRequestSchema. rewrite !andb_true_iff.
    intros [[[H1 H2] _] _].
    apply Nat.leb_le in H1. apply Nat.leb_le in H2. subst n. lia. }
  destruct (batchRequestSchema isUrl body) eqn:E; simpl.
  - split; [split; [reflexivity | intros _; do 3 eexists; reflexivity]|].
    split; [exact Hlen|].
    split; [|intros Hn; specialize (Hlen eq_refl); lia].
    intros _. split; [reflexivity|]. split; [reflexivity|].
    eexists. unfold getJob. rewrite map_get_set. simpl.
    split; [reflexivity|]. split; [apply length_imap | reflexivity].
  - split; [split; [intros (id & k & ms & H); discriminate H | discriminate]|].
    split; [discriminate|]. split; [discriminate|].
    intros _. split; reflexivity.
Qed.

Ltac step_handler :=
  match goal with
  | |- context [send ?c ?s] =>
      let r := fresh "r" in let s' := fresh "s" in let E := fresh "E" in
      destruct (send c s) as [r s'] eqn:E; simpl
  | |- context [redactImage ?a ?b ?c] =>
      let E := fresh "E" in destruct (redactImage a b c) eqn:E; simpl
  | |- context [match ?x with Ok _ => _ | Throw _ => _ end] =>
      destruct x; simpl
  | |- context [match ?x with GetObjectOutput _ => _ | PutObjectOutput => _ end] =>
      destruct x as [[?|]|]; simpl
  | |- context [if ?b then _ else _] =>
      let E := fresh "E" in destruct b eqn:E; simpl
  end.

(** [Object.keys (..).sort ()] leaves the three fields in the order
    input, output, regions. *)
Lemma generateRequestHash_request body :
  generateRequestHash JSON_stringify sha256_hex
    [("input", FInput (input body)); ("output", FOutput (output body));
     ("regions", FRegions (regions body))]
  = derived_key JSON_stringify sha256_hex body.
Proof. reflexivity. Qed.

Lemma postRedactS3_skip_branch (body : S3RedactionRequest) (w : World S3W) :
  let out :=
    postRedactS3 send redactImage number_toString JSON_stringify sha256_hex
      s3_issues body w in
  (fst out = Ok (skip_reply body) <->
   s3RedactionRequestSchema body = true /\
   truthy (idempotency_key body) = true /\
   is_ok (fst (send (probe body) (s3 w))) = true) /\
  (fst out = Ok (skip_reply body) ->
   trace (snd out) = trace w ++ [EvSend (probe body)]).
Proof.
  intros out. subst out.
  unfold postRedactS3, s3RedactionRequestSchema_parse, skip_reply, probe,
    try_catch, bindM, objectExists,
    try_catch, bindM, client_send, getObject, putObject, try_catch, bindM,
    client_send, lift, ret, throw.
  destruct (s3RedactionRequestSchema body) eqn:Eschema; simpl.
  2: { split; [split; [intros H | intros (H1 & H2 & H3)] | intros H];
       discriminate. }
  destruct (send (GetObjectCommand (out_bucket (output body))
                    (out_key (output body))) (s3 w)) as [r0 s0] eqn:Eprobe.
  simpl.
  repeat step_handler.
  all: try (injection Eprobe as <- <-).
  all: split; [split; [intros H | intros (H1 & H2 & H3)] | intros H].
  all: rewrite ?negb_true_iff, ?negb_false_iff in *; simpl in *.
  all: try discriminate H; try congruence.
  all: try (repeat split; congruence).
Qed.

Lemma postRedactS3_puts_carry_key (body : S3RedactionRequest) (w : World S3W) :
  let out :=
    postRedactS3 send redactImage number_toString JSON_stringify sha256_hex
      s3_issues body w in
  exists l, trace (snd out) = trace w ++ l /\
    forall md, In (Some md) (map is_put l) ->
               In ("x-idempotency-key", effective_key JSON_stringify sha256_hex body) md.
Proof.
  intros out. subst out.
  unfold effective_key.
  unfold postRedactS3, s3RedactionRequestSchema_parse, try_catch, bindM,
    objectExists,
    try_catch, bindM, client_send, getObject, putObject, try_catch, bindM,
    client_send, lift, ret, throw.
  destruct (s3RedactionRequestSchema body) eqn:Eschema; cbn beta iota.
  2: { exists []. split; [symmetry; apply app_nil_r | intros md []]. }
  rewrite generateRequestHash_request.
  simpl.
  repeat step_handler.
  all: rewrite <- ?app_assoc; simpl.
  all: eexists; split;
    [ first [reflexivity | symmetry; apply app_nil_r]
    | simpl; intros md Hin;
      repeat (destruct Hin as [Hin|Hin]; [try discriminate Hin|]);
      try contradiction ].
  all: injection Hin as <-; simpl; auto.
Qed.

(** C5, as the code has it.  The skip branch (success reply with
    [processing_time_ms = 0] and no entity tag) is taken exactly when the
    body is valid, the supplied [idempotency_key] is a non-empty string
    and the probe of the destination succeeds; the probe is then the only
    command sent to the storage, so nothing is read or written.  Without
    such a key the skip is never taken, and the key derived by hashing the
    [input], [output] and [regions] fields in key order is what every
    upload of the request carries as [x-idempotency-key]. *)
Theorem postRedactS3_skip_iff (body : S3RedactionRequest) (w : World S3W) :
  let out :=
    postRedactS3 send redactImage number_toString JSON_stringify sha256_hex
      s3_issues body w in
  (fst out = Ok (skip_reply body) <->
   s3RedactionRequestSchema body = true /\
   truthy (idempotency_key body) = true /\
   is_ok (fst (send (probe body) (s3 w))) = true) /\
  (fst out = Ok (skip_reply body) ->
   trace (snd out) = trace w ++ [EvSend (probe body)]) /\
  (truthy (idempotency_key body) = false ->
   fst out <> Ok (skip_reply body) /\
   exists l, trace (snd out) = trace w ++ l /\
     forall md, In (Some md) (map is_put l) ->
                In ("x-idempotency-key", derived_key JSON_stringify sha256_hex body) md).
Proof.
  intros out.
  destruct (postRedactS3_skip_branch body w) as [Hiff Htrace].
  split; [exact Hiff|]. split; [exact Htrace|].
  intros Hkey. split.
  - intros Hskip. apply Hiff in Hskip. destruct Hskip as (_ & Ht & _).
    congruence.
  - destruct (postRedactS3_puts_carry_key body w) as (l & Hl & Hmd).
    exists l. split; [exact Hl|].
    unfold effective_key in Hmd. rewrite Hkey in Hmd. exact Hmd.
Qed.

End Controllers.

Section EmptyKey.
Import Schemas JobStore Service Scenario.

(** C5 as stated fails for a key that is supplied but empty: with the empty
    string as [idempotency_key] and the destination object present, the
    request is processed again and the destination is overwritten. *)
Lemma postRedactS3_empty_key_not_skipped :
  let out :=
    postRedactS3 MemoryS3.send MemoryS3.redactImage MemoryS3.number_toString
      MemoryS3.JSON_stringify MemoryS3.sha256_hex MemoryS3.s3_issues
      empty_key_request empty_key_world in
  s3RedactionRequestSchema empty_key_request = true /\
  idempotency_key empty_key_request = Some EmptyString /\
  is_ok (fst (MemoryS3.send
                (GetObjectCommand "out" "a.webp") (s3 empty_key_world))) = true /\
  fst out = Ok (S3Success
                  (mkResponse true (Some (output empty_key_request)) 12
                     (Some "etag"))) /\
  trace (snd out) =
    [EvSend (GetObjectCommand "out" "a.webp");
     EvSend (GetObjectCommand "in" "a.png");
     EvSend (PutObjectCommand "out" "a.webp" (Pipeline.RawBytes [])
               (Some "image/webp")
               [("x-redaction-etag", "etag");
                ("x-processing-time-ms", "12");
                ("x-idempotency-key", "input,output,regions")])].
Proof. vm_compute. repeat split. Qed.

End EmptyKey.

(** * Properties of the webhook delivery *)

Section Webhook.
Import Schemas JobStore Service.

Variable S3W : Type.

Lemma sendWebhook_trace (jobId url : string) (w : World S3W) :
  let out := sendWebhook jobId url 0 w in
  fst out = Ok tt /\
  jobs (snd out) = jobs w /\
  trace (snd out) =
    trace w ++
    match getJob jobId (jobs w) with
    | Some job =>
        firstn (2 * attempts_made (sink w) - 1) (delivery_pattern job url)
    | None => []
    end.
Proof.
  intros out. subst out.
  simp sendWebhook.
  destruct (getJob jobId (jobs w)) as [job|] eqn:Ejob.
  2: { simpl. rewrite app_nil_r. auto. }
  unfold attempts_made, delivery_pattern.
  destruct (sink w) as [|o1 [|o2 [|o3 rest]]] eqn:Esink;
    try destruct o1 as [st1 tx1|m1]; try destruct o2 as [st2 tx2|m2];
    try destruct o3 as [st3 tx3|m3]; simpl;
    try destruct (response_ok st1) eqn:E1; try destruct (response_ok st2) eqn:E2;
    try destruct (response_ok st3) eqn:E3.
  all: repeat (unfold deliver, fetch, sleep, bindM, throw, ret; simpl;
               rewrite ?Esink, ?E1, ?E2, ?E3; simpl;
               try (simp sendWebhook; simpl; rewrite ?Ejob)).
  all: rewrite <- ?app_assoc; simpl; auto.
Qed.

Lemma attempts_made_cases script :
  attempts_made script = 1%nat \/ attempts_made script = 2%nat \/
  attempts_made script = 3%nat.
Proof.
  unfold attempts_made.
  destruct script as [|o1 [|o2 rest]]; auto;
    destruct (outcome_ok o1); auto; destruct (outcome_ok o2); auto.
Qed.

(** The third entry of the delay table is never waited for: no retry
    follows the third attempt. *)
Lemma sendWebhook_third_delay_unused (jobId url : string) (w : World S3W) :
  forall new, trace (snd (sendWebhook jobId url 0 w)) = trace w ++ new ->
              ~ In (EvSleep 10000) new.
Proof.
  intros new Hnew.
  destruct (sendWebhook_trace jobId url w) as (_ & _ & Ht).
  rewrite Ht in Hnew. apply app_inv_head in Hnew. subst new.
  destruct (getJob jobId (jobs w)) as [job|]; [|intros []].
  destruct (attempts_made_cases (sink w)) as [E|[E|E]]; rewrite E; simpl;
    intros H; repeat (destruct H as [H|H]; [discriminate H|]); exact H.
Qed.

(** A delivery started by [sendWebhook] always returns normally, makes at
    most three POSTs, and waits 1000 ms after the first failed POST and
    5000 ms after the second; with the job in the store, the events are the
    prefix of POST, 1000 ms, POST, 5000 ms, POST that ends with the first
    successful POST. *)
Lemma sendWebhook_retry_spec (jobId url : string) (w : World S3W) :
  let out := sendWebhook jobId url 0 w in
  exists new,
    fst out = Ok tt /\
    trace (snd out) = trace w ++ new /\
    (length (List.filter is_post new) <= 3)%nat /\
    omap sleep_of new
      = firstn (length (List.filter is_post new) - 1) [1000; 5000] /\
    omap sleep_of new
      = firstn (length (List.filter is_post new) - 1) retryDelays /\
    (forall job, getJob jobId (jobs w) = Some job ->
       new = firstn (2 * attempts_made (sink w) - 1) (delivery_pattern job url)) /\
    (forall job t1 t2 t3 rest, getJob jobId (jobs w) = Some job ->
       sink w = Response 500 t1 :: Response 500 t2 :: Response 200 t3 :: rest ->
       new = delivery_pattern job url).
Proof.
  intros out.
  destruct (sendWebhook_trace jobId url w) as (Hok & _ & Ht).
  fold out in Hok, Ht.
  eexists. split; [exact Hok|]. split; [exact Ht|].
  destruct (getJob jobId (jobs w)) as [job|].
  - destruct (attempts_made_cases (sink w)) as [E|[E|E]]; rewrite E; simpl.
    all: split; [lia|]. all: split; [reflexivity|]. all: split; [reflexivity|].
    all: split; [intros job' [= <-]; reflexivity|].
    all: intros job' t1 t2 t3 rest [= <-] Hs; rewrite Hs in E; try discriminate E.
    reflexivity.
  - simpl. split; [lia|]. split; [reflexivity|]. split; [reflexivity|].
    split; intros; discriminate.
Qed.

End Webhook.

(** * Properties of the job store: progress and status *)

Section JobProgress.
Import Schemas JobStore.

Lemma count_status_terminal l :
  count_status Completed l + count_status Failed l
  = Z.of_nat (length (List.filter terminal_item l)).
Proof.
  unfold count_status, terminal_item.
  induction l as [|a l IH]; simpl; [reflexivity|].
  destruct (item_status a); simpl in *; lia.
Qed.

Lemma filter_length_all {A} (p : A -> bool) l :
  (length (List.filter p l) <= length l)%nat /\
  (length (List.filter p l) = length l <-> forallb p l = true).
Proof.
  induction l as [|a l [IH1 IH2]]; simpl; [split; [lia | tauto]|].
  destruct (p a); simpl.
  - split; [lia|]. rewrite <- IH2. split; lia.
  - split; [lia|]. split; [lia | discriminate].
Qed.

Lemma counts_le l :
  count_status Completed l + count_status Failed l <= Z.of_nat (length l).
Proof.
  rewrite count_status_terminal.
  pose proof (proj1 (filter_length_all terminal_item l)). lia.
Qed.

Lemma counts_eq_iff l :
  count_status Completed l + count_status Failed l = Z.of_nat (length l)
  <-> forallb terminal_item l = true.
Proof.
  rewrite count_status_terminal, <- (proj2 (filter_length_all terminal_item l)).
  lia.
Qed.

Lemma count_status_nonneg s l : 0 <= count_status s l.
Proof. unfold count_status. lia. Qed.

Lemma forallb_lookup {A} (p : A -> bool) (l : list A) k a :
  forallb p l = true -> l !! k = Some a -> p a = true.
Proof.
  revert k. induction l as [|b l IH]; intros [|k]; simpl; try discriminate.
  - rewrite andb_true_iff. intros [H _] [= <-]. exact H.
  - rewrite andb_true_iff. intros [_ H]. now apply IH.
Qed.

Lemma forallb_insert {A} (p : A -> bool) (l : list A) k a :
  forallb p l = true -> p a = true -> forallb p (<[k := a]> l) = true.
Proof.
  revert k. induction l as [|b l IH]; intros [|k]; simpl; auto;
    rewrite !andb_true_iff; intros [H1 H2] Ha; split; auto.
Qed.

Lemma updateJobItem_Ok now jobId itemId update jobs jobs' :
  updateJobItem now jobId itemId update jobs = Ok jobs' ->
  exists job k item,
    getJob jobId jobs = Some job /\
    list_find (fun it => item_id it = itemId) (job_items job) = Some (k, item) /\
    jobs' = map_set jobId (step_job now job k item update) jobs.
Proof.
  unfold updateJobItem, getJob.
  destruct (map_get jobId jobs) as [job|]; [|discriminate].
  destruct (list_find _ _) as [[k item]|] eqn:Ef; [|discriminate].
  intros [= <-]. exists job, k, item. auto.
Qed.

Lemma apply_call_Ok now jobId c jobs jobs' :
  apply_call now jobId c jobs = Ok jobs' ->
  exists job k item,
    getJob jobId jobs = Some job /\
    list_find (fun it => item_id it = call_item c) (job_items job) = Some (k, item) /\
    jobs' = map_set jobId (step_job now job k item (call_update now c)) jobs.
Proof.
  destruct c; simpl; apply updateJobItem_Ok.
Qed.

Lemma updateJobProgress_spec now job :
  wf_job job ->
  let job' := updateJobProgress now job in
  job_items job' = job_items job /\
  job_id job' = job_id job /\
  total (progress job') = total (progress job) /\
  completed (progress job') = count_status Completed (job_items job) /\
  failed (progress job') = count_status Failed (job_items job) /\
  job_status job' =
    (if all_terminal job
     then if failed (progress job') =? 0 then Completed else Failed
     else if status_eqb (job_status job) Pending then Processing
          else job_status job).
Proof.
  intros Hwf job'. subst job'. unfold updateJobProgress, all_terminal.
  pose proof (counts_eq_iff (job_items job)) as Hiff.
  fold terminal_item.
  unfold terminal_item in *.
  rewrite <- Hwf in Hiff.
  destruct (_ + _ =? _) eqn:E.
  - apply Z.eqb_eq in E. apply Hiff in E. rewrite E. simpl. repeat split.
  - apply Z.eqb_neq in E.
    destruct (forallb _ _) eqn:Ef; [exfalso; apply E, Hiff; reflexivity|].
    destruct (status_eqb (job_status job) Pending); simpl; repeat split.
Qed.

Lemma step_job_spec now job k item update :
  wf_job job ->
  let job0 :=
    mkJob (job_id job) (job_status job)
      (<[k := merge_item item update]> (job_items job))
      (webhookUrl job) (createdAt job) (startedAt job)
      (completedAt job) (progress job) in
  let job1 := step_job now job k item update in
  wf_job job1 /\
  job_items job1 = job_items job0 /\
  completed (progress job1) = count_status Completed (job_items job0) /\
  failed (progress job1) = count_status Failed (job_items job0) /\
  job_status job1 =
    (if all_terminal job1
     then if failed (progress job1) =? 0 then Completed else Failed
     else if status_eqb (job_status job) Pending then Processing
          else job_status job).
Proof.
  intros Hwf job0 job1.
  assert (Hwf0 : wf_job job0).
  { unfold wf_job, job0; simpl. rewrite length_insert. exact Hwf. }
  destruct (updateJobProgress_spec now job0 Hwf0) as (Hi & _ & Ht & Hc & Hf & Hs).
  change (updateJobProgress now job0) with job1 in Hi, Ht, Hc, Hf, Hs.
  assert (Hat : all_terminal job1 = all_terminal job0).
  { unfold all_terminal. now rewrite Hi. }
  split; [unfold wf_job; rewrite Ht, Hi; exact Hwf0|].
  split; [exact Hi|]. split; [exact Hc|]. split; [exact Hf|].
  rewrite Hat. exact Hs.
Qed.

Lemma step_progress_ok now job k item update :
  wf_job job -> progress_ok (step_job now job k item update).
Proof.
  intros Hwf.
  destruct (step_job_spec now job k item update Hwf) as (Hwf1 & Hi & Hc & Hf & Hs).
  set (job1 := step_job now job k item update) in *.
  unfold progress_ok, pending.
  pose proof (counts_le (job_items job1)) as Hle.
  pose proof (count_status_nonneg Completed (job_items job1)).
  pose proof (count_status_nonneg Failed (job_items job1)).
  rewrite <- Hi in Hc, Hf. unfold wf_job in Hwf1.
  repeat split; try lia.
  intros Hat. rewrite Hat in Hs. exact Hs.
Qed.

Lemma step_status_exact now job k item c :
  wf_job job -> finished_means_terminal job ->
  list_find (fun it => item_id it = call_item c) (job_items job) = Some (k, item) ->
  restart_free c job = true ->
  status_exact (step_job now job k item (call_update now c)).
Proof.
  intros Hwf Hfin Hfind Hguard.
  destruct (step_job_spec now job k item (call_update now c) Hwf)
    as (Hwf1 & Hi & Hc & Hf & Hs).
  set (job1 := step_job now job k item (call_update now c)) in *.
  pose proof (count_status_nonneg Failed (job_items job1)) as Hnn.
  rewrite <- Hi in Hf. rewrite <- Hf in Hnn.
  destruct (all_terminal job1) eqn:Hat.
  - unfold status_exact. rewrite Hs.
    destruct (failed (progress job1) =? 0) eqn:E.
    + apply Z.eqb_eq in E. split; split; try (intros; split; auto; lia);
        try discriminate. intros [_ H]; lia.
    + apply Z.eqb_neq in E. split; split; try discriminate;
        try (intros; split; auto; lia). intros [_ H]. contradiction.
  - assert (Hnot : is_terminal (job_status job1) = false).
    { rewrite Hs.
      destruct (status_eqb (job_status job) Pending) eqn:Ep; [reflexivity|].
      destruct (is_terminal (job_status job)) eqn:Et; [|reflexivity].
      exfalso. specialize (Hfin Et). unfold all_terminal in Hfin.
      pose proof Hfind as Hfind'.
      apply list_find_Some in Hfind'. destruct Hfind' as (Hlook & _ & _).
      pose proof (forallb_lookup _ _ _ _ Hfin Hlook) as Hitem.
      assert (Hall : all_terminal job1 = true).
      { unfold all_terminal. rewrite Hi. simpl.
        apply forallb_insert; [exact Hfin|].
        destruct c; simpl; try reflexivity.
        simpl in Hguard, Hfind. rewrite Hfind in Hguard.
        simpl in Hitem. rewrite Hitem in Hguard. discriminate Hguard. }
      congruence. }
    unfold status_exact. split; split.
    + intros H. rewrite H in Hnot. discriminate Hnot.
    + intros [H _]. congruence.
    + intros H. rewrite H in Hnot. discriminate Hnot.
    + intros [H _]. congruence.
Qed.

Lemma getJob_set jobId job jobs : getJob jobId (map_set jobId job jobs) = Some job.
Proof. apply map_get_set. Qed.

Lemma run_calls_invariant (I F : Job -> Prop) (g : ItemCall -> Job -> bool)
    (jobId : string) :
  (forall now c job k item,
     I job ->
     list_find (fun it => item_id it = call_item c) (job_items job) = Some (k, item) ->
     g c job = true ->
     I (step_job now job k item (call_update now c)) /\
     F (step_job now job k item (call_update now c))) ->
  forall cs jobs job jobs',
    getJob jobId jobs = Some job -> I job -> (F job \/ cs <> []) ->
    run_calls jobId cs jobs = Ok jobs' ->
    guarded g jobId cs jobs = true ->
    exists job', getJob jobId jobs' = Some job' /\ I job' /\ F job'.
Proof.
  intros Hstep cs.
  induction cs as [|[now c] cs IH]; intros jobs job jobs' Hget HI HF Hrun Hg.
  - simpl in Hrun. injection Hrun as <-. exists job.
    destruct HF as [HF|HF]; [auto | contradiction].
  - simpl in Hrun, Hg.
    destruct (apply_call now jobId c jobs) as [jobs1|e] eqn:Ecall;
      [|discriminate Hrun].
    simpl in Hrun.
    destruct (apply_call_Ok _ _ _ _ _ Ecall) as (job0 & k & item & Hget0 & Hfind & ->).
    rewrite Hget in Hget0. injection Hget0 as <-.
    rewrite Hget in Hg. apply andb_true_iff in Hg. destruct Hg as [Hg1 Hg2].
    destruct (Hstep now c job k item HI Hfind Hg1) as [HI1 HF1].
    apply (IH (map_set jobId (step_job now job k item (call_update now c)) jobs)
              (step_job now job k item (call_update now c)) jobs');
      auto using getJob_set.
Qed.

Lemma guarded_always jobId cs jobs : guarded (fun _ _ => true) jobId cs jobs = true.
Proof.
  revert jobs. induction cs as [|[now c] cs IH]; intros jobs; simpl; [reflexivity|].
  destruct (getJob jobId jobs); destruct (apply_call now jobId c jobs); simpl; auto.
Qed.

Lemma status_exact_finished job : status_exact job -> finished_means_terminal job.
Proof.
  intros [[H1 _] [H2 _]] Ht.
  destruct (job_status job); try discriminate Ht.
  - now apply H1.
  - now apply H2.
Qed.

Lemma createJob_job now jobId requests webhook jobs :
  let job := fst (createJob now jobId requests webhook jobs) in
  getJob jobId (snd (createJob now jobId requests webhook jobs)) = Some job /\
  wf_job job /\ job_status job = Pending /\ job_id job = jobId /\
  job_items job = imap (new_item jobId) requests.
Proof.
  simpl. split; [apply getJob_set|].
  unfold wf_job; simpl. rewrite length_imap. auto.
Qed.

(** C2, as the code has it.  After any non-empty sequence of successful item
    transitions on a freshly created job, [completed + failed <= total],
    [completed + failed + pending = total] with all three counts
    non-negative, and a job whose items are all terminal has status
    [completed] when nothing failed and [failed] otherwise.  When moreover
    no [startJobItem] is applied to an item that is already completed or
    failed, the status is [completed] exactly when every item is terminal
    and [failed = 0], and [failed] exactly when every item is terminal and
    [failed > 0]. *)
Theorem job_progress_invariant (now0 : Z) (jobId : string)
    (requests : list S3RedactionRequest) (webhook : option string)
    (jobs0 : JobMap) (cs : list (Z * ItemCall)) (jobs' : JobMap) :
  cs <> [] ->
  run_calls jobId cs (snd (createJob now0 jobId requests webhook jobs0)) = Ok jobs' ->
  exists job,
    getJob jobId jobs' = Some job /\
    progress_ok job /\
    (no_restart jobId cs (snd (createJob now0 jobId requests webhook jobs0)) = true ->
     status_exact job).
Proof.
  intros Hne Hrun.
  destruct (createJob_job now0 jobId requests webhook jobs0)
    as (Hget & Hwf & Hst & _ & _).
  set (jobs1 := snd (createJob now0 jobId requests webhook jobs0)) in *.
  set (job1 := fst (createJob now0 jobId requests webhook jobs0)) in *.
  destruct (run_calls_invariant wf_job progress_ok (fun _ _ => true) jobId)
    with (cs := cs) (jobs := jobs1) (job := job1) (jobs' := jobs')
    as (job & Hjob & _ & Hprog); auto using guarded_always.
  { intros now c j k item Hj _ _. split.
    - apply (step_job_spec now j k item (call_update now c) Hj).
    - now apply step_progress_ok. }
  exists job. split; [exact Hjob|]. split; [exact Hprog|].
  intros Hguard.
  destruct (run_calls_invariant
              (fun j => wf_job j /\ finished_means_terminal j) status_exact
              restart_free jobId)
    with (cs := cs) (jobs := jobs1) (job := job1) (jobs' := jobs')
    as (job' & Hjob' & _ & Hexact); auto.
  { intros now c j k item [Hj Hfin] Hfind Hg.
    pose proof (step_status_exact now j k item c Hj Hfin Hfind Hg) as Hex.
    split; [split|]; auto using status_exact_finished.
    apply (step_job_spec now j k item (call_update now c) Hj). }
  { split; [exact Hwf|]. intros Ht. rewrite Hst in Ht. discriminate Ht. }
  congruence.
Qed.

End JobProgress.

(** * Properties of the batch orchestrator *)

Section BatchOrchestrator.
Import Schemas JobStore Service.

Variable S3W : Type.
Variable send : Command -> S3W -> result Output * S3W.
Variable redactImage :
  Pipeline.Buffer -> list Region -> RedactionOptions -> result ProcessedImage.
Variable number_toString : Q -> string.
Variable WEBHOOK_URL : option string.

Lemma normalizeError_message (e : JsError) :
  err_message (normalizeError e) = err_message e.
Proof.
  unfold normalizeError.
  repeat match goal with
         | |- context [if ?b then _ else _] => destruct b
         end; reflexivity.
Qed.

Lemma updateJobProgress_items now job :
  job_items (updateJobProgress now job) = job_items job.
Proof.
  unfold updateJobProgress.
  repeat match goal with
         | |- context [if ?b then _ else _] => destruct b
         end; reflexivity.
Qed.

Lemma step_job_items now job k item update :
  job_items (step_job now job k item update)
  = <[k := merge_item item update]> (job_items job).
Proof. unfold step_job. now rewrite updateJobProgress_items. Qed.

Lemma updateJobItem_found now jobId itemId update jobs job k item :
  getJob jobId jobs = Some job ->
  list_find (fun it => item_id it = itemId) (job_items job) = Some (k, item) ->
  updateJobItem now jobId itemId update jobs
  = Ok (map_set jobId (step_job now job k item update) jobs).
Proof.
  unfold updateJobItem, getJob. intros -> ->. reflexivity.
Qed.

Lemma item_id_inj jobId (j k : nat) :
  jobId +:+ "-" +:+ pretty j = jobId +:+ "-" +:+ pretty k -> j = k.
Proof.
  intros H. apply String.app_inj in H. apply String.app_inj in H.
  now apply pretty_nat_inj in H.
Qed.

Lemma ids_ok_find jobId l k item :
  ids_ok jobId l -> l !! k = Some item ->
  list_find (fun it => item_id it = jobId +:+ "-" +:+ pretty k) l = Some (k, item).
Proof.
  intros Hids Hk. apply list_find_Some.
  split; [exact Hk|]. split; [now apply Hids|].
  intros j y Hj Hlt Heq. rewrite (Hids _ _ Hj) in Heq.
  apply item_id_inj in Heq. lia.
Qed.

Lemma ids_ok_insert jobId l k item item' :
  ids_ok jobId l -> l !! k = Some item -> item_id item' = item_id item ->
  ids_ok jobId (<[k := item']> l).
Proof.
  intros Hids Hk Hid j y Hj.
  destruct (decide (j = k)) as [->|Hne].
  - rewrite list_lookup_insert_eq in Hj by (eapply lookup_lt_Some; eauto).
    injection Hj as <-. rewrite Hid. now apply Hids.
  - rewrite list_lookup_insert_ne in Hj by auto. now apply Hids.
Qed.

Lemma ids_ok_new jobId requests : ids_ok jobId (imap (new_item jobId) requests).
Proof.
  intros k item Hk. rewrite list_lookup_imap in Hk.
  destruct (requests !! k); simpl in Hk; [|discriminate].
  injection Hk as <-. reflexivity.
Qed.

Lemma find_insert_same {A} (P : A -> Prop) `{!forall a, Decision (P a)}
    (l : list A) k a b :
  list_find P l = Some (k, a) -> P b ->
  list_find P (<[k := b]> l) = Some (k, b).
Proof.
  intros Hf Hb. apply list_find_Some in Hf. destruct Hf as (Hk & _ & Hlt).
  apply list_find_Some. split.
  - apply list_lookup_insert_eq. eapply lookup_lt_Some; eauto.
  - split; [exact Hb|]. intros j y Hj Hjk.
    rewrite list_lookup_insert_ne in Hj by lia. eauto.
Qed.

Lemma client_send_frame cmd (w : World S3W) :
  jobs (snd (client_send send cmd w)) = jobs w /\
  clock (snd (client_send send cmd w)) = clock w /\
  sink (snd (client_send send cmd w)) = sink w.
Proof. unfold client_send. destruct (send cmd (s3 w)); simpl; auto. Qed.

Lemma item_io_frame jobId item (w : World S3W) :
  jobs (snd (item_io send redactImage number_toString jobId item w)) = jobs w /\
  clock (snd (item_io send redactImage number_toString jobId item w)) = clock w /\
  sink (snd (item_io send redactImage number_toString jobId item w)) = sink w.
Proof.
  unfold item_io, getObject, putObject, try_catch, bindM, lift, ret, throw.
  destruct (client_send_frame
              (GetObjectCommand (bucket (input (item_request item)))
                 (key (input (item_request item)))) w) as (J1 & C1 & S1).
  destruct (client_send send _ w) as [[[[buf|]|]|e] w1]; simpl in *;
    repeat match goal with
           | |- context [if ?b then _ else _] => destruct b; simpl
           end; auto.
  destruct (redactImage _ _ _) as [processed|e]; simpl; auto.
  match goal with
  | |- context [client_send send ?c w1] =>
      destruct (client_send_frame c w1) as (J2 & C2 & S2);
      destruct (client_send send c w1) as [[o|e] w2]; simpl in *
  end;
    repeat match goal with
           | |- context [if ?b then _ else _] => destruct b; simpl
           end; repeat split; congruence.
Qed.

Lemma bind3_assoc {A P U B} (m1 : M S3W A) (m2 : A -> M S3W P)
    (m3 : P -> M S3W U) (K : P -> M S3W B) (io : M S3W P) (w : World S3W) :
  (forall w, io w
             = bindM m1 (fun a => bindM (m2 a)
                 (fun p => bindM (m3 p) (fun _ => ret p))) w) ->
  bindM m1 (fun a => bindM (m2 a) (fun p => bindM (m3 p) (fun _ => K p))) w
  = match io w with
    | (Ok p, w') => K p w'
    | (Throw e, w') => (Throw e, w')
    end.
Proof.
  intros ->. unfold bindM, ret.
  destruct (m1 w) as [[a|e] wa]; [|reflexivity].
  destruct (m2 a wa) as [[p|e] wb]; [|reflexivity].
  destruct (m3 p wb) as [[u|e] wc]; reflexivity.
Qed.

Lemma processItem_run jobId item (w : World S3W) job k item_k :
  getJob jobId (jobs w) = Some job ->
  list_find (fun it => item_id it = item_id item) (job_items job) = Some (k, item_k) ->
  let now := clock w in
  let job1 := step_job now job k item_k (start_update now) in
  let w1 := started_world jobId job k item_k w in
  let r := fst (item_io send redactImage number_toString jobId item w1) in
  let w2 := snd (item_io send redactImage number_toString jobId item w1) in
  let job2 :=
    step_job now job1 k (merge_item item_k (start_update now))
      (settle_update now (item_request item) r) in
  processItem send redactImage number_toString jobId item w
  = (Ok tt, mkWorld (map_set jobId job2 (jobs w2)) (s3 w2) (sink w2) (clock w2)
              (trace w2)).
Proof.
  intros Hget Hfind now job1 w1 r w2 job2.
  assert (Hstart : on_store (fun now => startJobItem now jobId (item_id item)) w
                   = (Ok tt, w1)).
  { unfold on_store, startJobItem.
    rewrite (updateJobItem_found _ _ _ _ _ _ _ _ Hget Hfind). reflexivity. }
  destruct (item_io_frame jobId item w1) as (Hj & Hc & _).
  fold w2 in Hj, Hc.
  assert (Hnow : clock w2 = now) by (rewrite Hc; reflexivity).
  assert (Hget1 : getJob jobId (jobs w2) = Some job1).
  { rewrite Hj. unfold w1, started_world; simpl. apply getJob_set. }
  assert (Hfind1 : list_find (fun it => item_id it = item_id item) (job_items job1)
                   = Some (k, merge_item item_k (start_update now))).
  { unfold job1. rewrite step_job_items.
    apply find_insert_same with (a := item_k); [exact Hfind|].
    apply list_find_Some in Hfind. simpl. tauto. }
  assert (Hsettle : forall upd : Z -> ItemUpdate,
             on_store (fun now jobs =>
                         updateJobItem now jobId (item_id item) (upd now) jobs) w2
             = (Ok tt, mkWorld
                         (map_set jobId
                            (step_job now job1 k
                               (merge_item item_k (start_update now)) (upd now))
                            (jobs w2))
                         (s3 w2) (sink w2) (clock w2) (trace w2))).
  { intros upd. unfold on_store. rewrite Hnow.
    rewrite (updateJobItem_found _ _ _ _ _ _ _ _ Hget1 Hfind1). reflexivity. }
  unfold processItem, try_catch. unfold bindM at 1. rewrite Hstart.
  rewrite (bind3_assoc _ _ _ _ (item_io send redactImage number_toString jobId item)) by reflexivity.
  subst job2 r. unfold w2 in *. clear w2.
  destruct (item_io send redactImage number_toString jobId item w1) as [[processed|e] w2]; simpl in *.
  - unfold completeJobItem.
    pose proof (Hsettle (fun now =>
               mkUpdate None None (Some Completed)
                 (Some (mkResponse true (Some (output (item_request item)))
                          (pi_processingTimeMs processed)
                          (Some (pi_etag processed))))
                 None None (Some now))) as H.
    cbv beta in H. rewrite H. reflexivity.
  - unfold failJobItem.
    pose proof (Hsettle (fun now =>
               mkUpdate None None (Some Failed) None
                 (Some (err_message (normalizeError e))) None (Some now))) as H.
    cbv beta in H. rewrite H.
    rewrite normalizeError_message. reflexivity.
Qed.

Lemma settle_update_id item0 now request r :
  item_id (merge_item item0 (settle_update now request r)) = item_id item0.
Proof. destruct r; reflexivity. Qed.

Lemma item_settled_merge item0 now request r :
  item_settled (merge_item item0 (settle_update now request r)) request r.
Proof. destruct r; simpl; auto. Qed.

Lemma item_settled_terminal item' request r :
  item_settled item' request r -> is_terminal (item_status item') = true.
Proof. destruct r; intros [-> _]; reflexivity. Qed.

Lemma forEach_processItem jobId (snapshot : list JobItem) :
  forall (done : nat) (w : World S3W) (job : Job),
    getJob jobId (jobs w) = Some job ->
    wf_job job ->
    ids_ok jobId (job_items job) ->
    (forall i item, snapshot !! i = Some item ->
       exists cur, job_items job !! (done + i)%nat = Some cur /\
                   item_id cur = item_id item) ->
    exists w' job',
      forEach snapshot (processItem send redactImage number_toString jobId) w
      = (Ok tt, w') /\
      getJob jobId (jobs w') = Some job' /\
      wf_job job' /\
      length (job_items job') = length (job_items job) /\
      sink w' = sink w /\
      (forall j, (j < done)%nat -> job_items job' !! j = job_items job !! j) /\
      (snapshot <> [] \/ progress_ok job -> progress_ok job') /\
      (forall i item wi,
         snapshot !! i = Some item ->
         worlds_before send redactImage number_toString jobId snapshot w !! i = Some wi ->
         exists item',
           job_items job' !! (done + i)%nat = Some item' /\
           item_id item' = item_id item /\
           item_settled item' (item_request item) (item_outcome send redactImage number_toString jobId item wi)).
Proof.
  induction snapshot as [|item rest IH]; intros done w job Hget Hwf Hids Hrem.
  - exists w, job. simpl.
    split; [reflexivity|]. split; [exact Hget|]. split; [exact Hwf|].
    split; [reflexivity|]. split; [reflexivity|]. split; [auto|].
    split; [intros [Hx|Hx]; [contradiction | exact Hx]|].
    intros i item wi Hi. discriminate Hi.
  - destruct (Hrem 0%nat item eq_refl) as (cur & Hcur & Hid).
    rewrite Nat.add_0_r in Hcur.
    assert (Hfind : list_find (fun it => item_id it = item_id item) (job_items job)
                    = Some (done, cur)).
    { rewrite <- Hid, (Hids _ _ Hcur). now apply ids_ok_find. }
    pose proof (processItem_run jobId item w job done cur Hget Hfind) as Hrun.
    cbv zeta in Hrun.
    set (now := clock w) in *.
    set (job1 := step_job now job done cur (start_update now)) in *.
    set (w1 := started_world jobId job done cur w) in *.
    set (r := fst (item_io send redactImage number_toString jobId item w1)) in *.
    set (w2 := snd (item_io send redactImage number_toString jobId item w1)) in *.
    set (item1 := merge_item cur (start_update now)) in *.
    set (job2 := step_job now job1 done item1
                   (settle_update now (item_request item) r)) in *.
    set (item2 := merge_item item1 (settle_update now (item_request item) r)).
    assert (Hwf1 : wf_job job1) by (apply step_job_spec; exact Hwf).
    assert (Hwf2 : wf_job job2) by (apply step_job_spec; exact Hwf1).
    assert (Hitems2 : job_items job2 = <[done := item2]> (job_items job)).
    { unfold job2, job1. rewrite !step_job_items.
      now rewrite list_insert_insert_eq. }
    assert (Hdone : (done < length (job_items job))%nat)
      by (eapply lookup_lt_Some; eauto).
    assert (Hout : item_outcome send redactImage number_toString jobId item w = r).
    { unfold item_outcome, on_store, startJobItem.
      rewrite (updateJobItem_found _ _ _ _ _ _ _ _ Hget Hfind). reflexivity. }
    destruct (IH (S done)
                (mkWorld (map_set jobId job2 (jobs w2)) (s3 w2) (sink w2)
                   (clock w2) (trace w2)) job2)
      as (w' & job' & Hfor & Hget' & Hwf' & Hlen' & Hsink' & Hkeep & Hprog & Hset).
    { simpl. apply getJob_set. }
    { exact Hwf2. }
    { rewrite Hitems2. eapply ids_ok_insert; [exact Hids | exact Hcur |].
      unfold item2. rewrite settle_update_id. reflexivity. }
    { intros i it Hi. destruct (Hrem (S i) it Hi) as (c & Hc & Hcid).
      exists c. split; [|exact Hcid].
      rewrite Hitems2, list_lookup_insert_ne by lia.
      rewrite <- Hc. f_equal. lia. }
    assert (Hfor0 :
              forEach (item :: rest)
                (processItem send redactImage number_toString jobId) w
              = forEach rest
                  (processItem send redactImage number_toString jobId)
                  (mkWorld (map_set jobId job2 (jobs w2)) (s3 w2) (sink w2)
                     (clock w2) (trace w2))).
    { cbn [forEach]. unfold bindM at 1. rewrite Hrun. reflexivity. }
    exists w', job'. rewrite Hfor0.
    split; [exact Hfor|]. split; [exact Hget'|]. split; [exact Hwf'|].
    split; [rewrite Hlen', Hitems2; apply length_insert|].
    split.
    { rewrite Hsink'. simpl. apply (item_io_frame jobId item w1). }
    split.
    { intros j Hj. rewrite Hkeep by lia.
      rewrite Hitems2. apply list_lookup_insert_ne. lia. }
    split.
    { intros _. apply Hprog. right. now apply step_progress_ok. }
    change (worlds_before send redactImage number_toString jobId (item :: rest) w)
      with (w :: worlds_before send redactImage number_toString jobId rest
                   (snd (processItem send redactImage number_toString jobId item w))).
    rewrite Hrun.
    intros [|i] it wi Hi Hwi; cbn [lookup list_lookup snd] in Hi, Hwi.
    + injection Hi as <-. injection Hwi as <-.
      exists item2. rewrite Nat.add_0_r, Hkeep by lia.
      rewrite Hitems2, list_lookup_insert_eq by exact Hdone.
      split; [reflexivity|].
      split; [unfold item2; rewrite settle_update_id; exact Hid|].
      rewrite Hout. apply item_settled_merge.
    + destruct (Hset i it wi Hi Hwi) as (item' & Hi' & Hid' & Hst').
      exists item'. split; [|auto].
      rewrite <- Hi'. f_equal. lia.
Qed.

Lemma worlds_before_length jobId items (w : World S3W) :
  length (worlds_before send redactImage number_toString jobId items w) = length items.
Proof.
  revert w. induction items as [|item rest IH]; intros w; [reflexivity|].
  cbn [worlds_before length]. now rewrite IH.
Qed.

Lemma forallb_from_lookup {A} (p : A -> bool) (l : list A) :
  (forall j a, l !! j = Some a -> p a = true) -> forallb p l = true.
Proof.
  induction l as [|b l IH]; intros H; simpl; [reflexivity|].
  rewrite (H 0%nat b eq_refl). simpl. apply IH.
  intros j a Hj. apply (H (S j) a Hj).
Qed.

(** Run on a freshly created job, the batch loop never throws and visits
    every item.  Each item is left completed with its response when its
    download, redaction and upload all succeed, and failed with the message
    of the exception as soon as one of them throws; in both cases the loop
    goes on with the next item.  At the end every item is terminal and the
    job is [completed] when no item failed and [failed] otherwise. *)
Lemma processBatchJob_loop_spec (now0 : Z) (jobId : string)
    (requests : list S3RedactionRequest) (webhook : option string)
    (jobs0 : JobMap) (w : World S3W) :
  jobs w = snd (createJob now0 jobId requests webhook jobs0) ->
  let job0 := fst (createJob now0 jobId requests webhook jobs0) in
  let out := processBatchJob send redactImage number_toString WEBHOOK_URL jobId w in
  fst out = Ok tt /\
  exists job',
    getJob jobId (jobs (snd out)) = Some job' /\
    length (job_items job') = length requests /\
    all_terminal job' = true /\
    (requests <> [] ->
     progress_ok job' /\
     job_status job' = if failed (progress job') =? 0 then Completed else Failed) /\
    (forall i item wi,
       job_items job0 !! i = Some item ->
       worlds_before send redactImage number_toString jobId (job_items job0) w !! i = Some wi ->
       exists item',
         job_items job' !! i = Some item' /\
         item_id item' = item_id item /\
         item_settled item' (item_request item) (item_outcome send redactImage number_toString jobId item wi)).
Proof.
  intros Hjobs job0 out.
  destruct (createJob_job now0 jobId requests webhook jobs0)
    as (Hget & Hwf & _ & _ & Hitems).
  fold job0 in Hget, Hwf, Hitems. rewrite <- Hjobs in Hget.
  destruct (forEach_processItem jobId (job_items job0) 0 w job0 Hget Hwf)
    as (w' & job' & Hfor & Hget' & Hwf' & Hlen & _ & _ & Hprog & Hset).
  { rewrite Hitems. apply ids_ok_new. }
  { intros i item Hi. exists item. auto. }
  assert (Hlen0 : length (job_items job0) = length requests).
  { rewrite Hitems. apply length_imap. }
  assert (Hall : all_terminal job' = true).
  { unfold all_terminal. apply forallb_from_lookup. intros j a Hj.
    assert (Hlt : (j < length (job_items job0))%nat).
    { rewrite <- Hlen. eapply lookup_lt_Some; eauto. }
    destruct (lookup_lt_is_Some_2 (job_items job0) j Hlt) as [item Hitem].
    destruct (lookup_lt_is_Some_2 (worlds_before send redactImage number_toString jobId (job_items job0) w) j)
      as [wi Hwi]; [now rewrite worlds_before_length|].
    destruct (Hset j item wi Hitem Hwi) as (item' & Hi' & _ & Hst).
    simpl in Hi'. rewrite Hj in Hi'. injection Hi' as <-.
    eapply item_settled_terminal; eauto. }
  assert (Hout : fst out = Ok tt /\ jobs (snd out) = jobs w').
  { subst out. unfold processBatchJob, bindM, read_store. rewrite Hget.
    rewrite Hfor.
    destruct (truthy (webhookUrl job0) || truthy WEBHOOK_URL); [|split; reflexivity].
    match goal with
    | |- context [sendWebhook jobId ?u 0 w'] =>
        destruct (sendWebhook_trace S3W jobId u w') as (H1 & H2 & _)
    end.
    split; assumption. }
  destruct Hout as [Hok Hsame].
  split; [exact Hok|].
  exists job'. rewrite Hsame.
  split; [exact Hget'|]. split; [congruence|]. split; [exact Hall|].
  split.
  - intros Hne.
    assert (Hp : progress_ok job').
    { apply Hprog. left. rewrite Hitems. destruct requests; [contradiction|discriminate]. }
    split; [exact Hp|]. now apply Hp.
  - exact Hset.
Qed.

End BatchOrchestrator.

(** * The job store on a job of one item *)

Section SingleJob.
Import Schemas JobStore Service Scenario.

(** The invariant at work: a job of one item, started and then completed. *)
Lemma job_progress_invariant_witness :
  exists job,
    getJob "job" (store_after start_then_complete) = Some job /\
    progress_ok job /\ status_exact job /\ job_status job = Completed.
Proof.
  destruct (job_progress_invariant 0 "job" [request_for "a"] None []
              start_then_complete (store_after start_then_complete))
    as (job & Hget & Hprog & Hexact).
  - discriminate.
  - vm_compute. reflexivity.
  - exists job. split; [exact Hget|]. split; [exact Hprog|].
    assert (Hex : status_exact job) by (apply Hexact; vm_compute; reflexivity).
    split; [exact Hex|].
    apply Hex. vm_compute in Hget. injection Hget as <-.
    split; reflexivity.
Defined.

(** C2 as stated fails: the store accepts [startJobItem] on a completed
    item.  After [completeJobItem] and then [startJobItem] on the only item
    of a job, both calls succeeding, the job status is still [completed]
    while the item is [processing]. *)
Lemma job_status_completed_with_item_processing :
  exists jobs job,
    run_calls "job" complete_then_start single_job_store = Ok jobs /\
    getJob "job" jobs = Some job /\
    job_status job = Completed /\
    map item_status (job_items job) = [Processing] /\
    ~ (job_status job = Completed <->
       all_terminal job = true /\ failed (progress job) = 0).
Proof.
  eexists. eexists.
  split; [vm_compute; reflexivity|].
  split; [vm_compute; reflexivity|].
  split; [reflexivity|]. split; [reflexivity|].
  intros [H _]. destruct (H eq_refl) as [Hall _]. discriminate Hall.
Qed.

End SingleJob.

(** * The batch and webhook scenarios *)

Section BatchScenarios.
Import Schemas JobStore Service Scenario.

(** C4: for every storage, pipeline and job, the batch loop run on a freshly
    created job never throws and visits every item; each item is left
    completed with its response when its download, redaction and upload all
    succeed, and failed with the message of the exception as soon as one of
    them throws, and the loop goes on with the next item; at the end every
    item is terminal and the job is [completed] when no item failed and
    [failed] otherwise.  In the scenario of three items whose second source
    key is missing, the job ends [failed] with progress 3 / 2 / 1, items 1
    and 3 completed and written, and item 2 failed with the object-not-found
    message. *)
Theorem processBatchJob_partial_failure :
  (forall (S3W : Type) (send : Command -> S3W -> result Output * S3W)
          (redactImage : Pipeline.Buffer -> list Region -> RedactionOptions ->
                         result ProcessedImage)
          (number_toString : Q -> string) (WEBHOOK_URL : option string)
          (now0 : Z) (jobId : string) (requests : list S3RedactionRequest)
          (webhook : option string) (jobs0 : JobMap) (w : World S3W),
     jobs w = snd (createJob now0 jobId requests webhook jobs0) ->
     let job0 := fst (createJob now0 jobId requests webhook jobs0) in
     let out :=
       processBatchJob send redactImage number_toString WEBHOOK_URL jobId w in
     fst out = Ok tt /\
     exists job',
       getJob jobId (jobs (snd out)) = Some job' /\
       length (job_items job') = length requests /\
       all_terminal job' = true /\
       (requests <> [] ->
        progress_ok job' /\
        job_status job'
        = if failed (progress job') =? 0 then Completed else Failed) /\
       (forall i item wi,
          job_items job0 !! i = Some item ->
          worlds_before send redactImage number_toString jobId
            (job_items job0) w !! i = Some wi ->
          exists item',
            job_items job' !! i = Some item' /\
            item_id item' = item_id item /\
            item_settled item' (item_request item)
              (item_outcome send redactImage number_toString jobId item wi))) /\
  (fst scenario_run = Ok tt /\
   exists job,
     getJob "job" (jobs (snd scenario_run)) = Some job /\
     job_status job = Failed /\
     progress job = mkProgress 3 2 1 /\
     map item_status (job_items job) = [Completed; Failed; Completed] /\
     map item_error (job_items job)
     = [None; Some "Object not found: s3://in/b.png"; None] /\
     map item_result (job_items job)
     = [Some (response_for "a"); None; Some (response_for "c")] /\
     map (fun k => bool_decide (is_Some (MemoryS3.objects (s3 (snd scenario_run)) !! k)))
       [("out", "a.webp"); ("out", "b.webp"); ("out", "c.webp")]
     = [true; false; true]).
Proof.
  split.
  - intros. now apply processBatchJob_loop_spec.
  - split; [vm_compute; reflexivity|].
    eexists. split; [vm_compute; reflexivity|].
    vm_compute. repeat split.
Qed.

(** C3, as the code has it: for every world, a delivery started by
    [sendWebhook] returns normally whatever the sink answers, makes at most
    three POSTs, and waits 1000 ms after the first failed POST and 5000 ms
    after the second, the first two entries of the delay table; with the
    job in the store the events are the prefix of POST, 1000 ms, POST,
    5000 ms, POST that ends with the first successful POST.  In the
    scenario, where the sink answers 500, 500, 200, the delivery after the
    batch makes exactly three POSTs, 1000 ms and then 5000 ms apart. *)
Theorem sendWebhook_at_most_three_attempts :
  (forall (S3W : Type) (jobId url : string) (w : World S3W),
     let out := sendWebhook jobId url 0 w in
     exists new,
       fst out = Ok tt /\
       trace (snd out) = trace w ++ new /\
       (length (List.filter is_post new) <= 3)%nat /\
       omap sleep_of new
       = firstn (length (List.filter is_post new) - 1) [1000; 5000] /\
       omap sleep_of new
       = firstn (length (List.filter is_post new) - 1) retryDelays /\
       (forall job, getJob jobId (jobs w) = Some job ->
          new = firstn (2 * attempts_made (sink w) - 1) (delivery_pattern job url)) /\
       (forall job t1 t2 t3 rest, getJob jobId (jobs w) = Some job ->
          sink w = Response 500 t1 :: Response 500 t2 :: Response 200 t3 :: rest ->
          new = delivery_pattern job url)) /\
  (fst scenario_run = Ok tt /\
   List.filter (fun e => match e with EvSend _ => false | _ => true end)
     (trace (snd scenario_run))
   = [EvPost hook_url (scenario_payload 1); EvSleep 1000;
      EvPost hook_url (scenario_payload 2); EvSleep 5000;
      EvPost hook_url (scenario_payload 3)] /\
   clock (snd scenario_run) = clock scenario_world + 1000 + 5000).
Proof.
  split.
  - intros. apply sendWebhook_retry_spec.
  - vm_compute. repeat split.
Qed.

(** C3 as stated fails on the third delay: when all three attempts fail
    there are two waits, of 1000 ms and 5000 ms, and the delivery gives up
    right after the third POST; the 10000 ms entry of the table is never
    waited for, in this run or in any other. *)
Lemma sendWebhook_no_third_delay :
  let out := sendWebhook "job" hook_url 0 failing_sink_world in
  fst out = Ok tt /\
  trace (snd out)
  = [EvPost hook_url (failing_sink_payload 1); EvSleep 1000;
     EvPost hook_url (failing_sink_payload 2); EvSleep 5000;
     EvPost hook_url (failing_sink_payload 3)] /\
  clock (snd out) = 6000 /\
  omap sleep_of (trace (snd out)) <> retryDelays /\
  ~ (exists (w : World MemoryS3.Store) (jobId url : string) (new : list Event),
       trace (snd (sendWebhook jobId url 0 w)) = trace w ++ new /\
       In (EvSleep 10000) new).
Proof.
  split; [vm_compute; reflexivity|].
  split; [vm_compute; reflexivity|].
  split; [vm_compute; reflexivity|].
  split; [vm_compute; discriminate|].
  intros (w & jobId & url & new & Hnew & Hin).
  exact (sendWebhook_third_delay_unused _ jobId url w new Hnew Hin).
Qed.

End BatchScenarios.

(** * Properties of the eviction policy *)

Section Eviction.
Import Schemas JobStore Scenario.

(** C6, evaluated on the code: a store that holds 1000 jobs, none older than
    one second, holds 1001 jobs right after the next [createJob]. *)
Theorem createJob_exceeds_MAX_JOBS :
  let jobs := fill_store 1000 in
  let jobs' := snd (createJob 1000 "new" [request_for "a"] None jobs) in
  getJobCount jobs = 1000 /\
  forallb (fun e => negb (expired 1000 (snd e))) jobs = true /\
  getJobCount jobs' = 1001 /\
  MAX_JOBS < getJobCount jobs'.
Proof. vm_compute. repeat split. Qed.

Lemma fold_delete_filter ids jobs :
  fold_left (fun m jobId => map_delete jobId m) ids jobs
  = List.filter (fun e => negb (doomed ids e)) jobs.
Proof.
  revert jobs. induction ids as [|id ids IH]; intros jobs; simpl.
  - unfold doomed; simpl. induction jobs as [|e jobs IHj]; simpl; congruence.
  - rewrite IH. unfold map_delete, doomed. simpl.
    induction jobs as [|e jobs IHj]; simpl; [reflexivity|].
    destruct (String.eqb (fst e) id); simpl; [exact IHj|].
    destruct (existsb _ ids); simpl; congruence.
Qed.

Lemma filter_length_mono {A} (p q : A -> bool) l :
  (forall a, In a l -> p a = true -> q a = true) ->
  (length (List.filter p l) <= length (List.filter q l))%nat.
Proof.
  induction l as [|a l IH]; intros H; simpl; [lia|].
  assert (IH' := IH (fun b Hb => H b (or_intror Hb))).
  pose proof (H a (or_introl eq_refl)) as Ha.
  destruct (p a), (q a); simpl; first [lia | discriminate (Ha eq_refl)].
Qed.

Lemma filter_length_split {A} (p : A -> bool) l :
  (length (List.filter p l) + length (List.filter (fun a => negb (p a)) l)
   = length l)%nat.
Proof. induction l as [|a l IH]; simpl; [lia|]. destruct (p a); simpl; lia. Qed.

Lemma doomed_old now jobs e :
  In e jobs -> expired now (snd e) = true -> doomed (jobsToDelete now jobs) e = true.
Proof.
  intros Hin Hex. unfold doomed. apply existsb_exists. exists (fst e).
  split; [|apply String.eqb_refl].
  assert (Hold : In (fst e) (map fst (List.filter (fun e => expired now (snd e)) jobs))).
  { apply in_map, filter_In. auto. }
  unfold jobsToDelete. destruct (_ >? _); [apply in_or_app; left|]; exact Hold.
Qed.

(** After the clean-up no remaining job is older than the time to live. *)
Lemma cleanupOldJobs_no_expired now jobs e :
  In e (cleanupOldJobs now jobs) -> now - createdAt (snd e) <= JOB_TTL_MS.
Proof.
  unfold cleanupOldJobs. rewrite fold_delete_filter.
  intros Hin. apply filter_In in Hin. destruct Hin as [Hin Hnd].
  destruct (expired now (snd e)) eqn:Hex.
  - rewrite (doomed_old now jobs e Hin Hex) in Hnd. discriminate Hnd.
  - unfold expired in Hex. lia.
Qed.

Lemma map_set_In k v m e :
  In e (map_set k v m) -> e = (k, v) \/ In e m.
Proof.
  induction m as [|[k' v'] m IH]; simpl.
  - intros [<-|[]]. auto.
  - destruct (String.eqb k' k); simpl; intros [<-|H]; auto.
    destruct (IH H); auto.
Qed.

Lemma map_set_length k v m : (length (map_set k v m) <= S (length m))%nat.
Proof.
  induction m as [|[k' v'] m IH]; simpl; [lia|].
  destruct (String.eqb k' k); simpl; lia.
Qed.

(** X25: right after [createJob] no job in the store was created more than
    24 hours earlier. *)
Lemma createJob_no_expired now jobId requests webhook jobs e :
  In e (snd (createJob now jobId requests webhook jobs)) ->
  now - createdAt (snd e) <= JOB_TTL_MS.
Proof.
  simpl. intros Hin. apply map_set_In in Hin. destruct Hin as [->|Hin].
  - simpl. unfold JOB_TTL_MS. lia.
  - eapply cleanupOldJobs_no_expired; eauto.
Qed.

Lemma insert_by_createdAt_In e l x :
  In x (insert_by_createdAt e l) <-> x = e \/ In x l.
Proof.
  induction l as [|e' l IH]; simpl; [intuition|].
  destruct (_ <=? _); simpl; rewrite ?IH; intuition.
Qed.

Lemma sort_by_createdAt_In l x : In x (sort_by_createdAt l) <-> In x l.
Proof.
  unfold sort_by_createdAt. induction l as [|e l IH]; simpl; [tauto|].
  rewrite insert_by_createdAt_In, IH. intuition.
Qed.

Lemma sort_by_createdAt_length l : length (sort_by_createdAt l) = length l.
Proof.
  unfold sort_by_createdAt. induction l as [|e l IH]; simpl; [reflexivity|].
  rewrite <- IH. generalize (fold_right insert_by_createdAt [] l). intros s.
  induction s as [|e' s IHs]; simpl; [reflexivity|].
  destruct (_ <=? _); simpl; congruence.
Qed.

(** The clean-up leaves at most [MAX_JOBS] jobs in a store that held at most
    [MAX_JOBS + 1]. *)
Lemma cleanupOldJobs_size now jobs :
  map_size jobs <= MAX_JOBS + 1 -> map_size (cleanupOldJobs now jobs) <= MAX_JOBS.
Proof.
  unfold cleanupOldJobs, map_size. rewrite fold_delete_filter. intros Hsize.
  set (old := List.filter (fun e => expired now (snd e)) jobs).
  pose proof (filter_length_split (fun e => expired now (snd e)) jobs) as Hsplit.
  fold old in Hsplit.
  pose proof (filter_length_mono (fun e => negb (doomed (jobsToDelete now jobs) e))
                (fun e => negb (expired now (snd e))) jobs) as Hmono.
  destruct (Z.of_nat (length jobs) - Z.of_nat (length old) >? MAX_JOBS) eqn:Hover.
  - (* the store holds MAX_JOBS + 1 jobs and none has expired *)
    assert (Hlen : length jobs = 1001%nat /\ length old = 0%nat).
    { unfold MAX_JOBS in *. lia. }
    destruct Hlen as [Hlen Hold].
    destruct (sort_by_createdAt jobs) as [|e0 rest] eqn:Hsort.
    { pose proof (sort_by_createdAt_length jobs) as Hl. rewrite Hsort in Hl.
      simpl in Hl. lia. }
    assert (Hin0 : In e0 jobs).
    { apply sort_by_createdAt_In. rewrite Hsort. now left. }
    assert (Hdel : jobsToDelete now jobs = map fst old ++ [fst e0]).
    { unfold jobsToDelete, map_size. rewrite length_map. fold old.
      rewrite Hover, Hsort, Hlen, Hold. reflexivity. }
    rewrite Hdel.
    pose proof (filter_length_split
                  (fun e => negb (doomed (map fst old ++ [fst e0]) e)) jobs) as Hs2.
    assert (Hone : (1 <= length (List.filter
                      (fun e => negb (negb (doomed (map fst old ++ [fst e0]) e))) jobs))%nat).
    { assert (Hd : In e0 (List.filter
                      (fun e => negb (negb (doomed (map fst old ++ [fst e0]) e))) jobs)).
      { apply filter_In. split; [exact Hin0|].
        rewrite negb_involutive. unfold doomed. apply existsb_exists.
        exists (fst e0). split; [apply in_or_app; right; now left|].
        apply String.eqb_refl. }
      revert Hd.
      generalize (List.filter
                    (fun e => negb (negb (doomed (map fst old ++ [fst e0]) e))) jobs).
      intros [|x xs] Hd; [destruct Hd | simpl; lia]. }
    unfold MAX_JOBS. lia.
  - assert (Hm : (length (List.filter
                   (fun e => negb (doomed (jobsToDelete now jobs) e)) jobs)
                  <= length (List.filter (fun e => negb (expired now (snd e))) jobs))%nat).
    { apply Hmono. intros e Hin Hnd.
      destruct (expired now (snd e)) eqn:Hex; [|reflexivity].
      rewrite (doomed_old now jobs e Hin Hex) in Hnd. discriminate Hnd. }
    lia.
Qed.

(** The bound the code does keep: a store that held at most [MAX_JOBS + 1]
    jobs holds at most [MAX_JOBS + 1] after [createJob]. *)
Lemma createJob_size now jobId requests webhook jobs :
  map_size jobs <= MAX_JOBS + 1 ->
  map_size (snd (createJob now jobId requests webhook jobs)) <= MAX_JOBS + 1.
Proof.
  intros Hsize. simpl. pose proof (cleanupOldJobs_size now jobs Hsize) as Hc.
  unfold map_size in *.
  pose proof (map_set_length jobId
                (mkJob jobId Pending (imap (new_item jobId) requests) webhook now
                   None None (mkProgress (Z.of_nat (length requests)) 0 0))
                (cleanupOldJobs now jobs)).
  lia.
Qed.

End Eviction.

(** * Further properties of the coordinate resolver *)

Section ResolverContract.
Import Coords.

(** X1: clamping twice is clamping once, for every rectangle and every image
    size. *)
Theorem clampToImageBounds_idempotent (p : PixelCoordinates) (d : ImageDimensions) :
  clampToImageBounds (clampToImageBounds p d) d = clampToImageBounds p d.
Proof.
  unfold clampToImageBounds; simpl. f_equal; lia.
Qed.

(** X2: what the resolver guarantees for every tagged input: the origin lies in
    the closed range from 0 to the image size, the extent is at least one,
    and the rectangle ends inside the image unless its origin sits on the
    far edge, where the extent is exactly one. *)
Theorem processCoordinates_range (c : Coordinates) (d : ImageDimensions)
    (r : PixelCoordinates) :
  0 <= dim_width d -> 0 <= dim_height d ->
  processCoordinates c d = Ok r ->
  0 <= x r <= dim_width d /\ 0 <= y r <= dim_height d /\
  1 <= width r /\ 1 <= height r /\
  (x r < dim_width d -> x r + width r <= dim_width d) /\
  (y r < dim_height d -> y r + height r <= dim_height d) /\
  (x r = dim_width d -> width r = 1) /\
  (y r = dim_height d -> height r = 1).
Proof.
  intros Hw Hh. unfold processCoordinates.
  destruct (toPixelCoordinates c d) as [p|e]; simpl; [|discriminate].
  intros [= <-]. unfold clampToImageBounds; simpl. lia.
Qed.

Lemma processCoordinates_range_witness :
  let r := mkPixel 400 0 1 10 in
  0 <= x r <= 400 /\ 0 <= y r <= 300 /\
  1 <= width r /\ 1 <= height r /\
  (x r < 400 -> x r + width r <= 400) /\
  (y r < 300 -> y r + height r <= 300) /\
  (x r = 400 -> width r = 1) /\
  (y r = 300 -> height r = 1).
Proof.
  apply (processCoordinates_range (Pixel (mkPixel 400 0 10 10)) (mkDims 400 300));
    simpl; [lia | lia | reflexivity].
Defined.

(** X3: a pixel rectangle accepted by [validateCoordinates] is resolved to an
    in-bounds rectangle with the same origin; only its extent is cut to
    what is left of the image. *)
Theorem validateCoordinates_pixel_in_bounds (p : PixelCoordinates) (d : ImageDimensions) :
  valid (validateCoordinates (Pixel p) d) = true ->
  exists r,
    processCoordinates (Pixel p) d = Ok r /\ in_bounds r d /\
    x r = x p /\ y r = y p /\
    width r = Z.min (width p) (dim_width d - x p) /\
    height r = Z.min (height p) (dim_height d - y p).
Proof.
  unfold validateCoordinates.
  destruct (x p <? 0) eqn:E1, (y p <? 0) eqn:E2; simpl; try discriminate.
  destruct (width p <=? 0) eqn:E3, (height p <=? 0) eqn:E4; simpl; try discriminate.
  destruct (dim_width d <=? x p) eqn:E5, (dim_height d <=? y p) eqn:E6; simpl;
    try discriminate.
  intros _.
  eexists. split; [reflexivity|].
  unfold in_bounds, clampToImageBounds; simpl. lia.
Qed.

Lemma validateCoordinates_pixel_in_bounds_witness :
  exists r,
    processCoordinates (Pixel (mkPixel 390 10 50 50)) (mkDims 400 300) = Ok r /\
    in_bounds r (mkDims 400 300) /\
    x r = 390 /\ y r = 10 /\
    width r = Z.min 50 (400 - 390) /\ height r = Z.min 50 (300 - 10).
Proof.
  apply (validateCoordinates_pixel_in_bounds (mkPixel 390 10 50 50) (mkDims 400 300)).
  reflexivity.
Defined.

End ResolverContract.

(** * Properties of the pre-clamp and the conversion of the base64 endpoint *)

Section Base64Path.
Import Coords Schemas Base64 Base64Controller.

Lemma Math_round_bounds a b q :
  (inject_Z a <= q)%Q -> (q <= inject_Z b)%Q -> a <= Math_round q <= b.
Proof.
  intros Ha Hb. unfold Math_round.
  pose proof (Qfloor_le (q + (1 # 2))) as Hle.
  pose proof (Qlt_floor (q + (1 # 2))) as Hlt.
  set (f := Qfloor (q + (1 # 2))) in *.
  rewrite inject_Z_plus in Hlt. change (inject_Z 1) with 1%Q in Hlt.
  assert (H1 : (inject_Z f < inject_Z (b + 1))%Q).
  { rewrite inject_Z_plus. change (inject_Z 1) with 1%Q. lra. }
  assert (H2 : (inject_Z a < inject_Z (f + 1))%Q).
  { rewrite inject_Z_plus. change (inject_Z 1) with 1%Q. lra. }
  rewrite <- Zlt_Qlt in H1, H2. lia.
Qed.

Lemma Math_round_Z z : Math_round (inject_Z z) = z.
Proof.
  destruct (Math_round_bounds z z (inject_Z z)); [lra | lra | lia].
Qed.

Lemma Qle_bool_inject a b : Qle_bool (inject_Z a) (inject_Z b) = (a <=? b).
Proof.
  destruct (a <=? b) eqn:E.
  - apply Qle_bool_iff. rewrite <- Zle_Qle. lia.
  - destruct (Qle_bool (inject_Z a) (inject_Z b)) eqn:E'; [|reflexivity].
    apply Qle_bool_iff in E'. rewrite <- Zle_Qle in E'. lia.
Qed.

Lemma clampPixel_spec (imgWidth imgHeight : Z) (c : SimpleCoords) :
  1 <= imgWidth -> 1 <= imgHeight ->
  exists r,
    clampPixel imgWidth imgHeight c = of_pixel r /\
    in_bounds r (mkDims imgWidth imgHeight).
Proof.
  intros Hw Hh.
  exists (mkPixel
            (Z.max 0 (Z.min (imgWidth - 1) (Math_round (sx c))))
            (Z.max 0 (Z.min (imgHeight - 1) (Math_round (sy c))))
            (Z.max 1 (Z.min (imgWidth - Z.max 0 (Z.min (imgWidth - 1) (Math_round (sx c))))
                        (Math_round (swidth c))))
            (Z.max 1 (Z.min (imgHeight - Z.max 0 (Z.min (imgHeight - 1) (Math_round (sy c))))
                        (Math_round (sheight c))))).
  split; [reflexivity|].
  unfold in_bounds; simpl. lia.
Qed.

Lemma isNormalized_of_pixel r :
  isNormalized (of_pixel r)
  = (x r <=? 1) && (y r <=? 1) && (width r <=? 1) && (height r <=? 1).
Proof.
  unfold isNormalized, of_pixel; simpl.
  change 1%Q with (inject_Z 1). now rewrite !Qle_bool_inject.
Qed.

(** X4: a region of the base64 endpoint that is read as a pixel rectangle
    leaves the pre-clamp as a rectangle of whole pixels inside the image;
    when it is still read as a pixel rectangle afterwards, it reaches the
    pipeline as that very rectangle. *)
Theorem base64_pixel_region_resolved (imgWidth imgHeight : Z) (c : SimpleCoords) :
  1 <= imgWidth -> 1 <= imgHeight ->
  isNormalized c = false ->
  exists r,
    clampRegion imgWidth imgHeight c = inr (of_pixel r) /\
    in_bounds r (mkDims imgWidth imgHeight) /\
    (isNormalized (of_pixel r) = false ->
     processCoordinates (convertCoordinates (of_pixel r)) (mkDims imgWidth imgHeight)
     = Ok r).
Proof.
  intros Hw Hh Hc.
  destruct (clampPixel_spec imgWidth imgHeight c Hw Hh) as (r & Hr & Hin).
  exists r. unfold clampRegion. rewrite Hc, Hr. split; [reflexivity|].
  split; [exact Hin|]. intros Hc'.
  unfold convertCoordinates. rewrite Hc'.
  unfold of_pixel; simpl. rewrite !Math_round_Z.
  unfold processCoordinates, clampToImageBounds; simpl.
  unfold in_bounds in Hin; simpl in Hin.
  destruct r as [rx ry rw rh]; simpl in *. f_equal. f_equal; lia.
Qed.

Lemma base64_pixel_region_resolved_witness :
  exists r,
    clampRegion 400 300 (mkSimple 390 (-3) 80 (5 # 2)) = inr (of_pixel r) /\
    in_bounds r (mkDims 400 300) /\
    (isNormalized (of_pixel r) = false ->
     processCoordinates (convertCoordinates (of_pixel r)) (mkDims 400 300) = Ok r).
Proof.
  apply (base64_pixel_region_resolved 400 300 (mkSimple 390 (-3) 80 (5 # 2)));
    first [lia | reflexivity].
Defined.

(** X5: a region that is read as a pixel rectangle but is one pixel wide and
    high after the pre-clamp, with its origin at 0 or 1, is read as a
    unit-interval rectangle by the conversion: its extent becomes the whole
    image, and from the origin (0, 0) the resolved rectangle is the whole
    image. *)
Theorem base64_unit_sized_pixel_region (imgWidth imgHeight : Z) (c : SimpleCoords) :
  1 <= imgWidth -> 1 <= imgHeight ->
  isNormalized c = false ->
  isNormalized (clampPixel imgWidth imgHeight c) = true ->
  exists px py,
    clampRegion imgWidth imgHeight c = inr (of_pixel (mkPixel px py 1 1)) /\
    0 <= px <= 1 /\ 0 <= py <= 1 /\
    processCoordinates (convertCoordinates (of_pixel (mkPixel px py 1 1)))
      (mkDims imgWidth imgHeight)
    = Ok (clampToImageBounds
            (mkPixel (px * imgWidth) (py * imgHeight) imgWidth imgHeight)
            (mkDims imgWidth imgHeight)) /\
    (px = 0 -> py = 0 ->
     processCoordinates (convertCoordinates (of_pixel (mkPixel px py 1 1)))
       (mkDims imgWidth imgHeight)
     = Ok (mkPixel 0 0 imgWidth imgHeight)).
Proof.
  intros Hw Hh Hc Hc'.
  destruct (clampPixel_spec imgWidth imgHeight c Hw Hh) as (r & Hr & Hin).
  rewrite Hr in Hc'. pose proof Hc' as Hn.
  rewrite isNormalized_of_pixel in Hn.
  rewrite !andb_true_iff, !Z.leb_le in Hn. destruct Hn as [[[Hx Hy] Hrw] Hrh].
  unfold in_bounds in Hin; simpl in Hin.
  destruct r as [rx ry rw rh]; simpl in *.
  assert (rw = 1) by lia. assert (rh = 1) by lia. subst rw rh.
  exists rx, ry. unfold clampRegion. rewrite Hc, Hr.
  split; [reflexivity|]. split; [lia|]. split; [lia|].
  assert (E : processCoordinates
                (convertCoordinates (of_pixel (mkPixel rx ry 1 1)))
                (mkDims imgWidth imgHeight)
              = Ok (clampToImageBounds
                      (mkPixel (rx * imgWidth) (ry * imgHeight) imgWidth imgHeight)
                      (mkDims imgWidth imgHeight))).
  { unfold convertCoordinates. rewrite Hc'.
    unfold processCoordinates, toPixelCoordinates, normalizedToPixel, of_pixel; simpl.
    rewrite <- !inject_Z_mult, !Math_round_Z.
    now rewrite !Z.mul_1_l. }
  split; [exact E|].
  intros -> ->. rewrite E. unfold clampToImageBounds; simpl. f_equal. f_equal; lia.
Qed.

Lemma base64_unit_sized_pixel_region_witness :
  exists px py,
    clampRegion 400 300 (mkSimple (2 # 5) (3 # 10) (6 # 5) (7 # 5))
      = inr (of_pixel (mkPixel px py 1 1)) /\
    0 <= px <= 1 /\ 0 <= py <= 1 /\
    processCoordinates (convertCoordinates (of_pixel (mkPixel px py 1 1)))
      (mkDims 400 300)
    = Ok (clampToImageBounds (mkPixel (px * 400) (py * 300) 400 300)
            (mkDims 400 300)) /\
    (px = 0 -> py = 0 ->
     processCoordinates (convertCoordinates (of_pixel (mkPixel px py 1 1)))
       (mkDims 400 300)
     = Ok (mkPixel 0 0 400 300)).
Proof.
  apply (base64_unit_sized_pixel_region 400 300
           (mkSimple (2 # 5) (3 # 10) (6 # 5) (7 # 5)));
    first [lia | reflexivity].
Defined.


Lemma Qle_bool_false a b : Qle_bool a b = false <-> (b < a)%Q.
Proof.
  split.
  - intros H. apply Qnot_le_lt. intros Hle. apply Qle_bool_iff in Hle. congruence.
  - intros H. destruct (Qle_bool a b) eqn:E; [|reflexivity].
    apply Qle_bool_iff in E. lra.
Qed.

Lemma clamp_axis (a w : Q) :
  let a' := Qmax 0 (Qmin 1 a) in
  let w' := Qmax 0 (Qmin (1 - a') w) in
  (0 <= a' <= 1 /\ 0 <= w' /\ a' + w' <= 1)%Q.
Proof.
  simpl.
  destruct (Q.min_spec 1 a) as [[H1 E1]|[H1 E1]];
  destruct (Q.max_spec 0 (Qmin 1 a)) as [[H2 E2]|[H2 E2]];
  destruct (Q.min_spec (1 - Qmax 0 (Qmin 1 a)) w) as [[H3 E3]|[H3 E3]];
  destruct (Q.max_spec 0 (Qmin (1 - Qmax 0 (Qmin 1 a)) w)) as [[H4 E4]|[H4 E4]];
  rewrite ?E4; rewrite ?E3 in *; rewrite ?E2 in *; rewrite ?E1 in *;
  repeat split; lra.
Qed.

Lemma clampUnit_spec c :
  let c' := clampUnit c in
  (0 <= sx c' <= 1 /\ 0 <= sy c' <= 1 /\ 0 <= swidth c' /\ 0 <= sheight c' /\
   sx c' + swidth c' <= 1 /\ sy c' + sheight c' <= 1)%Q.
Proof.
  unfold clampUnit; simpl.
  destruct (clamp_axis (sx c) (swidth c)) as (Hx & Hw & Hxw).
  destruct (clamp_axis (sy c) (sheight c)) as (Hy & Hh & Hyh).
  simpl in *. tauto.
Qed.

Lemma clampUnit_valid (c : SimpleCoords) (d : ImageDimensions) :
  Qle_bool (swidth (clampUnit c)) 0 = false ->
  Qle_bool (sheight (clampUnit c)) 0 = false ->
  let u := clampUnit c in
  isNormalized u = true /\
  normalizedCoordinatesSchema (mkNorm (sx u) (sy u) (swidth u) (sheight u)) = true /\
  valid (validateCoordinates
           (Normalized (mkNorm (sx u) (sy u) (swidth u) (sheight u))) d) = true.
Proof.
  intros Ew Eh u. subst u.
  apply Qle_bool_false in Ew, Eh.
  destruct (clampUnit_spec c) as ([Hx0 Hx1] & [Hy0 Hy1] & Hw & Hh & Hxw & Hyh).
  generalize dependent (clampUnit c). intros u Ew Eh Hx0 Hx1 Hy0 Hy1 Hw Hh Hxw Hyh.
  split; [|split].
  - unfold isNormalized. rewrite !andb_true_iff.
    repeat split; apply Qle_bool_iff; lra.
  - unfold normalizedCoordinatesSchema, unit_interval; simpl.
    rewrite !andb_true_iff. repeat split; apply Qle_bool_iff; lra.
  - unfold validateCoordinates, Qlt_bool; simpl.
    assert (E1 : Qle_bool 0 (sx u) = true) by (apply Qle_bool_iff; lra).
    assert (E2 : Qle_bool (sx u) 1 = true) by (apply Qle_bool_iff; lra).
    assert (E3 : Qle_bool 0 (sy u) = true) by (apply Qle_bool_iff; lra).
    assert (E4 : Qle_bool (sy u) 1 = true) by (apply Qle_bool_iff; lra).
    assert (E5 : Qle_bool (swidth u) 0 = false) by (apply Qle_bool_false; lra).
    assert (E6 : Qle_bool (sheight u) 0 = false) by (apply Qle_bool_false; lra).
    assert (E7 : Qle_bool (sx u + swidth u) 1 = true) by (apply Qle_bool_iff; lra).
    assert (E8 : Qle_bool (sy u + sheight u) 1 = true) by (apply Qle_bool_iff; lra).
    rewrite E1, E2, E3, E4, E5, E6, E7, E8. reflexivity.
Qed.

(** X6: a region that the pre-clamp reads as a unit-interval rectangle and does
    not reject reaches the pipeline as a unit-interval rectangle that both
    the region schema and [validateCoordinates] accept, on every image. *)
Theorem base64_unit_region_valid (imgWidth imgHeight : Z) (c c' : SimpleCoords)
    (d : ImageDimensions) :
  isNormalized c = true ->
  clampRegion imgWidth imgHeight c = inr c' ->
  exists n,
    convertCoordinates c' = Normalized n /\
    normalizedCoordinatesSchema n = true /\
    valid (validateCoordinates (Normalized n) d) = true.
Proof.
  intros Hc. unfold clampRegion. rewrite Hc.
  destruct (Qle_bool (swidth (clampUnit c)) 0) eqn:Ew;
    destruct (Qle_bool (sheight (clampUnit c)) 0) eqn:Eh; simpl;
    intros Hr; try discriminate Hr.
  injection Hr as <-.
  destruct (clampUnit_valid c d Ew Eh) as (Hn & Hs & Hv).
  eexists. unfold convertCoordinates. rewrite Hn. eauto.
Qed.

Lemma base64_unit_region_valid_witness :
  exists n,
    convertCoordinates (mkSimple (1 # 2) 0 (1 # 2) (1 # 4)) = Normalized n /\
    normalizedCoordinatesSchema n = true /\
    valid (validateCoordinates (Normalized n) (mkDims 400 300)) = true.
Proof.
  apply (base64_unit_region_valid 400 300 (mkSimple (1 # 2) (-1) (3 # 4) (1 # 4))
           (mkSimple (1 # 2) 0 (1 # 2) (1 # 4)) (mkDims 400 300));
    reflexivity.
Defined.


Lemma clampRegion_coordinates_schema imgWidth imgHeight c c' :
  1 <= imgWidth -> 1 <= imgHeight ->
  clampRegion imgWidth imgHeight c = inr c' ->
  match convertCoordinates c' with
  | Pixel p => pixelCoordinatesSchema p
  | Normalized n => normalizedCoordinatesSchema n
  | OtherShape => false
  end = true.
Proof.
  intros Hw Hh Hr.
  destruct (isNormalized c) eqn:Hc.
  - unfold clampRegion in Hr. rewrite Hc in Hr.
    destruct (Qle_bool (swidth (clampUnit c)) 0) eqn:Ew;
      destruct (Qle_bool (sheight (clampUnit c)) 0) eqn:Eh; simpl in Hr;
      try discriminate Hr.
    injection Hr as <-.
    destruct (clampUnit_valid c (mkDims 1 1) Ew Eh) as (Hn & Hs & _).
    unfold convertCoordinates. rewrite Hn. exact Hs.
  - unfold clampRegion in Hr. rewrite Hc in Hr. injection Hr as <-.
    destruct (clampPixel_spec imgWidth imgHeight c Hw Hh) as (r & -> & Hin).
    unfold in_bounds in Hin; simpl in Hin.
    unfold convertCoordinates.
    destruct (isNormalized (of_pixel r)) eqn:Hn.
    + rewrite isNormalized_of_pixel in Hn.
      rewrite !andb_true_iff, !Z.leb_le in Hn.
      unfold normalizedCoordinatesSchema, unit_interval, of_pixel; simpl.
      change 0%Q with (inject_Z 0). change 1%Q with (inject_Z 1).
      rewrite !Qle_bool_inject, !andb_true_iff, !Z.leb_le. lia.
    + unfold of_pixel; simpl. rewrite !Math_round_Z.
      unfold pixelCoordinatesSchema; simpl.
      rewrite !andb_true_iff, !Z.leb_le. lia.
Qed.

Lemma convertToInternalRegion_set_coords region c :
  operation (convertToInternalRegion (set_coords region c))
  = operation (convertToInternalRegion region) /\
  coordinates (convertToInternalRegion (set_coords region c)) = convertCoordinates c.
Proof. destruct region; split; reflexivity. Qed.

Lemma clampRegions_schema imgWidth imgHeight regions :
  1 <= imgWidth -> 1 <= imgHeight ->
  forallb simpleRegionSchema regions = true ->
  forall i clamped,
    clampRegions imgWidth imgHeight i regions = inr clamped ->
    length clamped = length regions /\
    forallb regionSchema (map convertToInternalRegion clamped) = true /\
    map operation (map convertToInternalRegion clamped)
    = map operation (map convertToInternalRegion regions).
Proof.
  intros Hw Hh.
  induction regions as [|region rest IH]; intros Hs i clamped Hc; simpl in *.
  - injection Hc as <-. auto.
  - apply andb_true_iff in Hs. destruct Hs as [Hs1 Hs2].
    destruct (clampRegion imgWidth imgHeight (coords region)) as [reply|c'] eqn:Er;
      [discriminate Hc|].
    destruct (clampRegions imgWidth imgHeight (S i) rest) as [early|rest'] eqn:Erest;
      [discriminate Hc|].
    injection Hc as <-.
    destruct (IH Hs2 (S i) rest' Erest) as (Hlen & Hall & Hops).
    destruct (convertToInternalRegion_set_coords region c') as [Hop Hco].
    simpl. split; [congruence|]. split.
    + rewrite Hall, andb_true_r. unfold regionSchema. rewrite Hco, Hop.
      rewrite (clampRegion_coordinates_schema _ _ _ _ Hw Hh Er). simpl.
      unfold simpleRegionSchema in Hs1. apply andb_true_iff in Hs1.
      destruct Hs1 as [_ Hs1]. destruct region; simpl; auto.
    + now rewrite Hop, Hops.
Qed.

(** X7: every region that the base64 endpoint hands to the service satisfies
    the region schema of the internal format; no region is dropped or
    added, and each keeps its operation. *)
Theorem internalRegions_schema (imgWidth imgHeight : Z)
    (regions : list SimpleRegion) (out : list Region) :
  1 <= imgWidth -> 1 <= imgHeight ->
  forallb simpleRegionSchema regions = true ->
  internalRegions imgWidth imgHeight regions = inr out ->
  length out = length regions /\
  forallb regionSchema out = true /\
  map operation out = map operation (map convertToInternalRegion regions).
Proof.
  intros Hw Hh Hs. unfold internalRegions.
  destruct (clampRegions imgWidth imgHeight 0 regions) as [early|clamped] eqn:E;
    [discriminate|].
  intros [= <-].
  destruct (clampRegions_schema imgWidth imgHeight regions Hw Hh Hs 0%nat clamped E)
    as (Hlen & Hall & Hops).
  rewrite length_map. auto.
Qed.

Lemma internalRegions_schema_witness :
  let regions :=
    [SimpleFill (mkSimple 390 (-3) 80 (5 # 2)) "#10203040";
     SimpleBlur (mkSimple (1 # 2) 0 (3 # 4) (1 # 4)) medium] in
  let out :=
    [mkRegion (Pixel (mkPixel 390 0 10 3)) (OpFill "#10203040");
     mkRegion (Normalized (mkNorm (1 # 2) 0 (1 # 2) (1 # 4))) (OpBlur SizeM)] in
  length out = length regions /\
  forallb regionSchema out = true /\
  map operation out = map operation (map convertToInternalRegion regions).
Proof.
  apply (internalRegions_schema 400 300); first [lia | reflexivity].
Defined.

End Base64Path.

(** * Properties of the fill step and of the region loop *)

Section RegionLoop.
Import Coords Schemas Pipeline.

Variable toBuffer : Sharp -> result Buffer.

Lemma hex_value_digit a :
  is_hex_digit a = true -> exists d, hex_value a = Some d /\ 0 <= d <= 15.
Proof.
  unfold is_hex_digit, hex_value.
  generalize (nat_of_ascii a). intros n.
  remember ((48 <=? n)%nat && (n <=? 57)%nat) as b1 eqn:E1.
  remember ((65 <=? n)%nat && (n <=? 70)%nat) as b2 eqn:E2.
  remember ((97 <=? n)%nat && (n <=? 102)%nat) as b3 eqn:E3.
  symmetry in E1, E2, E3.
  destruct b1; [|destruct b2; [|destruct b3]]; cbn [orb]; intros H;
    try discriminate H.
  - apply andb_true_iff in E1. destruct E1 as [H1 H2].
    apply Nat.leb_le in H1, H2. eexists; split; [reflexivity | lia].
  - apply andb_true_iff in E2. destruct E2 as [H1 H2].
    apply Nat.leb_le in H1, H2. eexists; split; [reflexivity | lia].
  - apply andb_true_iff in E3. destruct E3 as [H1 H2].
    apply Nat.leb_le in H1, H2. eexists; split; [reflexivity | lia].
Qed.

Lemma parseInt16_pair a b :
  is_hex_digit a = true -> is_hex_digit b = true ->
  exists v, parseInt16 (String a (String b EmptyString)) = Some v /\ 0 <= v <= 255.
Proof.
  intros Ha Hb.
  destruct (hex_value_digit a Ha) as (da & Ea & Hda).
  destruct (hex_value_digit b Hb) as (db & Eb & Hdb).
  unfold parseInt16. cbn [parseHexPrefix]. rewrite Ea, Eb.
  eexists; split; [reflexivity|]. simpl default. lia.
Qed.

Lemma colorSchema_inv color :
  colorSchema color = true ->
  exists rest, color = String "#" rest /\ all_hex rest = true /\
               (String.length rest = 6%nat \/ String.length rest = 8%nat).
Proof.
  destruct color as [|c0 rest]; [discriminate|].
  destruct c0 as [[] [] [] [] [] [] [] []]; try discriminate.
  unfold colorSchema. rewrite andb_true_iff, orb_true_iff, !Nat.eqb_eq.
  intros [H1 H2]. exists rest. auto.
Qed.


Lemma applyOperation_throws image p op e :
  applyOperation toBuffer image p op = Throw e ->
  exists chain, toBuffer chain = Throw e.
Proof.
  destruct op as [size|size|color]; simpl;
    unfold applyBlur, applyPixelate, applyFill;
    (destruct (toBuffer image) as [currentBuffer|e0] eqn:E0; simpl;
     [|intros [= <-]; eauto]);
    match goal with
    | |- context [toBuffer ?c] =>
        destruct (toBuffer c) as [region|e1] eqn:E1; simpl;
        [discriminate | intros [= <-]; eauto]
    end.
Qed.

Lemma applyOperation_accepted image p op :
  (forall chain, is_ok (toBuffer chain) = true) ->
  is_ok (applyOperation toBuffer image p op) = true.
Proof.
  intros Hall.
  assert (H : forall chain, exists buffer, toBuffer chain = Ok buffer).
  { intros chain. specialize (Hall chain).
    destruct (toBuffer chain); [eauto | discriminate]. }
  destruct op as [size|size|color]; simpl;
    unfold applyBlur, applyPixelate, applyFill;
    (destruct (H image) as [currentBuffer ->]; simpl);
    match goal with
    | |- context [toBuffer ?c] => destruct (H c) as [region ->]; reflexivity
    end.
Qed.


End RegionLoop.

Section RegionLoopScenarios.
Import Coords Schemas Pipeline SharpStandIn.


End RegionLoopScenarios.

(** * Properties of the redaction service *)

Section ServiceContract.
Import Coords Schemas Pipeline Service RedactionService.

Variable config : EnvConfig.
Variable rt : Runtime.

Lemma substring_app_skip a s m n :
  substring (String.length a + m) n (a +:+ s) = substring m n s.
Proof. induction a as [|c a IH]; simpl; auto. Qed.

Lemma includes_app_r a s pat :
  pat <> EmptyString -> includes s pat = true -> includes (a +:+ s) pat = true.
Proof.
  unfold includes. intros Hne.
  destruct (index 0 pat s) as [m|] eqn:E; [|discriminate]. intros _.
  destruct (index 0 pat (a +:+ s)) as [k|] eqn:E'; [reflexivity|].
  exfalso.
  apply (index_correct3 0 (String.length a + m) pat (a +:+ s) E' Hne); [lia|].
  rewrite substring_app_skip. exact (index_correct1 _ _ _ _ E).
Qed.

Lemma substring_prefix pat b :
  substring 0 (String.length pat) (pat +:+ b) = pat.
Proof.
  induction pat as [|c pat IH]; simpl.
  - destruct b; reflexivity.
  - now rewrite IH.
Qed.

Lemma includes_prefix pat b :
  pat <> EmptyString -> includes (pat +:+ b) pat = true.
Proof.
  unfold includes. intros Hne.
  destruct (index 0 pat (pat +:+ b)) as [k|] eqn:E; [reflexivity|].
  exfalso. apply (index_correct3 0 0 pat (pat +:+ b) E Hne); [lia|].
  apply substring_prefix.
Qed.

Lemma validateImageDimensions_throws metadata e :
  validateImageDimensions (MAX_PIXELS config) metadata = Throw e ->
  meta_width metadata * meta_height metadata > MAX_PIXELS config /\
  err_name e = "ImagePipelineError" /\
  includes (err_message e) "exceeds maximum" = true.
Proof.
  unfold validateImageDimensions.
  destruct (_ >? _) eqn:E; [|discriminate]. intros [= <-].
  split; [lia|]. split; [reflexivity|].
  cbn [err_message ImagePipelineError mkError].
  do 6 (apply includes_app_r; [discriminate|]).
  change (" pixels) exceeds maximum allowed " +:+ pretty (MAX_PIXELS config)
          +:+ " pixels")
    with (" pixels) " +:+ ("exceeds maximum"
                           +:+ (" allowed " +:+ pretty (MAX_PIXELS config)
                                +:+ " pixels"))).
  apply includes_app_r; [discriminate|]. apply includes_prefix. discriminate.
Qed.


Lemma getImageMetadata_Ok buffer metadata :
  getImageMetadata rt buffer = Ok metadata ->
  exists md w h,
    sharp_metadata rt buffer = Ok md /\
    md_width md = Some w /\ md_height md = Some h /\ w <> 0 /\ h <> 0 /\
    meta_width metadata = w /\ meta_height metadata = h.
Proof.
  unfold getImageMetadata.
  destruct (sharp_metadata rt buffer) as [md|e]; simpl; [|discriminate].
  destruct (md_width md) as [w|] eqn:Ew; simpl; [|discriminate].
  destruct (w =? 0) eqn:Ew0; simpl; [discriminate|].
  destruct (md_height md) as [h|] eqn:Eh; simpl; [|discriminate].
  destruct (h =? 0) eqn:Eh0; simpl; [discriminate|].
  intros [= <-]. exists md, w, h. simpl. repeat split; auto; lia.
Qed.

Lemma getImageMetadata_throws buffer e :
  getImageMetadata rt buffer = Throw e ->
  e = ImagePipelineError "Failed to extract image metadata".
Proof.
  unfold getImageMetadata.
  destruct (sharp_metadata rt buffer) as [md|e0]; simpl.
  - destruct (_ || _); [|discriminate]. now intros [= <-].
  - now intros [= <-].
Qed.

Lemma processImage_throws inputBuffer regions outputFormat quality e :
  processImage config rt inputBuffer regions outputFormat quality = Throw e ->
  err_declared e = true /\ err_name e = "ImagePipelineError".
Proof.
  unfold processImage.
  match goal with |- match ?m with _ => _ end = _ -> _ => destruct m as [r|err] end;
    [discriminate|].
  destruct (instance_of ["ImagePipelineError"] err) eqn:E.
  - intros [= <-]. unfold instance_of in E. simpl in E.
    rewrite orb_false_r in E. apply andb_true_iff in E.
    destruct E as [Hd Hn]. apply String.eqb_eq in Hn. auto.
  - intros [= <-]. split; reflexivity.
Qed.

Lemma processImage_Ok inputBuffer regions outputFormat quality r :
  processImage config rt inputBuffer regions outputFormat quality = Ok r ->
  exists metadata image,
    getImageMetadata rt inputBuffer = Ok metadata /\
    applyRegions (toBuffer rt) (rotate rt (sharp inputBuffer)) regions
      (mkDims (meta_width metadata) (meta_height metadata)) = Ok image /\
    pi_width r = meta_width metadata /\ pi_height r = meta_height metadata /\
    pi_format r = outputFormat /\
    pi_etag r = generateETag rt (pi_buffer r) /\
    pi_processingTimeMs r = durationMs rt /\
    exists encoded,
      (let q := if falsy quality then DEFAULT_QUALITY config else default 0 quality in
       match outputFormat with
       | webp => webp_options rt image q
       | jpeg => jpeg_options rt image q
       end) = Ok encoded /\
      toBuffer rt encoded = Ok (pi_buffer r).
Proof.
  unfold processImage.
  destruct (getImageMetadata rt inputBuffer) as [metadata|e0] eqn:Em; simpl.
  2: { destruct (instance_of _ _); discriminate. }
  destruct (validateImageDimensions (MAX_PIXELS config) metadata) as [[]|e1]; simpl.
  2: { destruct (instance_of _ _); discriminate. }
  destruct (applyRegions _ _ regions _) as [image|e2] eqn:Ea; simpl.
  2: { destruct (instance_of _ _); discriminate. }
  match goal with
  | |- context [bind ?m _] => destruct m as [encoded|e3] eqn:Ee
  end; simpl.
  2: { destruct (instance_of _ _); discriminate. }
  destruct (toBuffer rt encoded) as [buffer|e4] eqn:Eb; simpl.
  2: { destruct (instance_of _ _); discriminate. }
  intros [= <-]. exists metadata, image. simpl. repeat split; eauto.
Qed.

Ltac thrown_here :=
  intros [= <-]; split; [reflexivity|]; split; [reflexivity|];
  eexists _, _; split; [reflexivity|]; split; [reflexivity|]; simpl; tauto.

Lemma validateInput_throws buffer declared e :
  validateInput config rt buffer declared = Throw e ->
  err_declared e = true /\ err_name e = "RedactionServiceError" /\
  exists code status,
    err_code e = Some code /\ err_statusCode e = Some status /\
    In (code, status)
      [("PAYLOAD_TOO_LARGE", 413); ("UNSUPPORTED_MEDIA_TYPE", 415);
       ("IMAGE_TOO_LARGE", 413); ("INVALID_IMAGE", 400)].
Proof.
  unfold validateInput.
  destruct (negb (valid (Mime.validateFileSize _ _ _))); [thrown_here|].
  destruct (negb (Mime.valid (Mime.validateMimeType _ _ _))); [thrown_here|].
  match goal with |- match ?m with _ => _ end = _ -> _ => destruct m as [r|err] end;
    [discriminate|].
  destruct (includes _ _); thrown_here.
Qed.

Lemma validateRegions_throws regions e :
  validateRegions config regions = Throw e ->
  err_declared e = true /\ err_name e = "RedactionServiceError" /\
  exists code status,
    err_code e = Some code /\ err_statusCode e = Some status /\
    In (code, status) [("VALIDATION_ERROR", 400); ("TOO_MANY_REGIONS", 400)].
Proof.
  unfold validateRegions.
  destruct (_ =? _)%nat; [thrown_here|].
  destruct (_ >? _); [thrown_here | discriminate].
Qed.

Lemma redactImage_throws inputBuffer regions options declared e :
  redactImage config rt inputBuffer regions options declared = Throw e ->
  err_declared e = true /\ err_name e = "RedactionServiceError" /\
  exists code status,
    err_code e = Some code /\ err_statusCode e = Some status /\
    In (code, status) service_codes.
Proof.
  unfold redactImage.
  destruct (validateInput config rt inputBuffer declared) as [[]|e0] eqn:Ei; simpl.
  2: { destruct (validateInput_throws _ _ _ Ei)
         as (Hd & Hn & code & status & Hc & Hs & Hin).
       unfold instance_of. rewrite Hd, Hn. simpl. intros [= <-].
       split; [exact Hd|]. split; [exact Hn|].
       exists code, status. split; [exact Hc|]. split; [exact Hs|].
       unfold service_codes. simpl in *. tauto. }
  destruct (validateRegions config regions) as [[]|e1] eqn:Er; simpl.
  2: { destruct (validateRegions_throws _ _ Er)
         as (Hd & Hn & code & status & Hc & Hs & Hin).
       unfold instance_of. rewrite Hd, Hn. simpl. intros [= <-].
       split; [exact Hd|]. split; [exact Hn|].
       exists code, status. split; [exact Hc|]. split; [exact Hs|].
       unfold service_codes. simpl in *. tauto. }
  match goal with |- match ?m with _ => _ end = _ -> _ => destruct m as [r|err] eqn:Ep end;
    [discriminate|].
  destruct (processImage_throws _ _ _ _ _ Ep) as [Hd Hn].
  unfold instance_of. rewrite Hd, Hn. simpl.
  intros [= <-]. split; [reflexivity|]. split; [reflexivity|].
  exists "PIPELINE_ERROR", 500. unfold service_codes. simpl. tauto.
Qed.


Lemma validateFileSize_valid buffer maxSize :
  valid (Mime.validateFileSize (buffer_length rt) buffer maxSize)
  = negb (buffer_length rt buffer >? maxSize).
Proof. unfold Mime.validateFileSize. now destruct (_ >? _). Qed.

Lemma validateMimeType_valid buffer declared :
  Mime.valid (Mime.validateMimeType (fileTypeFromBuffer rt) buffer declared) = true ->
  exists mime,
    fileTypeFromBuffer rt buffer = Ok (Some mime) /\
    In mime Mime.SUPPORTED_MIME_TYPES /\
    (truthy declared = true -> declared = Some mime).
Proof.
  unfold Mime.validateMimeType.
  destruct (fileTypeFromBuffer rt buffer) as [[mime|]|e0]; try discriminate.
  destruct (Mime.has Mime.SUPPORTED_MIME_TYPES mime) eqn:Eh; [|discriminate].
  cbn [negb].
  destruct (truthy declared && negb (String.eqb (default EmptyString declared) mime))
    eqn:Ed; [discriminate|].
  intros _. exists mime. split; [reflexivity|]. split.
  - unfold Mime.has in Eh. apply existsb_exists in Eh.
    destruct Eh as (m & Hin & Heq). apply String.eqb_eq in Heq. now subst.
  - intros Ht. rewrite Ht in Ed. simpl in Ed. apply negb_false_iff in Ed.
    apply String.eqb_eq in Ed. destruct declared; simpl in *; congruence.
Qed.

Lemma validateInput_Ok buffer declared :
  validateInput config rt buffer declared = Ok tt ->
  buffer_length rt buffer <= MAX_BYTES config /\
  (exists mime,
     fileTypeFromBuffer rt buffer = Ok (Some mime) /\
     In mime Mime.SUPPORTED_MIME_TYPES /\
     (truthy declared = true -> declared = Some mime)) /\
  (exists metadata,
     getImageMetadata rt buffer = Ok metadata /\
     meta_width metadata * meta_height metadata <= MAX_PIXELS config).
Proof.
  unfold validateInput. rewrite validateFileSize_valid, negb_involutive.
  destruct (buffer_length rt buffer >? MAX_BYTES config) eqn:Es; [discriminate|].
  destruct (Mime.valid (Mime.validateMimeType _ _ _)) eqn:Ev; cbn [negb];
    [|discriminate].
  destruct (getImageMetadata rt buffer) as [metadata|e1] eqn:Em; cbn [bind].
  2: { destruct (includes _ _); discriminate. }
  destruct (validateImageDimensions (MAX_PIXELS config) metadata) as [[]|e2] eqn:Ep.
  2: { destruct (includes _ _); discriminate. }
  intros _. split; [lia|]. split; [exact (validateMimeType_valid _ _ Ev)|].
  exists metadata. split; [reflexivity|].
  unfold validateImageDimensions in Ep. destruct (_ >? _) eqn:E in Ep;
    [discriminate Ep | lia].
Qed.

Lemma validateRegions_Ok regions :
  validateRegions config regions = Ok tt ->
  (1 <= length regions)%nat /\ Z.of_nat (length regions) <= MAX_REGIONS config.
Proof.
  unfold validateRegions.
  destruct (_ =? _)%nat eqn:E0; [discriminate|].
  destruct (_ >? _) eqn:E1; [discriminate|].
  intros _. apply Nat.eqb_neq in E0. lia.
Qed.

(** X11: the contract of [redactImage].  It returns an image only for a buffer
    within the size limit, of a supported type that agrees with the
    declared one, with known non-zero dimensions within the pixel limit,
    and for between one and [MAX_REGIONS] regions; the result carries these
    dimensions, the requested or default format and the quoted digest of
    its own buffer.  Everything it throws is a [RedactionServiceError]
    whose code and status are one of the eight pairs of
    [service_codes]. *)
Theorem redactImage_contract (inputBuffer : Buffer) (regions : list Region)
    (options : RedactionOptions) (declaredMimeType : option string) :
  match redactImage config rt inputBuffer regions options declaredMimeType with
  | Ok r =>
      buffer_length rt inputBuffer <= MAX_BYTES config /\
      (exists mime,
         fileTypeFromBuffer rt inputBuffer = Ok (Some mime) /\
         In mime Mime.SUPPORTED_MIME_TYPES /\
         (truthy declaredMimeType = true -> declaredMimeType = Some mime)) /\
      (exists md w h,
         sharp_metadata rt inputBuffer = Ok md /\
         md_width md = Some w /\ md_height md = Some h /\
         w <> 0 /\ h <> 0 /\ w * h <= MAX_PIXELS config /\
         pi_width r = w /\ pi_height r = h) /\
      (1 <= length regions)%nat /\
      Z.of_nat (length regions) <= MAX_REGIONS config /\
      pi_format r = default (DEFAULT_FORMAT config) (opt_format options) /\
      pi_etag r = generateETag rt (pi_buffer r)
  | Throw e =>
      err_name e = "RedactionServiceError" /\
      exists code status,
        err_code e = Some code /\ err_statusCode e = Some status /\
        In (code, status) service_codes
  end.
Proof.
  destruct (redactImage config rt inputBuffer regions options declaredMimeType)
    as [r|e] eqn:E; [|exact (proj2 (redactImage_throws _ _ _ _ _ E))].
  unfold redactImage in E.
  destruct (validateInput config rt inputBuffer declaredMimeType) as [[]|e0] eqn:Ei;
    simpl in E.
  2: { destruct (instance_of _ _); [discriminate E|].
       destruct (String.eqb _ _); discriminate E. }
  destruct (validateRegions config regions) as [[]|e1] eqn:Er; simpl in E.
  2: { destruct (instance_of _ _); [discriminate E|].
       destruct (String.eqb _ _); discriminate E. }
  match type of E with
  | match ?m with _ => _ end = _ => destruct m as [r0|e2] eqn:Ep
  end.
  2: { destruct (instance_of _ _); [discriminate E|].
       destruct (String.eqb _ _); discriminate E. }
  injection E as <-.
  destruct (validateInput_Ok _ _ Ei) as (Hsize & Hmime & metadata & Hm & Hpix).
  destruct (validateRegions_Ok _ Er) as [Hr1 Hr2].
  destruct (processImage_Ok _ _ _ _ _ Ep)
    as (metadata' & image & Hm' & _ & Hw & Hh & Hf & He & _).
  rewrite Hm in Hm'. injection Hm' as <-.
  destruct (getImageMetadata_Ok _ _ Hm) as (md & w & h & Hmd & Ew & Eh & Hw0 & Hh0 & Hmw & Hmh).
  split; [exact Hsize|]. split; [exact Hmime|]. split.
  { exists md, w, h. repeat split; auto; congruence. }
  auto.
Qed.


(** X12: the refusals of [redactImage], in the order of its checks: the size
    limit comes first, then the type, then the dimensions, then the number
    of regions.  An image over the pixel limit is refused with
    [IMAGE_TOO_LARGE] and status 413: the message of the pipeline error
    does contain the words that the service looks for. *)
Theorem redactImage_refusals (inputBuffer : Buffer) (regions : list Region)
    (options : RedactionOptions) (declaredMimeType : option string) :
  let out := redactImage config rt inputBuffer regions options declaredMimeType in
  let sized := buffer_length rt inputBuffer <= MAX_BYTES config in
  let typed :=
    Mime.valid (Mime.validateMimeType (fileTypeFromBuffer rt) inputBuffer
                  declaredMimeType) = true in
  (MAX_BYTES config < buffer_length rt inputBuffer ->
   exists message,
     out = Throw (RedactionServiceError message "PAYLOAD_TOO_LARGE" 413)) /\
  (sized -> ~ typed ->
   exists message,
     out = Throw (RedactionServiceError message "UNSUPPORTED_MEDIA_TYPE" 415)) /\
  (sized -> typed ->
   forall metadata,
     getImageMetadata rt inputBuffer = Ok metadata ->
     MAX_PIXELS config < meta_width metadata * meta_height metadata ->
     exists message,
       out = Throw (RedactionServiceError message "IMAGE_TOO_LARGE" 413)) /\
  (sized -> typed ->
   (forall metadata, getImageMetadata rt inputBuffer <> Ok metadata) ->
   out = Throw (RedactionServiceError "Invalid image format or corrupted file"
                  "INVALID_IMAGE" 400)) /\
  (validateInput config rt inputBuffer declaredMimeType = Ok tt ->
   (regions = [] ->
    out = Throw (RedactionServiceError "At least one redaction region is required"
                   "VALIDATION_ERROR" 400)) /\
   (regions <> [] -> MAX_REGIONS config < Z.of_nat (length regions) ->
    exists message,
      out = Throw (RedactionServiceError message "TOO_MANY_REGIONS" 400))).
Proof.
  intros out sized typed. subst out sized typed.
  unfold redactImage.
  split; [|split; [|split; [|split]]].
  - intros Hs. unfold validateInput. rewrite validateFileSize_valid.
    assert (E : (buffer_length rt inputBuffer >? MAX_BYTES config) = true) by lia.
    rewrite E. simpl. eauto.
  - intros Hs Ht. unfold validateInput. rewrite validateFileSize_valid.
    assert (E : (buffer_length rt inputBuffer >? MAX_BYTES config) = false) by lia.
    rewrite E. apply not_true_is_false in Ht. rewrite Ht. simpl. eauto.
  - intros Hs Ht metadata Hm Hp. unfold validateInput.
    rewrite validateFileSize_valid.
    assert (E : (buffer_length rt inputBuffer >? MAX_BYTES config) = false) by lia.
    rewrite E, Ht, Hm. cbn [negb bind].
    destruct (validateImageDimensions (MAX_PIXELS config) metadata) as [[]|e] eqn:Ed.
    { unfold validateImageDimensions in Ed.
      destruct (_ >? _) eqn:E' in Ed; [discriminate Ed | lia]. }
    destruct (validateImageDimensions_throws _ _ Ed) as (_ & _ & Hinc).
    rewrite Hinc. simpl. eauto.
  - intros Hs Ht Hm. unfold validateInput. rewrite validateFileSize_valid.
    assert (E : (buffer_length rt inputBuffer >? MAX_BYTES config) = false) by lia.
    rewrite E, Ht. cbn [negb].
    destruct (getImageMetadata rt inputBuffer) as [metadata|e] eqn:Em;
      [exfalso; exact (Hm metadata eq_refl)|].
    rewrite (getImageMetadata_throws _ _ Em). reflexivity.
  - intros Hv. rewrite Hv. cbn [bind]. split.
    + intros ->. reflexivity.
    + intros Hne Hn. unfold validateRegions.
      destruct regions as [|region rest]; [contradiction|].
      cbn [length Nat.eqb].
      assert (E1 : (Z.of_nat (length (region :: rest)) >? MAX_REGIONS config) = true)
        by lia.
      cbn [length] in E1. rewrite E1. simpl. eauto.
Qed.

End ServiceContract.

(** * The base64 endpoint *)

Section Base64Handler.
Import Coords Schemas Pipeline Service RedactionService Base64 Base64Controller.

Variable config : EnvConfig.
Variable rt : Runtime.
Variable Buffer_from_base64 : string -> Buffer.

(** X13: the replies of the base64 endpoint when it runs the redaction service.
    An image is only sent for a body that passes the request schema, with
    the content type of the requested format and the quoted digest of the
    bytes sent.  Every failure carries one of the codes of the handler's
    own checks or of the service: the generic [PROCESSING_ERROR] reply of
    the last [catch] branch is never sent. *)
Theorem postRedactBase64_replies (body : Base64Request) :
  match
    postRedactBase64 rt Buffer_from_base64
      (fun buffer regions options => redactImage config rt buffer regions options None)
      body
  with
  | Base64Image buffer contentType etag =>
      base64RedactionRequestSchema body = true /\
      etag = generateETag rt buffer /\
      contentType
      = match default webp (option_map fst (b64_output body)) with
        | webp => "image/webp"
        | jpeg => "image/jpeg"
        end
  | Base64Failure status code message =>
      In (code, status)
        ([("VALIDATION_ERROR", 400); ("INVALID_IMAGE", 400);
          ("INVALID_REGION", 400)] ++ service_codes) /\
      code <> "PROCESSING_ERROR"
  end.
Proof.
  unfold postRedactBase64.
  destruct (base64RedactionRequestSchema body) eqn:Es; cbn [negb].
  2: { split; [simpl; tauto | discriminate]. }
  destruct (buffer_length rt (Buffer_from_base64 (b64_image body)) =? 0).
  { split; [simpl; tauto | discriminate]. }
  destruct (sharp_metadata rt (Buffer_from_base64 (b64_image body))) as [md|e].
  2: { split; [simpl; tauto | discriminate]. }
  destruct (_ || _).
  { split; [simpl; tauto | discriminate]. }
  destruct (internalRegions _ _ _) as [[number reply]|regions] eqn:Er.
  { assert (reply = INVALID_REGION) as ->.
    { unfold internalRegions in Er.
      destruct (clampRegions _ _ 0 _) as [early|clamped] eqn:Ec; [|discriminate Er].
      injection Er as ->. revert Ec. generalize 0%nat.
      induction (b64_regions body) as [|region rest IH]; intros i; simpl;
        [discriminate|].
      unfold clampRegion at 1.
      destruct (isNormalized (coords region)).
      - destruct (_ || _).
        + now intros [= _ <-].
        + destruct (clampRegions _ _ (S i) rest) eqn:Erest; [|discriminate].
          intros [= ->]. exact (IH _ Erest).
      - destruct (clampRegions _ _ (S i) rest) eqn:Erest; [|discriminate].
        intros [= ->]. exact (IH _ Erest). }
    split; [simpl; tauto | discriminate]. }
  match goal with
  | |- match match ?m with _ => _ end with _ => _ end => destruct m as [r|e] eqn:E
  end.
  { auto. }
  destruct (redactImage_throws _ _ _ _ _ _ _ E)
    as (Hd & Hn & code & status & Hc & Hs & Hin).
  destruct e as [edeclared ename emessage ecode estatus]; simpl in Hd, Hn, Hc, Hs.
  subst edeclared ename ecode estatus. simpl.
  split.
  - unfold service_codes in Hin. simpl in Hin. tauto.
  - intros ->. unfold service_codes in Hin. simpl in Hin.
    repeat (destruct Hin as [Hin|Hin]; [discriminate Hin|]). exact Hin.
Qed.

End Base64Handler.

(** * Properties of the storage service and of the S3 endpoint *)

Section Storage.
Import Schemas JobStore Service.

Variable S3W : Type.
Variable send : Command -> S3W -> result Output * S3W.
Variable redactImage :
  Pipeline.Buffer -> list Region -> RedactionOptions -> result ProcessedImage.
Variable number_toString : Q -> string.
Variable JSON_stringify : list (string * FieldValue) -> string.
Variable sha256_hex : string -> string.
Variable s3_issues : S3RedactionRequest -> string.

(** X14: [getObject] sends exactly one command and touches nothing but the
    storage.  It returns the body that the storage answered with; an answer
    without body and every failure of the client become an
    [S3ServiceError]: 404 for a missing key or bucket, 403 for a denied
    access, 500 otherwise. *)
Theorem getObject_contract (bucket key : string) (w : World S3W) :
  let cmd := GetObjectCommand bucket key in
  let out := getObject send bucket key w in
  snd out = mkWorld (jobs w) (snd (send cmd (s3 w))) (sink w) (clock w)
              (trace w ++ [EvSend cmd]) /\
  (forall body, fst out = Ok body <->
                fst (send cmd (s3 w)) = Ok (GetObjectOutput (Some body))) /\
  (fst (send cmd (s3 w)) = Ok (GetObjectOutput None) ->
   fst out = Throw (S3ServiceError
                      "Failed to download object from S3: Empty response body from S3"
                      "S3_DOWNLOAD_ERROR" 500)) /\
  (forall e, fst out = Throw e ->
     err_name e = "S3ServiceError" /\
     exists code status,
       err_code e = Some code /\ err_statusCode e = Some status /\
       In (code, status)
         [("OBJECT_NOT_FOUND", 404); ("BUCKET_NOT_FOUND", 404);
          ("ACCESS_DENIED", 403); ("S3_DOWNLOAD_ERROR", 500)]) /\
  (forall e0, fst (send cmd (s3 w)) = Throw e0 -> err_name e0 = "NoSuchKey" ->
     fst out = Throw (S3ServiceError ("Object not found: " +:+ s3_url bucket key)
                        "OBJECT_NOT_FOUND" 404)).
Proof.
  intros cmd out. subst cmd out.
  unfold getObject, try_catch, bindM, client_send, ret, throw.
  destruct (send (GetObjectCommand bucket key) (s3 w)) as [r s'] eqn:E. simpl.
  destruct r as [[[body|]|]|e0]; simpl.
  - split; [reflexivity|]. split; [intros b; split; congruence|].
    split; [discriminate|]. split; discriminate.
  - split; [reflexivity|]. split; [intros b; split; discriminate|].
    split; [reflexivity|]. split; [|discriminate].
    intros e [= <-]. split; [reflexivity|]. eexists _, _. simpl.
    split; [reflexivity|]. split; [reflexivity|]. tauto.
  - split; [reflexivity|]. split; [intros b; split; discriminate|].
    split; [discriminate|]. split; [|discriminate].
    intros e [= <-]. split; [reflexivity|]. eexists _, _. simpl.
    split; [reflexivity|]. split; [reflexivity|]. tauto.
  - destruct (String.eqb (err_name e0) "NoSuchKey") eqn:E1; simpl;
      [|destruct (String.eqb (err_name e0) "NoSuchBucket") eqn:E2; simpl;
        [|destruct (String.eqb (err_name e0) "AccessDenied") eqn:E3; simpl]].
    all: split; [reflexivity|]. all: split; [intros b; split; discriminate|].
    all: split; [discriminate|]. all: split.
    all: try (intros e [= <-]; split; [reflexivity|]; eexists _, _; simpl;
              split; [reflexivity|]; split; [reflexivity|]; tauto).
    all: intros e1 [= <-] Hn; try reflexivity.
    all: rewrite Hn in *; discriminate.
Qed.


(** [objectExists] answers [true] when the storage answers the probe,
    [false] when the client reports a missing key, and passes every
    other failure of the client on unchanged. *)
Lemma objectExists_spec (bucket key : string) (w : World S3W) :
  let cmd := GetObjectCommand bucket key in
  let out := objectExists send bucket key w in
  snd out = mkWorld (jobs w) (snd (send cmd (s3 w))) (sink w) (clock w)
              (trace w ++ [EvSend cmd]) /\
  (fst out = Ok true <-> is_ok (fst (send cmd (s3 w))) = true) /\
  (fst out = Ok false <->
   exists e, fst (send cmd (s3 w)) = Throw e /\
             (err_name e = "NoSuchKey" \/ err_name e = "NotFound")) /\
  (forall e, fst out = Throw e <->
             fst (send cmd (s3 w)) = Throw e /\
             err_name e <> "NoSuchKey" /\ err_name e <> "NotFound").
Proof.
  intros cmd out. subst cmd out.
  unfold objectExists, try_catch, bindM, client_send, ret, throw.
  destruct (send (GetObjectCommand bucket key) (s3 w)) as [r s'] eqn:E. simpl.
  destruct r as [o|e0]; simpl.
  - split; [reflexivity|]. split; [tauto|]. split.
    + split; [discriminate | intros (e & H & _); discriminate H].
    + intros e. split; [discriminate | intros (H & _); discriminate H].
  - destruct (String.eqb (err_name e0) "NoSuchKey") eqn:E1; simpl;
      [|destruct (String.eqb (err_name e0) "NotFound") eqn:E2; simpl].
    + apply String.eqb_eq in E1.
      split; [reflexivity|]. split; [split; discriminate|]. split.
      * split; [intros _; exists e0; auto | reflexivity].
      * intros e. split; [discriminate|]. intros ([= <-] & H & _). contradiction.
    + apply String.eqb_eq in E2.
      split; [reflexivity|]. split; [split; discriminate|]. split.
      * split; [intros _; exists e0; auto | reflexivity].
      * intros e. split; [discriminate|]. intros ([= <-] & _ & H). contradiction.
    + apply String.eqb_neq in E1, E2.
      split; [reflexivity|]. split; [split; discriminate|]. split.
      * split; [discriminate|]. intros (e & [= <-] & [H|H]); contradiction.
      * intros e. split.
        -- intros [= <-]. auto.
        -- intros ([= <-] & _). reflexivity.
Qed.

(** X15: when the probe of the destination fails with anything but a missing
    key, the S3 endpoint answers from that failure as the storage client
    raised it, and sends nothing else: no download, no upload. *)
Theorem postRedactS3_probe_failure (body : S3RedactionRequest) (w : World S3W)
    (e : JsError) :
  s3RedactionRequestSchema body = true ->
  fst (send (probe body) (s3 w)) = Throw e ->
  err_name e <> "NoSuchKey" -> err_name e <> "NotFound" ->
  let out :=
    postRedactS3 send redactImage number_toString JSON_stringify sha256_hex
      s3_issues body w in
  fst out = Ok (S3Failure (default 500 (err_statusCode (normalizeError e)))
                  (default EmptyString (err_code (normalizeError e)))
                  (err_message e)) /\
  trace (snd out) = trace w ++ [EvSend (probe body)].
Proof.
  intros Hs Hp Hn1 Hn2 out.
  destruct (objectExists_spec (out_bucket (output body)) (out_key (output body)) w)
    as (Hw & _ & _ & Hthrow).
  fold (probe body) in Hw, Hthrow.
  assert (Hout : out
                 = (Ok (S3Failure (default 500 (err_statusCode (normalizeError e)))
                          (default EmptyString (err_code (normalizeError e)))
                          (err_message e)),
                    mkWorld (jobs w) (snd (send (probe body) (s3 w))) (sink w)
                      (clock w) (trace w ++ [EvSend (probe body)]))).
  { subst out. unfold postRedactS3, s3RedactionRequestSchema_parse. rewrite Hs.
    unfold try_catch at 1. unfold bindM at 1.
    destruct (objectExists send (out_bucket (output body)) (out_key (output body)) w)
      as [r w'] eqn:Eo.
    simpl in Hw, Hthrow.
    assert (Hr : r = Throw e) by (apply Hthrow; auto).
    subst r w'. unfold ret. now rewrite normalizeError_message. }
  rewrite Hout. split; reflexivity.
Qed.

Ltac split_handler :=
  match goal with
  | |- context [send ?c ?s] =>
      let r := fresh "r" in let s' := fresh "s" in let E := fresh "E" in
      destruct (send c s) as [r s'] eqn:E; simpl
  | |- context [redactImage ?a ?b ?c] =>
      let E := fresh "E" in destruct (redactImage a b c) eqn:E; simpl
  | |- context [match ?x with Ok _ => _ | Throw _ => _ end] =>
      destruct x; simpl
  | |- context [match ?x with GetObjectOutput _ => _ | PutObjectOutput => _ end] =>
      destruct x as [[?|]|]; simpl
  | |- context [if ?b then _ else _] =>
      let E := fresh "E" in destruct b eqn:E; simpl
  end.

(** X16: the S3 endpoint never changes the job store, uploads at most once, and
    what it uploads is the buffer that the redaction service returned for
    the request's regions and output options, written to the requested
    destination with the content type of its format. *)
Theorem postRedactS3_uploads_only_the_result (body : S3RedactionRequest)
    (w : World S3W) :
  let out :=
    postRedactS3 send redactImage number_toString JSON_stringify sha256_hex
      s3_issues body w in
  exists new,
    trace (snd out) = trace w ++ new /\
    jobs (snd out) = jobs w /\
    (length (omap is_put new) <= 1)%nat /\
    forall b k buffer ct md,
      In (EvSend (PutObjectCommand b k buffer ct md)) new ->
      b = out_bucket (output body) /\ k = out_key (output body) /\
      exists inputBuffer processed,
        redactImage inputBuffer (regions body)
          (mkOptions (Some (format (output body))) (quality (output body)))
        = Ok processed /\
        buffer = pi_buffer processed /\
        ct = Some (getContentTypeForFormat (pi_format processed)).
Proof.
  intros out. subst out.
  unfold postRedactS3, s3RedactionRequestSchema_parse, try_catch, bindM,
    objectExists,
    try_catch, bindM, client_send, getObject, putObject, try_catch, bindM,
    client_send, lift, ret, throw.
  destruct (s3RedactionRequestSchema body) eqn:Eschema; simpl.
  2: { exists []. split; [symmetry; apply app_nil_r|].
       split; [reflexivity|]. split; [simpl; lia|].
       intros pb pk pbuffer pct pmd []. }
  repeat split_handler.
  all: rewrite <- ?app_assoc; simpl.
  all: eexists; split; [first [reflexivity | symmetry; apply app_nil_r]|].
  all: split; [reflexivity|]. all: split; [simpl; lia|].
  all: simpl; intros pb pk pbuffer pct pmd Hin.
  all: repeat (destruct Hin as [Hin|Hin]; [try discriminate Hin|]);
    try contradiction.
  all: injection Hin as <- <- <- <- <-; eauto 8.
Qed.

(** X17: a request whose destination is absent and whose input object is
    missing is answered after the probe and the failed download, without
    any upload.  The status is 404 with code [S3_ERROR] when the address of
    the input contains none of the words by which [normalizeError]
    recognises other failures; an address that contains [MIME] or
    [Unsupported] makes the same failure a 415, and one that contains
    [exceeds maximum] a 413. *)
Theorem postRedactS3_input_missing (body : S3RedactionRequest) (w : World S3W)
    (e0 e1 : JsError) :
  let download := GetObjectCommand (bucket (input body)) (key (input body)) in
  let message :=
    "Object not found: " +:+ s3_url (bucket (input body)) (key (input body)) in
  let out :=
    postRedactS3 send redactImage number_toString JSON_stringify sha256_hex
      s3_issues body w in
  s3RedactionRequestSchema body = true ->
  fst (send (probe body) (s3 w)) = Throw e0 -> err_name e0 = "NoSuchKey" ->
  fst (send download (snd (send (probe body) (s3 w)))) = Throw e1 ->
  err_name e1 = "NoSuchKey" ->
  trace (snd out) = trace w ++ [EvSend (probe body); EvSend download] /\
  fst out
  = Ok (if includes message "exceeds maximum" then
          S3Failure 413 "LIMIT_EXCEEDED" message
        else if includes message "MIME" || includes message "Unsupported" then
          S3Failure 415 "UNSUPPORTED_MEDIA" message
        else S3Failure 404 "S3_ERROR" message).
Proof.
  intros download message out Hs Hp Hn0 Hd Hn1. subst out download message.
  unfold postRedactS3, s3RedactionRequestSchema_parse. rewrite Hs.
  unfold try_catch, bindM, objectExists, try_catch, bindM, client_send,
    getObject, try_catch, bindM, client_send, ret, throw.
  unfold probe in Hp, Hd.
  destruct (send (GetObjectCommand (out_bucket (output body)) (out_key (output body)))
              (s3 w)) as [r0 s0] eqn:E0.
  simpl in Hp, Hd. subst r0. rewrite Hn0. simpl.
  destruct (send (GetObjectCommand (bucket (input body)) (key (input body))) s0)
    as [r1 s1] eqn:E1.
  simpl in Hd. subst r1. simpl. rewrite Hn1. simpl.
  rewrite <- app_assoc. split; [reflexivity|].
  unfold normalizeError, S3ServiceError. simpl.
  destruct (includes _ "exceeds maximum"); [reflexivity|].
  destruct (includes _ "MIME" || includes _ "Unsupported"); reflexivity.
Qed.

End Storage.

Section StorageScenarios.
Import Schemas JobStore Service Scenario.

Lemma postRedactS3_probe_failure_witness :
  let body := request_for "a" in
  let w := mkWorld [] (MemoryS3.mkStore ∅ ∅) [] 0 [] in
  let out :=
    postRedactS3 MemoryS3.send MemoryS3.redactImage MemoryS3.number_toString
      MemoryS3.JSON_stringify MemoryS3.sha256_hex MemoryS3.s3_issues body w in
  fst out = Ok (S3Failure
                  (default 500 (err_statusCode (normalizeError MemoryS3.NoSuchBucket)))
                  (default EmptyString (err_code (normalizeError MemoryS3.NoSuchBucket)))
                  (err_message MemoryS3.NoSuchBucket)) /\
  trace (snd out) = trace w ++ [EvSend (probe body)].
Proof.
  apply (postRedactS3_probe_failure MemoryS3.Store MemoryS3.send MemoryS3.redactImage
           MemoryS3.number_toString MemoryS3.JSON_stringify MemoryS3.sha256_hex
           MemoryS3.s3_issues
           (request_for "a") (mkWorld [] (MemoryS3.mkStore ∅ ∅) [] 0 [])
           MemoryS3.NoSuchBucket);
    first [reflexivity | discriminate].
Defined.

Lemma postRedactS3_input_missing_witness :
  let body := request_for "a" in
  let w := mkWorld [] (MemoryS3.mkStore {["in"; "out"]} ∅) [] 0 [] in
  let out :=
    postRedactS3 MemoryS3.send MemoryS3.redactImage MemoryS3.number_toString
      MemoryS3.JSON_stringify MemoryS3.sha256_hex MemoryS3.s3_issues body w in
  trace (snd out)
  = [EvSend (GetObjectCommand "out" "a.webp"); EvSend (GetObjectCommand "in" "a.png")] /\
  fst out = Ok (S3Failure 404 "S3_ERROR" "Object not found: s3://in/a.png").
Proof.
  apply (postRedactS3_input_missing MemoryS3.Store MemoryS3.send MemoryS3.redactImage
           MemoryS3.number_toString MemoryS3.JSON_stringify MemoryS3.sha256_hex
           MemoryS3.s3_issues
           (request_for "a") (mkWorld [] (MemoryS3.mkStore {["in"; "out"]} ∅) [] 0 [])
           MemoryS3.NoSuchKey MemoryS3.NoSuchKey);
    reflexivity.
Defined.

End StorageScenarios.

(** * Properties of the job store: lookups, frames and identifiers *)

Section StoreMap.
Import Schemas JobStore Scenario.

Lemma map_get_set_ne k k' v m :
  k' <> k -> map_get k' (map_set k v m) = map_get k' m.
Proof.
  intros Hne. induction m as [|[k0 v0] m IH]; simpl.
  - destruct (String.eqb k k') eqn:E; [apply String.eqb_eq in E; congruence|].
    reflexivity.
  - destruct (String.eqb k0 k) eqn:E; simpl.
    + apply String.eqb_eq in E. subst k0.
      destruct (String.eqb k k') eqn:E'; [apply String.eqb_eq in E'; congruence|].
      reflexivity.
    + now rewrite IH.
Qed.

Lemma map_get_In k m v : map_get k m = Some v -> In (k, v) m.
Proof.
  induction m as [|[k0 v0] m IH]; simpl; [discriminate|].
  destruct (String.eqb k0 k) eqn:E.
  - apply String.eqb_eq in E. intros [= <-]. left. congruence.
  - auto.
Qed.

Lemma map_get_None k m : map_get k m = None <-> ~ In k (job_ids m).
Proof.
  unfold job_ids. induction m as [|[k0 v0] m IH]; simpl; [tauto|].
  destruct (String.eqb k0 k) eqn:E.
  - apply String.eqb_eq in E. split; [discriminate | intros H; exfalso; auto].
  - apply String.eqb_neq in E. rewrite IH. tauto.
Qed.

Lemma map_set_ids_present k v m :
  In k (job_ids m) -> job_ids (map_set k v m) = job_ids m.
Proof.
  unfold job_ids. induction m as [|[k0 v0] m IH]; simpl; [tauto|].
  destruct (String.eqb k0 k) eqn:E; simpl.
  - apply String.eqb_eq in E. congruence.
  - apply String.eqb_neq in E. intros [H|H]; [congruence|]. now rewrite IH.
Qed.

Lemma map_set_ids_absent k v m :
  ~ In k (job_ids m) -> job_ids (map_set k v m) = job_ids m ++ [k].
Proof.
  unfold job_ids. induction m as [|[k0 v0] m IH]; simpl; [reflexivity|].
  destruct (String.eqb k0 k) eqn:E; simpl.
  - apply String.eqb_eq in E. intros H. exfalso. auto.
  - intros H. rewrite IH; auto.
Qed.

Lemma map_set_NoDup k v m : NoDup (job_ids m) -> NoDup (job_ids (map_set k v m)).
Proof.
  intros Hnd. destruct (in_dec String.string_dec k (job_ids m)) as [Hin|Hin].
  - rewrite (map_set_ids_present k v m Hin). exact Hnd.
  - rewrite (map_set_ids_absent k v m Hin).
    apply NoDup_app. split; [exact Hnd|]. split.
    + intros x Hx Hk. apply list_elem_of_In in Hx.
      apply list_elem_of_In in Hk. destruct Hk as [<-|[]]. contradiction.
    + apply NoDup_singleton.
Qed.

Lemma filter_ids_NoDup (p : string * Job -> bool) m :
  NoDup (job_ids m) -> NoDup (job_ids (List.filter p m)).
Proof.
  unfold job_ids. induction m as [|e m IH]; simpl; [auto|].
  rewrite !NoDup_cons. intros [Hn Hnd]. destruct (p e); simpl; auto.
  rewrite NoDup_cons. split; auto.
  intros Hin. apply Hn. apply list_elem_of_In. apply list_elem_of_In in Hin.
  apply in_map_iff in Hin. destruct Hin as (e' & He & Hin).
  apply filter_In in Hin. apply in_map_iff. exists e'. tauto.
Qed.

Lemma map_get_delete k m : map_get k (map_delete k m) = None.
Proof.
  unfold map_delete. induction m as [|[k0 v0] m IH]; simpl; [reflexivity|].
  destruct (String.eqb k0 k) eqn:E; simpl; [exact IH|]. now rewrite E.
Qed.

Lemma map_get_delete_ne k k' m :
  k' <> k -> map_get k' (map_delete k m) = map_get k' m.
Proof.
  intros Hne. unfold map_delete. induction m as [|[k0 v0] m IH]; simpl; [reflexivity|].
  destruct (String.eqb k0 k) eqn:E; simpl.
  - apply String.eqb_eq in E. subst k0.
    destruct (String.eqb k k') eqn:E'; [apply String.eqb_eq in E'; congruence|].
    exact IH.
  - now rewrite IH.
Qed.

Lemma map_delete_length k m :
  NoDup (job_ids m) ->
  Z.of_nat (length (map_delete k m))
  = Z.of_nat (length m) - match map_get k m with Some _ => 1 | None => 0 end.
Proof.
  unfold map_delete, job_ids. induction m as [|[k0 v0] m IH]; simpl; [lia|].
  rewrite NoDup_cons. intros [Hn Hnd].
  destruct (String.eqb k0 k) eqn:E; simpl.
  - apply String.eqb_eq in E. subst k0.
    assert (Hnone : map_get k m = None).
    { apply map_get_None. intros H. apply Hn. apply list_elem_of_In. exact H. }
    specialize (IH Hnd). rewrite Hnone in IH. lia.
  - specialize (IH Hnd). lia.
Qed.

(** X18: [deleteJob] reports whether the job was there, removes it and nothing
    else, and makes the store one job smaller when it was there. *)
Theorem deleteJob_spec (jobId : string) (jobs : JobMap) :
  let found := fst (deleteJob jobId jobs) in
  let jobs' := snd (deleteJob jobId jobs) in
  (found = true <-> getJob jobId jobs <> None) /\
  getJob jobId jobs' = None /\
  (forall other, other <> jobId -> getJob other jobs' = getJob other jobs) /\
  (NoDup (job_ids jobs) ->
   getJobCount jobs' = getJobCount jobs - (if found then 1 else 0)).
Proof.
  intros found jobs'. subst found jobs'. unfold deleteJob, getJob, getJobCount; simpl.
  split; [|split; [|split]].
  - rewrite bool_decide_eq_true. destruct (map_get jobId jobs); split;
      try congruence; eauto. intros [x H]. discriminate H.
  - apply map_get_delete.
  - intros other Hne. now apply map_get_delete_ne.
  - intros Hnd. unfold map_size. rewrite (map_delete_length jobId jobs Hnd).
    destruct (map_get jobId jobs) eqn:E.
    + rewrite bool_decide_eq_true_2 by eauto. reflexivity.
    + rewrite bool_decide_eq_false_2; [reflexivity|]. intros [x H]. discriminate H.
Qed.


Lemma find_item_In itemId (items : list JobItem) :
  (exists k item, list_find (fun it => item_id it = itemId) items = Some (k, item))
  <-> In itemId (map item_id items).
Proof.
  split.
  - intros (k & item & Hf). apply list_find_Some in Hf.
    destruct Hf as (Hl & Hid & _). apply in_map_iff. exists item.
    split; [exact Hid|]. apply list_elem_of_In. eapply list_elem_of_lookup_2. eauto.
  - intros Hin. apply in_map_iff in Hin. destruct Hin as (item & Hid & Hin).
    apply list_elem_of_In in Hin.
    destruct (list_find (fun it => item_id it = itemId) items) as [[k it]|] eqn:E;
      [eauto|].
    exfalso. rewrite list_find_None in E. rewrite Forall_forall in E.
    exact (E item Hin Hid).
Qed.

(** X19: the errors of [updateJobItem]: an unknown job and an unknown item are
    reported by an exception that names them; with the job in the store and
    the item among its items the update succeeds. *)
Theorem updateJobItem_errors (now : Z) (jobId itemId : string)
    (update : ItemUpdate) (jobs : JobMap) :
  (getJob jobId jobs = None ->
   updateJobItem now jobId itemId update jobs
   = Throw (mkError "Error" ("Job " +:+ jobId +:+ " not found"))) /\
  (forall job, getJob jobId jobs = Some job ->
     (~ In itemId (map item_id (job_items job)) ->
      updateJobItem now jobId itemId update jobs
      = Throw (mkError "Error"
                 ("Job item " +:+ itemId +:+ " not found in job " +:+ jobId))) /\
     (In itemId (map item_id (job_items job)) ->
      exists jobs', updateJobItem now jobId itemId update jobs = Ok jobs')).
Proof.
  unfold updateJobItem, getJob. split.
  - intros ->. reflexivity.
  - intros job ->. split.
    + intros Hn.
      destruct (list_find _ (job_items job)) as [[k item]|] eqn:E; [|reflexivity].
      exfalso. apply Hn. apply find_item_In. eauto.
    + intros Hin. apply find_item_In in Hin. destruct Hin as (k & item & ->). eauto.
Qed.

(** X20: a successful [updateJobItem] keeps the identifiers of the store in
    their order and leaves every other job as it was.  In the job itself
    the identifier, the creation time, the webhook address, the total and
    the number of items stay; exactly one item is replaced, the first one
    whose [id] is [itemId], by its merge with the update, and every other
    item stays as it was.  The merge takes each field that the update
    carries from the update, the [id] and the [request] too: the method
    keeps them only for an update that does not carry them. *)
Theorem updateJobItem_frame (now : Z) (jobId itemId : string)
    (update : ItemUpdate) (jobs jobs' : JobMap) :
  updateJobItem now jobId itemId update jobs = Ok jobs' ->
  job_ids jobs' = job_ids jobs /\
  (forall other, other <> jobId -> getJob other jobs' = getJob other jobs) /\
  exists job job' k item,
    getJob jobId jobs = Some job /\ getJob jobId jobs' = Some job' /\
    job_id job' = job_id job /\ createdAt job' = createdAt job /\
    webhookUrl job' = webhookUrl job /\
    total (progress job') = total (progress job) /\
    length (job_items job') = length (job_items job) /\
    job_items job !! k = Some item /\ item_id item = itemId /\
    (forall j earlier, (j < k)%nat -> job_items job !! j = Some earlier ->
                       item_id earlier <> itemId) /\
    job_items job' !! k = Some (merge_item item update) /\
    (forall j, j <> k -> job_items job' !! j = job_items job !! j) /\
    item_id (merge_item item update) = default itemId (u_id update) /\
    item_request (merge_item item update)
    = default (item_request item) (u_request update).
Proof.
  intros Hu. destruct (updateJobItem_Ok _ _ _ _ _ _ Hu) as (job & k & item & Hget & Hfind & ->).
  pose proof Hfind as Hf. apply list_find_Some in Hf. destruct Hf as (Hl & Hid & Hfirst).
  split; [|split].
  - apply map_set_ids_present. apply in_map_iff. exists (jobId, job).
    split; [reflexivity|]. now apply map_get_In.
  - intros other Hne. unfold getJob. now apply map_get_set_ne.
  - exists job, (step_job now job k item update), k, item.
    split; [exact Hget|]. split; [apply getJob_set|].
    assert (Hfields :
              job_id (step_job now job k item update) = job_id job /\
              createdAt (step_job now job k item update) = createdAt job /\
              webhookUrl (step_job now job k item update) = webhookUrl job /\
              total (progress (step_job now job k item update))
              = total (progress job)).
    { unfold step_job, updateJobProgress; simpl.
      repeat match goal with |- context [if ?b then _ else _] => destruct b end;
        simpl; auto. }
    destruct Hfields as (H1 & H2 & H3 & H4).
    rewrite step_job_items, length_insert.
    split; [exact H1|]. split; [exact H2|]. split; [exact H3|].
    split; [exact H4|]. split; [reflexivity|]. split; [exact Hl|].
    split; [exact Hid|]. split; [intros j earlier Hj Hearlier; eauto|].
    split; [apply list_lookup_insert_eq; eapply lookup_lt_Some; eauto|].
    split; [intros j Hj; apply list_lookup_insert_ne; auto|].
    simpl. rewrite Hid. auto.
Qed.

Lemma updateJobItem_frame_witness :
  let update :=
    mkUpdate (Some "renamed") None (Some Processing) None None (Some 1) None in
  exists jobs',
    updateJobItem 1 "job" "job-0" update single_job_store = Ok jobs' /\
    job_ids jobs' = job_ids single_job_store /\
    (forall other, other <> "job" ->
       getJob other jobs' = getJob other single_job_store) /\
    exists job job' k item,
      getJob "job" single_job_store = Some job /\ getJob "job" jobs' = Some job' /\
      job_id job' = job_id job /\ createdAt job' = createdAt job /\
      webhookUrl job' = webhookUrl job /\
      total (progress job') = total (progress job) /\
      length (job_items job') = length (job_items job) /\
      job_items job !! k = Some item /\ item_id item = "job-0" /\
      (forall j earlier, (j < k)%nat -> job_items job !! j = Some earlier ->
                         item_id earlier <> "job-0") /\
      job_items job' !! k = Some (merge_item item update) /\
      (forall j, j <> k -> job_items job' !! j = job_items job !! j) /\
      item_id (merge_item item update) = default "job-0" (u_id update) /\
      item_request (merge_item item update)
      = default (item_request item) (u_request update).
Proof.
  intros update. eexists. split; [reflexivity|].
  apply (updateJobItem_frame 1 "job" "job-0" update single_job_store).
  reflexivity.
Defined.

End StoreMap.

(** * Properties of the job store: the progress record as a census *)

Section Census.
Import Schemas JobStore Scenario.

Lemma filter_length_insert {A} (p : A -> bool) (l : list A) k a a' :
  l !! k = Some a ->
  Z.of_nat (length (List.filter p (<[k := a']> l)))
  = Z.of_nat (length (List.filter p l)) - Z.b2z (p a) + Z.b2z (p a').
Proof.
  revert k. induction l as [|b l IH]; intros [|k]; simpl; try discriminate.
  - intros [= <-]. destruct (p b), (p a'); simpl; lia.
  - intros Hl. specialize (IH k Hl). destruct (p b); simpl; lia.
Qed.

Lemma count_status_split l :
  count_status Pending l + count_status Processing l
  + count_status Completed l + count_status Failed l = Z.of_nat (length l).
Proof.
  unfold count_status. induction l as [|a l IH]; simpl; [reflexivity|].
  destruct (item_status a); simpl; lia.
Qed.

(** X21: one transition changes the [pending] figure by the item it touches
    alone: it goes down by one when a pending or processing item is
    completed or failed, up by one when a completed or failed item is
    started again, and stays otherwise.  So it never goes up as long as no
    finished item is restarted. *)
Theorem apply_call_pending_step (now : Z) (jobId : string) (c : ItemCall)
    (jobs jobs' : JobMap) (job : Job) :
  apply_call now jobId c jobs = Ok jobs' ->
  getJob jobId jobs = Some job ->
  counts_exact job ->
  exists job' item,
    getJob jobId jobs' = Some job' /\
    In item (job_items job) /\ item_id item = call_item c /\
    pending job'
    = pending job + Z.b2z (terminal_item item)
      - match c with Start _ => 0 | _ => 1 end /\
    (restart_free c job = true -> pending job' <= pending job).
Proof.
  intros Hc Hget (Ht & Hcm & Hf).
  destruct (apply_call_Ok _ _ _ _ _ Hc) as (job0 & k & item & Hget0 & Hfind & ->).
  rewrite Hget in Hget0. injection Hget0 as <-.
  pose proof Hfind as Hfs. apply list_find_Some in Hfs.
  destruct Hfs as (Hl & Hid & _).
  destruct (step_job_spec now job k item (call_update now c) Ht)
    as (Hwf1 & Hi & Hcm1 & Hf1 & _).
  set (job1 := step_job now job k item (call_update now c)) in *.
  exists job1, item. split; [apply getJob_set|].
  split; [apply list_elem_of_In; eapply list_elem_of_lookup_2; eauto|].
  split; [exact Hid|].
  assert (Hp : pending job1
               = pending job + Z.b2z (terminal_item item)
                 - match c with Start _ => 0 | _ => 1 end).
  { unfold pending. rewrite Hcm1, Hf1, Hcm, Hf. unfold wf_job in Hwf1.
    rewrite Hwf1, Hi, Ht. simpl. rewrite length_insert.
    pose proof (count_status_terminal (job_items job)) as H0.
    pose proof (count_status_terminal
                  (<[k := merge_item item (call_update now c)]> (job_items job))) as H1.
    rewrite (filter_length_insert terminal_item _ _ item _ Hl) in H1.
    assert (Hnew : Z.b2z (terminal_item (merge_item item (call_update now c)))
                   = match c with Start _ => 0 | _ => 1 end).
    { destruct c; reflexivity. }
    rewrite Hnew in H1. lia. }
  split; [exact Hp|].
  intros Hg. rewrite Hp. destruct c; simpl in *.
  - rewrite Hfind in Hg. unfold terminal_item.
    destruct (is_terminal (item_status item)); [discriminate Hg | simpl; lia].
  - destruct (terminal_item item); simpl; lia.
  - destruct (terminal_item item); simpl; lia.
Qed.

Lemma apply_call_pending_step_witness :
  let c := Complete "job-0" (response_for "a") in
  exists job' item,
    getJob "job" (store_after start_then_complete) = Some job' /\
    In item (job_items started_job) /\ item_id item = call_item c /\
    pending job'
    = pending started_job + Z.b2z (terminal_item item)
      - match c with Start _ => 0 | _ => 1 end /\
    (restart_free c started_job = true -> pending job' <= pending started_job).
Proof.
  apply (apply_call_pending_step 2 "job" (Complete "job-0" (response_for "a"))
           (store_after [(1, Start "job-0")]) (store_after start_then_complete)
           started_job);
    [reflexivity | reflexivity | repeat split].
Defined.

End Census.

(** * Properties of the job store: the stores that can be reached *)

Section Reachable.
Import Schemas JobStore Scenario.

Lemma count_status_none s (l : list JobItem) :
  (forall item, In item l -> item_status item <> s) -> count_status s l = 0.
Proof.
  unfold count_status. induction l as [|a l IH]; simpl; intros H; [reflexivity|].
  destruct (status_eqb (item_status a) s) eqn:E.
  - exfalso. apply (H a (or_introl eq_refl)).
    destruct (item_status a), s; simpl in E; congruence.
  - apply IH. auto.
Qed.

Lemma new_items_pending jobId requests item :
  In item (imap (new_item jobId) requests) -> item_status item = Pending.
Proof.
  intros Hin. apply list_elem_of_In in Hin. apply list_elem_of_lookup in Hin.
  destruct Hin as (k & Hk). rewrite list_lookup_imap in Hk.
  destruct (requests !! k); simpl in Hk; [|discriminate].
  injection Hk as <-. reflexivity.
Qed.

Lemma new_job_ok now jobId requests webhook jobs :
  job_ok (jobId, fst (createJob now jobId requests webhook jobs)).
Proof.
  unfold job_ok, counts_exact; simpl. split; [reflexivity|]. split.
  - rewrite length_imap. split; [reflexivity|].
    split; symmetry; apply count_status_none; intros item Hin;
      rewrite (new_items_pending _ _ _ Hin); discriminate.
  - apply ids_ok_new.
Qed.

Lemma updateJobProgress_id now job : job_id (updateJobProgress now job) = job_id job.
Proof.
  unfold updateJobProgress.
  repeat match goal with
         | |- context [if ?b then _ else _] => destruct b
         end; reflexivity.
Qed.

Lemma step_job_ok now jobId job k item update :
  job_ok (jobId, job) -> job_items job !! k = Some item ->
  u_id update = None ->
  job_ok (jobId, step_job now job k item update).
Proof.
  intros (Hid & (Ht & Hc & Hf) & Hids) Hl Hu. simpl in *.
  destruct (step_job_spec now job k item update Ht) as (Hwf1 & Hi & Hc1 & Hf1 & _).
  unfold job_ok, counts_exact; simpl. split; [|split].
  - unfold step_job. now rewrite updateJobProgress_id.
  - split; [exact Hwf1|]. rewrite Hi. auto.
  - rewrite step_job_items. eapply ids_ok_insert; eauto.
    simpl. now rewrite Hu.
Qed.

Lemma map_set_size_present k v m :
  In k (job_ids m) -> map_size (map_set k v m) = map_size m.
Proof.
  intros Hin. unfold map_size.
  rewrite <- (length_map fst (map_set k v m)), <- (length_map fst m).
  fold (job_ids (map_set k v m)). fold (job_ids m).
  now rewrite map_set_ids_present.
Qed.

Lemma map_set_ok k v m :
  store_ok m -> In k (job_ids m) -> job_ok (k, v) -> store_ok (map_set k v m).
Proof.
  intros (Hnd & Hsize & Hall) Hin Hv. split; [|split].
  - now apply map_set_NoDup.
  - now rewrite map_set_size_present.
  - intros e He. apply map_set_In in He. destruct He as [->|He]; auto.
Qed.

Lemma getJob_ids k m job : getJob k m = Some job -> In k (job_ids m).
Proof.
  intros H. apply map_get_In in H. unfold job_ids.
  apply in_map_iff. exists (k, job). auto.
Qed.

Lemma filter_ok (p : string * Job -> bool) m :
  store_ok m -> store_ok (List.filter p m).
Proof.
  intros (Hnd & Hsize & Hall). split; [|split].
  - now apply filter_ids_NoDup.
  - unfold map_size in *. pose proof (proj1 (filter_length_all p m)). lia.
  - intros e He. apply filter_In in He. apply Hall. tauto.
Qed.

Lemma run_op_ok jobs op : store_ok jobs -> store_ok (run_op jobs op).
Proof.
  intros Hok. destruct op as [now jobId requests webhook|now jobId status|now jobId c|jobId];
    simpl.
  - assert (Hclean : store_ok (cleanupOldJobs now jobs)).
    { unfold cleanupOldJobs. rewrite fold_delete_filter. now apply filter_ok. }
    destruct Hok as (Hnd & Hsize & Hall). destruct Hclean as (Hnd' & _ & Hall').
    split; [|split].
    + now apply map_set_NoDup.
    + apply (createJob_size now jobId requests webhook jobs Hsize).
    + intros e He. apply map_set_In in He. destruct He as [->|He]; auto.
      apply (new_job_ok now jobId requests webhook jobs).
  - unfold updateJobStatus.
    destruct (map_get jobId jobs) as [job|] eqn:Eg; [|exact Hok].
    apply map_set_ok; [exact Hok | now apply (getJob_ids _ _ job) |].
    destruct Hok as (_ & _ & Hall).
    exact (Hall (jobId, job) (map_get_In _ _ _ Eg)).
  - destruct (apply_call now jobId c jobs) as [jobs'|e] eqn:Ec; [|exact Hok].
    destruct (apply_call_Ok _ _ _ _ _ Ec) as (job & k & item & Hget & Hfind & ->).
    apply list_find_Some in Hfind. destruct Hfind as (Hl & _ & _).
    apply map_set_ok; [exact Hok | now apply (getJob_ids _ _ job) |].
    apply step_job_ok; [|exact Hl|destruct c; reflexivity].
    destruct Hok as (_ & _ & Hall).
    exact (Hall (jobId, job) (map_get_In _ _ _ Hget)).
  - unfold map_delete. now apply filter_ok.
Qed.

(** X22: in every store that the methods of the store can reach from the empty
    store, in whatever order and with whatever arguments they are called,
    the job identifiers are pairwise distinct, there are at most
    [MAX_JOBS + 1] jobs, and every job is filed under its own identifier,
    has a progress record that is the census of its items, and has items
    numbered after the job. *)
Theorem store_reachable_invariant (ops : list StoreOp) :
  let jobs := run_ops ops in
  NoDup (job_ids jobs) /\
  getJobCount jobs <= MAX_JOBS + 1 /\
  forall jobId job,
    getJob jobId jobs = Some job ->
    job_id job = jobId /\
    total (progress job) = Z.of_nat (length (job_items job)) /\
    completed (progress job) = count_status Completed (job_items job) /\
    failed (progress job) = count_status Failed (job_items job) /\
    pending job
    = count_status Pending (job_items job) + count_status Processing (job_items job) /\
    forall k item, job_items job !! k = Some item ->
                   item_id item = jobId +:+ "-" +:+ pretty k.
Proof.
  intros jobs. subst jobs.
  assert (Hok : store_ok (run_ops ops)).
  { unfold run_ops.
    assert (H0 : store_ok []).
    { split; [apply NoDup_nil; exact I|]. split; [vm_compute; discriminate|].
      intros e []. }
    revert H0. generalize (@nil (string * Job)).
    induction ops as [|op ops IH]; intros jobs Hj; simpl; [exact Hj|].
    apply IH. now apply run_op_ok. }
  destruct Hok as (Hnd & Hsize & Hall).
  split; [exact Hnd|]. split; [exact Hsize|].
  intros jobId job Hget.
  destruct (Hall (jobId, job) (map_get_In _ _ _ Hget)) as (Hid & (Ht & Hc & Hf) & Hids).
  simpl in *. split; [exact Hid|]. split; [exact Ht|]. split; [exact Hc|].
  split; [exact Hf|]. split; [|exact Hids].
  unfold pending. pose proof (count_status_split (job_items job)). lia.
Qed.

End Reachable.

(** * Properties of the clean-up *)

Section CleanUp.
Import Schemas JobStore Scenario.

Lemma ids_inj (l : JobMap) a b :
  NoDup (job_ids l) -> In a l -> In b l -> fst a = fst b -> a = b.
Proof.
  unfold job_ids. induction l as [|e l IH]; simpl; [tauto|].
  rewrite NoDup_cons. intros [Hn Hnd] [Ha|Ha] [Hb|Hb] Hf; subst; auto.
  - exfalso. apply Hn. apply list_elem_of_In. rewrite Hf. now apply in_map.
  - exfalso. apply Hn. apply list_elem_of_In. rewrite <- Hf. now apply in_map.
Qed.

Lemma doomed_iff ids (l : JobMap) e :
  doomed ids e = true <-> In (fst e) ids.
Proof.
  unfold doomed. rewrite existsb_exists. split.
  - intros (k & Hin & Heq). apply String.eqb_eq in Heq. congruence.
  - intros Hin. exists (fst e). split; [exact Hin | apply String.eqb_refl].
Qed.

(** X23: in a store within its capacity, the clean-up removes exactly the jobs
    created more than 24 hours ago and keeps the rest in their order. *)
Theorem cleanupOldJobs_within_capacity (now : Z) (jobs : JobMap) :
  NoDup (job_ids jobs) ->
  map_size jobs
  - Z.of_nat (length (List.filter (fun e => expired now (snd e)) jobs)) <= MAX_JOBS ->
  cleanupOldJobs now jobs = List.filter (fun e => negb (expired now (snd e))) jobs.
Proof.
  intros Hnd Hcap. unfold cleanupOldJobs. rewrite fold_delete_filter.
  apply List.filter_ext_in. intros e Hin. f_equal.
  unfold jobsToDelete. rewrite length_map.
  destruct (_ >? _) eqn:E; [lia|].
  destruct (expired now (snd e)) eqn:Ex.
  - apply (doomed_iff _ jobs). apply in_map. apply filter_In. auto.
  - destruct (doomed _ e) eqn:Ed; [|reflexivity].
    apply (doomed_iff _ jobs) in Ed. apply in_map_iff in Ed.
    destruct Ed as (e' & Hf & Hin'). apply filter_In in Hin'.
    destruct Hin' as [Hin' Hex'].
    rewrite (ids_inj jobs e e' Hnd Hin Hin' (eq_sym Hf)) in Ex. congruence.
Qed.

Lemma cleanupOldJobs_within_capacity_witness :
  cleanupOldJobs (JOB_TTL_MS + 2) (fill_store 3)
  = List.filter (fun e => negb (expired (JOB_TTL_MS + 2) (snd e))) (fill_store 3).
Proof.
  apply (cleanupOldJobs_within_capacity (JOB_TTL_MS + 2) (fill_store 3)).
  - compute_done.
  - vm_compute. discriminate.
Defined.


(** Older or as old, by creation time. *)
Lemma insert_by_createdAt_Permutation e l :
  Permutation (insert_by_createdAt e l) (e :: l).
Proof.
  induction l as [|e' l IH]; simpl; [reflexivity|].
  destruct (_ <=? _); [reflexivity|].
  rewrite IH. apply perm_swap.
Qed.

Lemma sort_by_createdAt_Permutation l : Permutation (sort_by_createdAt l) l.
Proof.
  unfold sort_by_createdAt. induction l as [|e l IH]; simpl; [reflexivity|].
  rewrite insert_by_createdAt_Permutation. now rewrite IH.
Qed.

Lemma insert_by_createdAt_sorted e l :
  StronglySorted (fun a b => createdAt (snd a) <= createdAt (snd b)) l ->
  StronglySorted (fun a b => createdAt (snd a) <= createdAt (snd b))
    (insert_by_createdAt e l).
Proof.
  induction l as [|e' l IH]; simpl; intros Hs.
  - constructor; [constructor | constructor].
  - apply StronglySorted_inv in Hs. destruct Hs as [Hs Hall].
    destruct (createdAt (snd e) <=? createdAt (snd e')) eqn:E.
    + apply Z.leb_le in E. constructor.
      * constructor; assumption.
      * constructor; [exact E|].
        eapply Forall_impl; [exact Hall|]. simpl. intros a Ha. lia.
    + apply Z.leb_gt in E. constructor; [now apply IH|].
      rewrite Forall_forall. intros a Ha.
      apply list_elem_of_In in Ha. apply insert_by_createdAt_In in Ha.
      destruct Ha as [->|Ha]; [lia|].
      rewrite Forall_forall in Hall. apply Hall. now apply list_elem_of_In.
Qed.

Lemma sort_by_createdAt_sorted l :
  StronglySorted (fun a b => createdAt (snd a) <= createdAt (snd b))
    (sort_by_createdAt l).
Proof.
  unfold sort_by_createdAt. induction l as [|e l IH]; simpl.
  - constructor.
  - now apply insert_by_createdAt_sorted.
Qed.

Lemma sorted_app_le (l1 l2 : JobMap) :
  StronglySorted (fun a b => createdAt (snd a) <= createdAt (snd b)) (l1 ++ l2) ->
  forall a b, In a l1 -> In b l2 -> createdAt (snd a) <= createdAt (snd b).
Proof.
  induction l1 as [|e l1 IH]; simpl; intros Hs a b Ha Hb; [contradiction|].
  apply StronglySorted_inv in Hs. destruct Hs as [Hs Hall].
  destruct Ha as [<-|Ha]; [|now apply IH].
  rewrite Forall_forall in Hall. apply Hall.
  apply list_elem_of_In. apply in_or_app. now right.
Qed.

Lemma filter_length_Permutation {A} (p : A -> bool) l l' :
  Permutation l l' -> length (List.filter p l) = length (List.filter p l').
Proof.
  induction 1; simpl; auto.
  - destruct (p x); simpl; congruence.
  - destruct (p x), (p y); reflexivity.
  - congruence.
Qed.

Lemma filter_all {A} (p : A -> bool) l :
  (forall a, In a l -> p a = true) -> List.filter p l = l.
Proof.
  induction l as [|a l IH]; simpl; intros H; [reflexivity|].
  rewrite (H a (or_introl eq_refl)). f_equal. apply IH. auto.
Qed.

Lemma filter_none {A} (p : A -> bool) l :
  (forall a, In a l -> p a = false) -> List.filter p l = [].
Proof.
  induction l as [|a l IH]; simpl; intros H; [reflexivity|].
  rewrite (H a (or_introl eq_refl)). apply IH. auto.
Qed.

(** X24: in a store over its capacity in which no job has expired, the clean-up
    brings the store down to exactly [MAX_JOBS] jobs, and every job it
    evicts was created no later than every job it keeps. *)
Theorem cleanupOldJobs_evicts_oldest (now : Z) (jobs : JobMap) :
  NoDup (job_ids jobs) ->
  (forall e, In e jobs -> expired now (snd e) = false) ->
  MAX_JOBS < map_size jobs ->
  let jobs' := cleanupOldJobs now jobs in
  map_size jobs' = MAX_JOBS /\
  (forall e, In e jobs' -> In e jobs) /\
  (forall kept evicted,
     In kept jobs' -> In evicted jobs -> ~ In evicted jobs' ->
     createdAt (snd evicted) <= createdAt (snd kept)).
Proof.
  intros Hnd Hfresh Hover jobs'. subst jobs'.
  unfold cleanupOldJobs. rewrite fold_delete_filter.
  assert (Hold : List.filter (fun e => expired now (snd e)) jobs = []).
  { apply filter_none. exact Hfresh. }
  set (sorted := sort_by_createdAt jobs).
  set (excess := Z.to_nat (map_size jobs - MAX_JOBS)).
  assert (Hdel : jobsToDelete now jobs = map fst (firstn excess sorted)).
  { unfold jobsToDelete. rewrite Hold.
    change (Z.of_nat (length (map fst (@nil (string * Job))))) with 0.
    rewrite Z.sub_0_r.
    assert (E : (map_size jobs >? MAX_JOBS) = true) by lia.
    rewrite E. reflexivity. }
  rewrite Hdel.
  pose proof (sort_by_createdAt_Permutation jobs) as Hperm. fold sorted in Hperm.
  pose proof (sort_by_createdAt_sorted jobs) as Hsorted. fold sorted in Hsorted.
  assert (Hnds : NoDup (job_ids sorted)).
  { unfold job_ids. rewrite (Permutation_map fst Hperm). exact Hnd. }
  assert (Hsplit : sorted = firstn excess sorted ++ skipn excess sorted)
    by (symmetry; apply firstn_skipn).
  assert (Hin_sorted : forall e, In e sorted <-> In e jobs).
  { intros e. apply sort_by_createdAt_In. }
  assert (Hdoom : forall e, In e sorted ->
            (doomed (map fst (firstn excess sorted)) e = true
             <-> In e (firstn excess sorted))).
  { intros e He. rewrite (doomed_iff _ jobs). split.
    - intros Hk. apply in_map_iff in Hk. destruct Hk as (e' & Hf & He').
      assert (He's : In e' sorted).
      { rewrite Hsplit. apply in_or_app. now left. }
      now rewrite (ids_inj sorted e e' Hnds He He's (eq_sym Hf)).
    - intros Hk. now apply in_map. }
  assert (Hdisj : forall e, In e (skipn excess sorted) ->
            ~ In e (firstn excess sorted)).
  { intros e Hs Hf. unfold job_ids in Hnds. rewrite Hsplit, map_app in Hnds.
    apply NoDup_app in Hnds. destruct Hnds as (_ & Hd & _).
    apply (Hd (fst e)); apply list_elem_of_In; now apply in_map. }
  split; [|split].
  - unfold map_size.
    rewrite (filter_length_Permutation _ jobs sorted) by (symmetry; exact Hperm).
    set (P := fun e => negb (doomed (map fst (firstn excess sorted)) e)).
    assert (Hf : List.filter P sorted = skipn excess sorted).
    { transitivity (List.filter P (firstn excess sorted ++ skipn excess sorted));
        [now rewrite <- Hsplit|].
      rewrite List.filter_app.
      rewrite (filter_none P (firstn excess sorted)).
      2: { intros e He. apply negb_false_iff. apply Hdoom; [|exact He].
           rewrite Hsplit. apply in_or_app. now left. }
      rewrite (filter_all P (skipn excess sorted)); [reflexivity|].
      intros e He. apply negb_true_iff.
      destruct (doomed (map fst (firstn excess sorted)) e) eqn:Ed; [|reflexivity].
      exfalso. apply (Hdisj e He). apply Hdoom; [|exact Ed].
      rewrite Hsplit. apply in_or_app. now right. }
    rewrite Hf, length_skipn.
    assert (Hlen : length sorted = length jobs) by apply sort_by_createdAt_length.
    unfold map_size, MAX_JOBS in *. subst excess. lia.
  - intros e He. apply filter_In in He. tauto.
  - intros kept evicted Hk He Hne.
    apply filter_In in Hk. destruct Hk as [Hk Hkd].
    apply negb_true_iff in Hkd.
    assert (Hks : In kept (skipn excess sorted)).
    { assert (H : In kept sorted) by now apply Hin_sorted.
      rewrite Hsplit in H. apply in_app_or in H. destruct H as [H|H]; [|exact H].
      apply Hdoom in H; [congruence | now apply Hin_sorted]. }
    assert (Hes : In evicted (firstn excess sorted)).
    { apply Hdoom; [now apply Hin_sorted|].
      destruct (doomed _ evicted) eqn:Ed; [reflexivity|].
      exfalso. apply Hne. apply filter_In. split; [exact He|]. now rewrite Ed. }
    rewrite Hsplit in Hsorted. exact (sorted_app_le _ _ Hsorted _ _ Hes Hks).
Qed.


Lemma cleanupOldJobs_evicts_oldest_witness :
  let jobs := fill_store 1001 in
  let jobs' := cleanupOldJobs 1001 jobs in
  map_size jobs' = MAX_JOBS /\
  (forall e, In e jobs' -> In e jobs) /\
  (forall kept evicted,
     In kept jobs' -> In evicted jobs -> ~ In evicted jobs' ->
     createdAt (snd evicted) <= createdAt (snd kept)).
Proof.
  apply (cleanupOldJobs_evicts_oldest 1001 (fill_store 1001)).
  - compute_done.
  - intros e He.
    assert (H : forallb (fun e => negb (expired 1001 (snd e))) (fill_store 1001) = true)
      by (vm_compute; reflexivity).
    apply negb_true_iff. exact (proj1 (forallb_forall _ _) H e He).
  - vm_compute. reflexivity.
Defined.

End CleanUp.

(** * Properties of the error normalisation and of the batch endpoints *)

Section ErrorsAndBatch.
Import Schemas JobStore Service.

Variable S3W : Type.
Variable isUrl : string -> bool.
Variable batch_issues : BatchRequest -> string.

(** X26: [normalizeError] answers every caught value with an instance of
    [RedactionError] and is idempotent.  An error that is such an instance
    is returned as it is; of any other error the message is kept and the
    answer is a new error with a code and a status, so an error of another
    class that merely is named [ValidationError] becomes a new
    [ValidationError] with code [VALIDATION_ERROR] and status 400, whatever
    fields it carried; a caught value that is not an error becomes an
    [InternalError] with the message "Unknown error occurred". *)
Theorem normalizeError_normal_form (thrown : Thrown) :
  is_RedactionError (normalizeError thrown) = true /\
  normalizeError (normalizeError thrown) = normalizeError thrown /\
  match thrown with
  | ThrownError e =>
      err_message (normalizeError e) = err_message e /\
      (is_RedactionError e = true -> normalizeError e = e) /\
      (is_RedactionError e = false ->
       (exists code status,
          err_code (normalizeError e) = Some code /\
          err_statusCode (normalizeError e) = Some status) /\
       (err_name e = "ValidationError" ->
        normalizeError e
        = RedactionError "ValidationError" (err_message e) "VALIDATION_ERROR" 400))
  | ThrownValue =>
      normalizeError ThrownValue
      = RedactionError "InternalError" "Unknown error occurred" "INTERNAL_ERROR" 500
  end.
Proof.
  assert (H1 : is_RedactionError (normalizeError thrown) = true).
  { unfold normalizeError. destruct thrown as [e|]; [|reflexivity].
    destruct (is_RedactionError e) eqn:E; [exact E|].
    repeat match goal with
           | |- context [if ?b then _ else _] => destruct b
           end; reflexivity. }
  assert (H3 : forall x : JsError, is_RedactionError x = true -> normalizeError x = x).
  { intros x Hx. unfold normalizeError. now rewrite Hx. }
  split; [exact H1|]. split; [apply H3; exact H1|].
  destruct thrown as [e|]; [|reflexivity].
  split; [apply normalizeError_message|]. split; [apply H3|].
  intros Hn. split.
  - unfold normalizeError. rewrite Hn.
    repeat match goal with
           | |- context [if ?b then _ else _] => destruct b
           end; eexists _, _; split; reflexivity.
  - intros Hv. unfold normalizeError. rewrite Hn, Hv. reflexivity.
Qed.


End ErrorsAndBatch.

Section StoreScenarios.
Import Schemas JobStore Service Scenario.


Lemma createJob_no_expired_witness :
  let now := JOB_TTL_MS + 5 in
  let created := createJob now "new" [request_for "b"] None single_job_store in
  now - createdAt (fst created) <= JOB_TTL_MS.
Proof.
  apply (createJob_no_expired (JOB_TTL_MS + 5) "new" [request_for "b"] None
           single_job_store
           ("new", fst (createJob (JOB_TTL_MS + 5) "new" [request_for "b"] None
                          single_job_store))).
  vm_compute. left. reflexivity.
Defined.

End StoreScenarios.

(** * Properties of the request hash and of the entity tag *)

Section Hashing.
Import Schemas JobStore Service.

Variable JSON_stringify : list (string * FieldValue) -> string.
Variable sha256_hex : string -> string.

Lemma string_leb_trans s1 s2 s3 :
  String.leb s1 s2 = true -> String.leb s2 s3 = true -> String.leb s1 s3 = true.
Proof.
  unfold String.leb. revert s2 s3.
  induction s1 as [|a s1 IH]; intros [|b s2] [|c s3]; simpl; try congruence; auto.
  unfold Ascii.compare.
  destruct (N.compare_spec (N_of_ascii a) (N_of_ascii b)) as [Hab|Hab|Hab];
    destruct (N.compare_spec (N_of_ascii b) (N_of_ascii c)) as [Hbc|Hbc|Hbc];
    destruct (N.compare_spec (N_of_ascii a) (N_of_ascii c)) as [Hac|Hac|Hac];
    try lia; try congruence; auto.
  apply IH.
Qed.

Lemma insert_key_In e l x : In x (insert_key e l) <-> x = e \/ In x l.
Proof.
  induction l as [|e' l IH]; simpl; [intuition|].
  destruct (String.leb _ _); simpl; rewrite ?IH; intuition.
Qed.

Lemma insert_key_Permutation e l : Permutation (insert_key e l) (e :: l).
Proof.
  induction l as [|e' l IH]; simpl; [reflexivity|].
  destruct (String.leb _ _); [reflexivity|].
  rewrite IH. apply perm_swap.
Qed.

Lemma sort_keys_Permutation l : Permutation (sort_keys l) l.
Proof.
  unfold sort_keys. induction l as [|e l IH]; simpl; [reflexivity|].
  rewrite insert_key_Permutation. now rewrite IH.
Qed.

Lemma insert_key_sorted e l :
  StronglySorted key_le l -> StronglySorted key_le (insert_key e l).
Proof.
  induction l as [|e' l IH]; simpl; intros Hs.
  - constructor; constructor.
  - apply StronglySorted_inv in Hs. destruct Hs as [Hs Hall].
    destruct (String.leb (fst e) (fst e')) eqn:E.
    + constructor; [constructor; assumption|].
      constructor; [exact E|].
      eapply Forall_impl; [exact Hall|]. intros a Ha.
      exact (string_leb_trans _ _ _ E Ha).
    + constructor; [now apply IH|].
      rewrite Forall_forall. intros a Ha.
      apply list_elem_of_In in Ha. apply insert_key_In in Ha.
      destruct Ha as [->|Ha].
      * destruct (String.leb_total (fst e) (fst e')) as [H|H]; [congruence | exact H].
      * rewrite Forall_forall in Hall. apply Hall. now apply list_elem_of_In.
Qed.

Lemma sort_keys_sorted l : StronglySorted key_le (sort_keys l).
Proof.
  unfold sort_keys. induction l as [|e l IH]; simpl.
  - constructor.
  - now apply insert_key_sorted.
Qed.

Lemma sorted_unique (l1 l2 : list (string * FieldValue)) :
  NoDup (map fst l1) -> Permutation l1 l2 ->
  StronglySorted key_le l1 -> StronglySorted key_le l2 -> l1 = l2.
Proof.
  revert l2. induction l1 as [|a l1 IH]; intros l2 Hnd Hp Hs1 Hs2.
  - apply Permutation_nil in Hp. now subst.
  - destruct l2 as [|b l2]; [symmetry in Hp; now apply Permutation_nil in Hp|].
    apply StronglySorted_inv in Hs1. destruct Hs1 as [Hs1 Ha].
    apply StronglySorted_inv in Hs2. destruct Hs2 as [Hs2 Hb].
    rewrite Forall_forall in Ha, Hb.
    assert (Hab : a = b).
    { assert (Hin_a : In a (b :: l2)).
      { eapply Permutation_in; [exact Hp | now left]. }
      assert (Hin_b : In b (a :: l1)).
      { eapply Permutation_in; [symmetry; exact Hp | now left]. }
      destruct Hin_a as [->|Hin_a]; [reflexivity|].
      destruct Hin_b as [->|Hin_b]; [reflexivity|].
      assert (Hk : fst a = fst b).
      { apply String.leb_antisym.
        - apply Ha. now apply list_elem_of_In.
        - apply Hb. now apply list_elem_of_In. }
      exfalso. simpl in Hnd. apply NoDup_cons in Hnd. destruct Hnd as [Hn _].
      apply Hn. apply list_elem_of_In. rewrite Hk. now apply in_map. }
    subst b. f_equal. apply IH; auto.
    + simpl in Hnd. apply NoDup_cons in Hnd. tauto.
    + eapply Permutation_cons_inv. exact Hp.
Qed.

(** X28: the request hash does not depend on the order in which the fields of
    the object are given: two listings of the same fields under distinct
    keys hash to the same value. *)
Theorem generateRequestHash_order_insensitive
    (inputs inputs' : list (string * FieldValue)) :
  NoDup (map fst inputs) -> Permutation inputs inputs' ->
  generateRequestHash JSON_stringify sha256_hex inputs
  = generateRequestHash JSON_stringify sha256_hex inputs'.
Proof.
  intros Hnd Hp. unfold generateRequestHash. do 2 f_equal.
  apply sorted_unique.
  - rewrite (Permutation_map fst (sort_keys_Permutation inputs)). exact Hnd.
  - rewrite !sort_keys_Permutation. exact Hp.
  - apply sort_keys_sorted.
  - apply sort_keys_sorted.
Qed.


End Hashing.

Section HashingScenarios.
Import Schemas JobStore Service Scenario.

Lemma generateRequestHash_order_insensitive_witness :
  let body := request_for "a" in
  generateRequestHash MemoryS3.JSON_stringify MemoryS3.sha256_hex
    [("output", FOutput (output body)); ("input", FInput (input body));
     ("regions", FRegions (regions body))]
  = generateRequestHash MemoryS3.JSON_stringify MemoryS3.sha256_hex
      [("input", FInput (input body)); ("output", FOutput (output body));
       ("regions", FRegions (regions body))].
Proof.
  apply (generateRequestHash_order_insensitive MemoryS3.JSON_stringify
           MemoryS3.sha256_hex).
  - compute_done.
  - apply perm_swap.
Defined.

End HashingScenarios.
